(** * prefect.core.task: task declaration and dependency binding

    A shallow embedding of [src/prefect/core/task.py] and a verification of
    the properties its specification states about it.

    The file has two parts.  The first part holds the definitions: the Python
    values and dictionaries the code manipulates, the call-binding algorithm
    of [inspect.Signature.bind] that [Task.__call__] relies on, the object
    store with the ambient context, the [Flow] collaborator, and the three
    classes [Task], [Parameter] and [TaskResult].  The second part holds the
    lemmas and the theorems. *)

From stdpp Require Import gmap strings list pretty sorting.
From Stdlib Require Import ZArith Lia.

Open Scope string_scope.
Open Scope list_scope.
Open Scope nat_scope.

(* ===================================================================== *)
(** * Part I. Definitions                                                 *)
(* ===================================================================== *)

(** ** Python values *)

(** Mutable objects (flows, tasks, task results, tag collections) live in a
    store and are named by references. *)
Abbreviation ref := nat (only parsing).

(** [inspect.Parameter.kind]. *)
Inductive kind :=
| POSITIONAL_ONLY
| POSITIONAL_OR_KEYWORD
| VAR_POSITIONAL
| KEYWORD_ONLY
| VAR_KEYWORD.

(** An [inspect.Parameter].  [bind] never reads the default value itself,
    only whether there is one ([param.default is not _empty]).  The
    annotation is left out: nothing reads it, and a Parameter object is taken
    to be hashable, as it is unless its annotation or its default is not. *)
Record parameter := Param {
  p_name : string;
  p_kind : kind;
  p_has_default : bool
}.

(** The objects used as dictionary keys in [Task.__call__]: strings (the
    parameter names [bind] stores), [inspect.Parameter] objects and [None]
    (the two possible values of [var_kw_arg]).  Python compares a key of one
    sort unequal to a key of another: [str.__eq__] and
    [Parameter.__eq__] both answer [NotImplemented] on a foreign operand. *)
Inductive pykey :=
| KStr (s : string)
| KParam (p : parameter)
| KNone.

#[warnings="-register-all"]
Inductive pyval :=
| VNone
| VBool (b : bool)
| VInt (z : Z)
| VStr (s : string)
| VTuple (vs : list pyval)
| VDict (items : list (pykey * pyval))
| VTask (t : ref)
| VTaskResult (r : ref).

#[global] Instance kind_eq_dec : EqDecision kind.
Proof. solve_decision. Defined.

#[global] Instance parameter_eq_dec : EqDecision parameter.
Proof. solve_decision. Defined.

#[global] Instance pykey_eq_dec : EqDecision pykey.
Proof. solve_decision. Defined.

(** ** Exceptions and outcomes *)

Inductive exn :=
| TypeError (msg : string)
| AttributeError (msg : string)
| ValueError (msg : string)
| FAIL (msg : string)             (* prefect.signals.FAIL *)
| NoSuchObject (r : nat).         (* a reference with no object in the store:
                                     no Python program can build one *)

Inductive outcome (A : Type) :=
| Ok (a : A)
| Raise (e : exn).
Arguments Ok {A} a.
Arguments Raise {A} e.

Definition raises {A} (o : outcome A) : Prop := ∃ e, o = Raise e.

Definition is_raise {A} (o : outcome A) : bool :=
  match o with Raise _ => true | Ok _ => false end.

Definition obind {A B} (o : outcome A) (k : A → outcome B) : outcome B :=
  match o with
  | Ok a => k a
  | Raise e => Raise e
  end.

#[global] Instance outcome_ret : MRet outcome := λ A a, Ok a.
#[global] Instance outcome_bind : MBind outcome := λ A B k o, obind o k.

(** ** Dictionaries

    A Python [dict] keeps its items in insertion order, with one item per key.
    Assigning to a key that is present replaces the value in place. *)

Section Dict.
Context {K V : Type} `{EqDecision K}.

Fixpoint dict_get (k : K) (d : list (K * V)) : option V :=
  match d with
  | [] => None
  | (k', v) :: d' => if decide (k' = k) then Some v else dict_get k d'
  end.

Definition dict_mem (k : K) (d : list (K * V)) : bool :=
  match dict_get k d with Some _ => true | None => false end.

(** [d[k] = v] *)
Fixpoint dict_set (k : K) (v : V) (d : list (K * V)) : list (K * V) :=
  match d with
  | [] => [(k, v)]
  | (k', v') :: d' =>
      if decide (k' = k) then (k, v) :: d' else (k', v') :: dict_set k v d'
  end.

(** [del d[k]] *)
Fixpoint dict_del (k : K) (d : list (K * V)) : list (K * V) :=
  match d with
  | [] => []
  | (k', v') :: d' =>
      if decide (k' = k) then d' else (k', v') :: dict_del k d'
  end.

(** [d.pop(k)]: [None] stands for [KeyError]. *)
Definition dict_pop (k : K) (d : list (K * V)) : option (V * list (K * V)) :=
  match dict_get k d with
  | Some v => Some (v, dict_del k d)
  | None => None
  end.

(** [d.pop(k, default)] *)
Definition dict_pop_default (k : K) (default : V) (d : list (K * V))
  : V * list (K * V) :=
  match dict_pop k d with
  | Some r => r
  | None => (default, d)
  end.

(** [d.update(other)] for a mapping [other]. *)
Definition dict_update (d other : list (K * V)) : list (K * V) :=
  foldl (λ acc kv, dict_set kv.1 kv.2 acc) d other.

Definition dict_keys (d : list (K * V)) : list K := d.*1.
End Dict.

Abbreviation pydict := (list (pykey * pyval)) (only parsing).

(** The keyword arguments of a call: a mapping from names to values. *)
Abbreviation kwdict := (list (string * pyval)) (only parsing).

Definition kwargs_as_dict (kw : kwdict) : pydict :=
  map (λ kv, (KStr kv.1, kv.2)) kw.

(** [callargs.update(x)].  Python accepts a mapping or an iterable of
    key/value pairs for [x]; the mapping case is the one [__call__] can
    reach, every other value is reported as a [TypeError]. *)
Definition dict_update_value (d : pydict) (x : pyval) : outcome pydict :=
  match x with
  | VDict items => Ok (dict_update d items)
  | _ => Raise (TypeError "object is not iterable")
  end.

(** ** inspect.Signature.bind

    [Task.__call__] binds its arguments with [inspect.signature(self.run).bind].
    The definitions below follow [Signature._bind] of the standard library,
    with [partial=False].  A signature is the ordered list of the parameters
    of [run] after [self]. *)

Abbreviation signature := (list parameter) (only parsing).

Definition quote (s : string) : string := "'" +:+ s +:+ "'".

(** [repr(s)] of a string, which [_bind] puts in its messages with
    [{arg!r}].  A string is the list of its code points, all below 256.  The
    text is in single quotes, or in double quotes when the string holds a
    single quote and no double quote; the quote in use and the backslash are
    escaped, tab, newline and carriage return are written [\t], [\n] and
    [\r], and the other code points that are not printable are written
    [\xhh]. *)
Definition hex_digit (n : nat) : Ascii.ascii :=
  nth n (String.list_ascii_of_string "0123456789abcdef") (Ascii.ascii_of_nat 48).

(** [str.isprintable] on one code point below 256: the controls, the
    no-break space (160) and the soft hyphen (173) are not printable. *)
Definition printable (n : nat) : bool :=
  (32 <=? n) && (n <? 127) || (161 <=? n) && negb (n =? 173).

Definition repr_char (mark : nat) (c : Ascii.ascii) : string :=
  let n := Ascii.nat_of_ascii c in
  if (n =? mark) || (n =? 92) then String (Ascii.ascii_of_nat 92) (String c EmptyString)
  else if n =? 9 then "\t"
  else if n =? 10 then "\n"
  else if n =? 13 then "\r"
  else if printable n then String c EmptyString
  else "\x" +:+ String (hex_digit (n / 16)) (String (hex_digit (n mod 16)) EmptyString).

Definition repr (s : string) : string :=
  let codes := Ascii.nat_of_ascii <$> String.list_ascii_of_string s in
  let mark := if bool_decide (39 ∈ codes) && negb (bool_decide (34 ∈ codes))
              then 34 else 39 in
  let q := String (Ascii.ascii_of_nat mark) EmptyString in
  q +:+ foldr (λ c r, repr_char mark c +:+ r) EmptyString (String.list_ascii_of_string s)
    +:+ q.

Definition too_many_positional : exn :=
  TypeError "too many positional arguments".
Definition multiple_values (arg : string) : exn :=
  TypeError ("multiple values for argument " +:+ repr arg).
Definition missing_required (arg : string) : exn :=
  TypeError ("missing a required argument: " +:+ repr arg).
Definition positional_only_as_keyword (arg : string) : exn :=
  TypeError (repr arg +:+ " parameter is positional only, but was passed as a keyword").
Definition unexpected_keyword (arg : string) : exn :=
  TypeError ("got an unexpected keyword argument " +:+ repr arg).

(** The first loop of [_bind]: positional arguments are paired with the
    parameters in order.  The result is the [arguments] mapping so far and the
    parameters left for the second loop, [chain(parameters_ex, parameters)]. *)
Fixpoint bind_positional (parameters : list parameter) (arg_vals : list pyval)
    (kwargs : kwdict) (arguments : pydict)
  : outcome (pydict * list parameter) :=
  match arg_vals with
  | [] =>
      (* no more positional arguments *)
      match parameters with
      | [] => Ok (arguments, [])
      | param :: parameters' =>
          if decide (p_kind param = VAR_POSITIONAL) then
            Ok (arguments, parameters')
          else if dict_mem (p_name param) kwargs then
            if decide (p_kind param = POSITIONAL_ONLY) then
              Raise (positional_only_as_keyword (p_name param))
            else Ok (arguments, param :: parameters')
          else if bool_decide (p_kind param = VAR_KEYWORD) || p_has_default param then
            Ok (arguments, param :: parameters')
          else Raise (missing_required (p_name param))
      end
  | arg_val :: arg_vals' =>
      (* a positional argument to process *)
      match parameters with
      | [] => Raise too_many_positional
      | param :: parameters' =>
          if bool_decide (p_kind param = VAR_KEYWORD)
             || bool_decide (p_kind param = KEYWORD_ONLY) then
            Raise too_many_positional
          else if decide (p_kind param = VAR_POSITIONAL) then
            Ok (dict_set (KStr (p_name param)) (VTuple (arg_val :: arg_vals')) arguments,
                parameters')
          else if dict_mem (p_name param) kwargs
                  && negb (bool_decide (p_kind param = POSITIONAL_ONLY)) then
            Raise (multiple_values (p_name param))
          else
            bind_positional parameters' arg_vals' kwargs
              (dict_set (KStr (p_name param)) arg_val arguments)
      end
  end.

(** The second loop of [_bind]: the remaining parameters take their values
    from the keyword arguments.  The result is the [arguments] mapping, the
    keyword arguments not consumed, and [kwargs_param]. *)
Fixpoint bind_keywords (parameters : list parameter) (kwargs : kwdict)
    (arguments : pydict) (kwargs_param : option parameter)
  : outcome (pydict * kwdict * option parameter) :=
  match parameters with
  | [] => Ok (arguments, kwargs, kwargs_param)
  | param :: parameters' =>
      if decide (p_kind param = VAR_KEYWORD) then
        bind_keywords parameters' kwargs arguments (Some param)
      else if decide (p_kind param = VAR_POSITIONAL) then
        bind_keywords parameters' kwargs arguments kwargs_param
      else
        match dict_pop (p_name param) kwargs with
        | None =>
            if p_has_default param then
              bind_keywords parameters' kwargs arguments kwargs_param
            else Raise (missing_required (p_name param))
        | Some (arg_val, kwargs') =>
            if decide (p_kind param = POSITIONAL_ONLY) then
              Raise (positional_only_as_keyword (p_name param))
            else
              bind_keywords parameters' kwargs'
                (dict_set (KStr (p_name param)) arg_val arguments) kwargs_param
        end
  end.

(** The end of [_bind]: the keyword arguments no parameter took go to the
    variadic keyword parameter, or are an error. *)
Definition bind_overflow (r : pydict * kwdict * option parameter)
  : outcome pydict :=
  let '(arguments, kwargs, kwargs_param) := r in
  match kwargs with
  | [] => Ok arguments
  | (k, _) :: _ =>
      match kwargs_param with
      | Some p =>
          Ok (dict_set (KStr (p_name p)) (VDict (kwargs_as_dict kwargs)) arguments)
      | None => Raise (unexpected_keyword k)
      end
  end.

(** The two loops and the end of [_bind], from a given [arguments]
    mapping. *)
Definition bind_from (arguments : pydict) (parameters : list parameter)
    (args : list pyval) (kwargs : kwdict) : outcome pydict :=
  r ← bind_positional parameters args kwargs arguments;
  r ← bind_keywords r.2 kwargs r.1 None;
  bind_overflow r.

(** The [arguments] of [signature.bind] on the positional and the keyword
    arguments of a call. *)
Definition bind (sig : signature) (args : list pyval) (kwargs : kwdict)
  : outcome pydict :=
  bind_from [] sig args kwargs.

(** *** Well-formed calls

    What Python guarantees of a signature built from a [def]: the kinds
    come in the order positional, variadic positional, keyword-only,
    variadic keyword, with at most one parameter of each variadic kind, and
    no two parameters share a name.  The versions of [_bind] disagree on
    positional-only parameters, which a [def] could not declare when this
    code was written; a well-formed signature has none. *)

Definition kind_rank (k : kind) : nat :=
  match k with
  | POSITIONAL_ONLY => 0
  | POSITIONAL_OR_KEYWORD => 1
  | VAR_POSITIONAL => 2
  | KEYWORD_ONLY => 3
  | VAR_KEYWORD => 4
  end.

Definition kind_before (p q : parameter) : Prop :=
  kind_rank (p_kind p) < kind_rank (p_kind q)
  ∨ (p_kind p = p_kind q
     ∧ (p_kind p = POSITIONAL_OR_KEYWORD ∨ p_kind p = KEYWORD_ONLY)).

Definition wf_signature (sig : signature) : Prop :=
  StronglySorted kind_before sig
  ∧ NoDup (p_name <$> sig)
  ∧ Forall (λ p, p_kind p ≠ POSITIONAL_ONLY) sig.

(** Keyword arguments are a mapping: one value per name. *)
Definition wf_kwargs (kwargs : kwdict) : Prop := NoDup (dict_keys kwargs).

(** The parameters of [__call__] itself (lines 107-109), which Python
    binds before the body runs: a keyword [upstream_tasks] is the argument of
    that name, and a keyword [self] is a second value for the receiver, for
    which Python raises a TypeError.  Neither is ever among [kwargs]. *)
Definition own_keywords : list string := ["self"; "upstream_tasks"].

(** The keyword arguments that reach [**kwargs] of [__call__]. *)
Definition reaches_kwargs (kwargs : kwdict) : Prop :=
  ∀ k, k ∈ own_keywords → k ∉ dict_keys kwargs.

(** *** The ways a call fails to bind, in the words of the specification *)

(** The parameter takes a value by keyword. *)
Definition takes_keyword (p : parameter) : bool :=
  bool_decide (p_kind p = POSITIONAL_OR_KEYWORD)
  || bool_decide (p_kind p = KEYWORD_ONLY).

Definition has_kind (k : kind) (sig : signature) : bool :=
  existsb (λ p, bool_decide (p_kind p = k)) sig.

(** The parameters that take a value by position, and those among them
    that the positional arguments of the call fill. *)
Definition positional_params (sig : signature) : list parameter :=
  filter (λ p, p_kind p = POSITIONAL_ONLY ∨ p_kind p = POSITIONAL_OR_KEYWORD) sig.

Definition bound_positionally (sig : signature) (args : list pyval)
  : list parameter :=
  take (length args) (positional_params sig).

(** An unknown keyword name is passed: a name that no parameter takes by
    keyword, when there is no overflow slot to catch it. *)
Definition unknown_keyword (sig : signature) (kwargs : kwdict) : bool :=
  negb (has_kind VAR_KEYWORD sig)
  && existsb (λ k, negb (existsb (λ p, takes_keyword p && bool_decide (p_name p = k)) sig))
       (dict_keys kwargs).

(** Too many positional values are passed: more than there are positional
    parameters, when no variadic positional parameter catches the rest. *)
Definition too_many_positionals (sig : signature) (args : list pyval) : bool :=
  negb (has_kind VAR_POSITIONAL sig)
  && bool_decide (length (positional_params sig) < length args).

(** A required parameter receives no value: it has no default, and gets a
    value neither by position nor by keyword. *)
Definition missing_value (sig : signature) (args : list pyval)
    (kwargs : kwdict) : bool :=
  existsb (λ p, takes_keyword p
                && negb (p_has_default p)
                && bool_decide (p ∉ bound_positionally sig args)
                && negb (dict_mem (p_name p) kwargs)) sig.

(** A parameter receives two values: one by position and one by keyword. *)
Definition value_given_twice (sig : signature) (args : list pyval)
    (kwargs : kwdict) : bool :=
  existsb (λ p, dict_mem (p_name p) kwargs) (bound_positionally sig args).

(** ** The bound mapping of Task.__call__

    The part of [__call__] before the flow is resolved: bind, then
    expand the variadic keyword arguments. *)

(** [next((p for p in signature.parameters.values() if p.kind == VAR_KEYWORD), None)] *)
Definition var_kw_arg (sig : signature) : pykey :=
  match filter (λ p, p_kind p = VAR_KEYWORD) sig with
  | p :: _ => KParam p
  | [] => KNone
  end.

Definition callargs (sig : signature) (args : list pyval) (kwargs : kwdict)
  : outcome pydict :=
  obind (bind sig args kwargs)
    (λ callargs,
      let '(popped, callargs) :=
        dict_pop_default (var_kw_arg sig) (VDict []) callargs in
      dict_update_value callargs popped).

(** ** Objects

    The classes of [task.py] and the objects they build.  A task object
    carries the attributes [Task.__init__] assigns, and those of its
    subclasses [Parameter] (required, default) and [GetItem] (index). *)

(** A [datetime.timedelta], in seconds. *)
Abbreviation timedelta := Z (only parsing).

(** Trigger predicates are opaque to this layer. *)
Inductive trigger_fn :=
| all_successful                  (* prefect.triggers.all_successful *)
| custom_trigger (id : nat).

(** The subscripts of [result[index]].  This layer keeps the subscript
    and puts its text in the name of the derived task: an integer, a string,
    or any other object (a slice, a tuple, a float, ...), given with the text
    that the format field [{}] produces for it. *)
Inductive index :=
| IInt (z : Z)
| IStr (s : string)
| IObject (text : string).

(** The class of a task object decides the signature of its [run] method
    and how its [name] and [slug] attributes are read and written. *)
Inductive task_class :=
| TaskCls                                            (* prefect.Task *)
| ParameterCls                                       (* prefect.Parameter *)
| GetItemCls                                         (* prefect.tasks.core.operators.GetItem *)
| UserCls (cls_name : string) (run_sig : signature). (* a subclass that overrides run *)

Record task_obj := TaskObj {
  t_cls : task_class;
  t_name : option string;        (* [name], or [_name] for a Parameter; [None]: not assigned yet *)
  t_slug : option string;        (* the plain [slug] attribute; [None] is Python's None *)
  t_description : option string;
  t_group : string;
  t_tags : option ref;           (* the task's own set object; [None]: not assigned yet *)
  t_environment : option ref;
  t_checkpoint : bool;
  t_max_retries : Z;
  t_retry_delay : timedelta;
  t_timeout : option timedelta;
  t_trigger : trigger_fn;
  t_propagate_skip : bool;
  t_required : bool;             (* Parameter.required *)
  t_default : pyval;             (* Parameter.default *)
  t_index : option index         (* GetItem.index *)
}.

(** A new object of class [cls], before [__init__] runs.  Only [t_name] and
    [t_tags] record that an attribute is absent; nothing reads the other
    attributes before [__init__] assigns them. *)
Definition blank_task (cls : task_class) : task_obj :=
  TaskObj cls None None None "" None None false 0%Z 60%Z None all_successful false
          false VNone None.

Definition with_name (n : string) (o : task_obj) : task_obj :=
  TaskObj (t_cls o) (Some n) (t_slug o) (t_description o) (t_group o) (t_tags o)
          (t_environment o) (t_checkpoint o) (t_max_retries o) (t_retry_delay o)
          (t_timeout o) (t_trigger o) (t_propagate_skip o)
          (t_required o) (t_default o) (t_index o).

Definition with_slug (sl : option string) (o : task_obj) : task_obj :=
  TaskObj (t_cls o) (t_name o) sl (t_description o) (t_group o) (t_tags o)
          (t_environment o) (t_checkpoint o) (t_max_retries o) (t_retry_delay o)
          (t_timeout o) (t_trigger o) (t_propagate_skip o)
          (t_required o) (t_default o) (t_index o).

Definition with_parameter (required : bool) (default : pyval) (o : task_obj) : task_obj :=
  TaskObj (t_cls o) (t_name o) (t_slug o) (t_description o) (t_group o) (t_tags o)
          (t_environment o) (t_checkpoint o) (t_max_retries o) (t_retry_delay o)
          (t_timeout o) (t_trigger o) (t_propagate_skip o)
          required default (t_index o).

Definition with_index (i : index) (o : task_obj) : task_obj :=
  TaskObj (t_cls o) (t_name o) (t_slug o) (t_description o) (t_group o) (t_tags o)
          (t_environment o) (t_checkpoint o) (t_max_retries o) (t_retry_delay o)
          (t_timeout o) (t_trigger o) (t_propagate_skip o)
          (t_required o) (t_default o) (Some i).

(** [type(self).__name__] *)
Definition class_name (cls : task_class) : string :=
  match cls with
  | TaskCls => "Task"
  | ParameterCls => "Parameter"
  | GetItemCls => "GetItem"
  | UserCls n _ => n
  end.

(** Modelled from the spec: the work function of
    [prefect.tasks.core.operators.GetItem], missing from the source, takes
    the upstream output; [__getitem__] passes it under the keyword
    [task_result]. *)
Definition GetItem_run_signature : signature :=
  [Param "task_result" POSITIONAL_OR_KEYWORD false].

(** [inspect.signature(self.run)]: the parameters of the bound method.
    [Task.run] and [Parameter.run] take none. *)
Definition run_signature (cls : task_class) : signature :=
  match cls with
  | TaskCls => []
  | ParameterCls => []
  | GetItemCls => GetItem_run_signature
  | UserCls _ sig => sig
  end.

(** *** The name and slug attributes

    For a [Parameter], [name] and [slug] are properties (lines 183-206); for
    every other class they are plain attributes. *)

Definition no_attribute (cls attr : string) : exn :=
  AttributeError (quote cls +:+ " object has no attribute " +:+ quote attr).

(** [Parameter.name], the getter: [return self._name] *)
Definition Parameter_name (o : task_obj) : outcome string :=
  match t_name o with
  | Some n => Ok n
  | None => Raise (no_attribute "Parameter" "_name")
  end.

(** [Parameter.name], the setter *)
Definition Parameter_name_setter (value : string) (o : task_obj) : outcome task_obj :=
  match t_name o with
  | Some _ => Raise (AttributeError "Parameter name can not be changed")
  | None => Ok (with_name value o)
  end.

(** [Parameter.slug], the getter: [return self.name] *)
Definition Parameter_slug (o : task_obj) : outcome string :=
  Parameter_name o.

(** [Parameter.slug], the setter.  [value] may be any object; [None] is
    Python's None, which differs from every name. *)
Definition Parameter_slug_setter (value : option string) (o : task_obj)
  : outcome task_obj :=
  name ← Parameter_name o;
  if decide (value ≠ Some name)
  then Raise (AttributeError "Parameter slug must be the same as its name.")
  else Ok o.

(** [o.name] *)
Definition getattr_name (o : task_obj) : outcome string :=
  match t_cls o with
  | ParameterCls => Parameter_name o
  | cls =>
      match t_name o with
      | Some n => Ok n
      | None => Raise (no_attribute (class_name cls) "name")
      end
  end.

(** [o.name = value] *)
Definition setattr_name (value : string) (o : task_obj) : outcome task_obj :=
  match t_cls o with
  | ParameterCls => Parameter_name_setter value o
  | _ => Ok (with_name value o)
  end.

(** [o.slug] *)
Definition getattr_slug (o : task_obj) : outcome (option string) :=
  match t_cls o with
  | ParameterCls => slug ← Parameter_slug o; Ok (Some slug)
  | _ => Ok (t_slug o)
  end.

(** [o.slug = value] *)
Definition setattr_slug (value : option string) (o : task_obj) : outcome task_obj :=
  match t_cls o with
  | ParameterCls => Parameter_slug_setter value o
  | _ => Ok (with_slug value o)
  end.

(** An assignment to one of the two attributes, and the object after a
    script of assignments: one that raises leaves the object as it was. *)
Inductive assignment :=
| AssignName (value : string)
| AssignSlug (value : option string).

Definition assign (a : assignment) (o : task_obj) : outcome task_obj :=
  match a with
  | AssignName value => setattr_name value o
  | AssignSlug value => setattr_slug value o
  end.

Definition after_assignments (script : list assignment) (o : task_obj)
  : task_obj :=
  foldl (λ o a, match assign a o with Ok o' => o' | Raise _ => o end) o script.

(** *** Flows and task results *)

(** What an edge starts from.  [Task.__call__] hands every bound value to
    the flow as it is; telling a task from a literal is the flow's work. *)
#[warnings="-register-all"]
Inductive node :=
| NTask (t : ref)
| NConstant (v : pyval).

Record edge := Edge {
  e_upstream : node;
  e_downstream : ref;
  e_key : option pykey
}.

Record flow_obj := FlowObj {
  flow_tasks : list ref;
  flow_edges : list edge
}.

(** A collection of strings: a list object or a set object.  The tags of a
    task, the [tags] argument and the ambient tags are such objects. *)
Inductive coll :=
| CList (l : list string)
| CSet (x : gset string).

(** The elements an iteration over the collection yields. *)
Definition coll_elements (c : coll) : list string :=
  match c with
  | CList l => l
  | CSet x => elements x
  end.

(** [c.update(xs)]: a method of sets only. *)
Definition coll_update (c : coll) (xs : list string) : outcome coll :=
  match c with
  | CSet x => Ok (CSet (x ∪ list_to_set xs))
  | CList _ => Raise (no_attribute "list" "update")
  end.

(** A [TaskResult]: the attributes [task] and [flow]. *)
Record task_result := TaskResultObj {
  tr_task : ref;
  tr_flow : ref
}.

(** ** The store

    Every mutable object lives in the store under its reference; references
    are handed out in increasing order, so that a new object never shares
    its reference with an older one. *)
Record store := Store {
  next_ref : ref;
  colls : gmap ref coll;
  tasks : gmap ref task_obj;
  flows : gmap ref flow_obj;
  results : gmap ref task_result
}.

Definition empty_store : store := Store 0 ∅ ∅ ∅ ∅.

(** Computations that read and write the store and may raise.  The store
    a computation leaves behind is kept when it raises. *)
Definition Py (A : Type) : Type := store → outcome A * store.

#[global] Instance Py_ret : MRet Py := λ A a s, (Ok a, s).

#[global] Instance Py_bind : MBind Py := λ A B k m s,
  match m s with
  | (Ok a, s') => k a s'
  | (Raise e, s') => (Raise e, s')
  end.

Definition raise {A} (e : exn) : Py A := λ s, (Raise e, s).

Definition lift {A} (o : outcome A) : Py A := λ s, (o, s).

Definition get_store : Py store := λ s, (Ok s, s).

Definition lookup_obj {A} (table : store → gmap ref A) (r : ref) : Py A := λ s,
  match table s !! r with
  | Some a => (Ok a, s)
  | None => (Raise (NoSuchObject r), s)
  end.

Definition get_coll : ref → Py coll := lookup_obj colls.
Definition get_task : ref → Py task_obj := lookup_obj tasks.
Definition get_flow : ref → Py flow_obj := lookup_obj flows.
Definition get_result : ref → Py task_result := lookup_obj results.

(** The store after the object at [r] is written. *)
Definition store_coll (r : ref) (c : coll) (s : store) : store :=
  Store (next_ref s) (<[r := c]> (colls s)) (tasks s) (flows s) (results s).
Definition store_task (r : ref) (o : task_obj) (s : store) : store :=
  Store (next_ref s) (colls s) (<[r := o]> (tasks s)) (flows s) (results s).
Definition store_flow (r : ref) (f : flow_obj) (s : store) : store :=
  Store (next_ref s) (colls s) (tasks s) (<[r := f]> (flows s)) (results s).
Definition store_result (r : ref) (x : task_result) (s : store) : store :=
  Store (next_ref s) (colls s) (tasks s) (flows s) (<[r := x]> (results s)).

(** The store after one reference is handed out. *)
Definition store_next (s : store) : store :=
  Store (S (next_ref s)) (colls s) (tasks s) (flows s) (results s).

Definition put_coll (r : ref) (c : coll) : Py unit := λ s, (Ok (), store_coll r c s).
Definition put_task (r : ref) (o : task_obj) : Py unit := λ s, (Ok (), store_task r o s).
Definition put_flow (r : ref) (f : flow_obj) : Py unit := λ s, (Ok (), store_flow r f s).
Definition put_result (r : ref) (x : task_result) : Py unit := λ s, (Ok (), store_result r x s).

(** A reference no object has. *)
Definition fresh_ref : Py ref := λ s, (Ok (next_ref s), store_next s).

(** Every object of the store was handed its reference by [fresh_ref]. *)
Definition store_wf (s : store) : Prop :=
  (∀ r, is_Some (colls s !! r) → r < next_ref s)
  ∧ (∀ r, is_Some (tasks s !! r) → r < next_ref s)
  ∧ (∀ r, is_Some (flows s !! r) → r < next_ref s)
  ∧ (∀ r, is_Some (results s !! r) → r < next_ref s).

Definition alloc_coll (c : coll) : Py ref :=
  r ← fresh_ref; put_coll r c;; mret r.
Definition alloc_task (o : task_obj) : Py ref :=
  r ← fresh_ref; put_task r o;; mret r.
Definition alloc_flow (f : flow_obj) : Py ref :=
  r ← fresh_ref; put_flow r f;; mret r.
Definition alloc_result (x : task_result) : Py ref :=
  r ← fresh_ref; put_result r x;; mret r.

(** ** The ambient context *)

(** Modelled from the spec: [prefect.context] is not in [task.py].  It is a
    key-based lookup with a default fallback; the keys this layer reads are
    the current flow, the current group (a string), the current tags (a
    collection of strings) and the current parameter values (a mapping from
    names to values).  A field is [None] when its key is absent. *)
Record context := Context {
  ctx_flow : option ref;                       (* "_flow" *)
  ctx_group : option string;                   (* "_group" *)
  ctx_tags : option ref;                       (* "_tags": a collection *)
  ctx_parameters : option (gmap string pyval)  (* "_parameters" *)
}.

Definition empty_context : context := Context None None None None.

(** The context names objects of the store. *)
Definition ctx_wf (ctx : context) (s : store) : Prop :=
  (∀ f, ctx_flow ctx = Some f → is_Some (flows s !! f))
  ∧ (∀ r, ctx_tags ctx = Some r → is_Some (colls s !! r)).

(** ** Flow

    The class [prefect.core.flow.Flow] is a collaborator of this layer: it
    owns the nodes and the edges.  Its code is not in [task.py]; what the
    specification says of its interface is modelled here. *)

(** Modelled from the spec: [Flow()], missing from the source, is a freshly
    constructed empty flow. *)
Definition construct_Flow : Py ref := alloc_flow (FlowObj [] []).

(** Modelled from the spec: the node insertion of [Flow.add_task], missing
    from the source, is idempotent, a no-op if the task is already present. *)
Definition flow_with_task (task : ref) (f : flow_obj) : flow_obj :=
  if decide (task ∈ flow_tasks f) then f
  else FlowObj (flow_tasks f ++ [task]) (flow_edges f).

(** Modelled from the spec: [Flow.add_task], missing from the source, on the
    flow object [self]. *)
Definition Flow_add_task (self task : ref) : Py unit :=
  f ← get_flow self;
  put_flow self (flow_with_task task f).

(** The store after [task] is added to the flow [flow], if there is one. *)
Definition store_registered (flow : option ref) (task : ref) (s : store) : store :=
  match flow with
  | Some f =>
      match flows s !! f with
      | Some fl => store_flow f (flow_with_task task fl) s
      | None => s
      end
  | None => s
  end.

(** *** Validation

    Modelled from the spec: the validation of [Flow.set_dependencies],
    missing from the source, rejects graph cycles and duplicate slugs.  The
    definitions from here to [flow_valid] decide the two. *)

(** The edges between tasks, as pairs (upstream, downstream). *)
Definition task_edges (es : list edge) : list (ref * ref) :=
  omap (λ e, match e_upstream e with
             | NTask u => Some (u, e_downstream e)
             | NConstant _ => None
             end) es.

Definition successors (es : list (ref * ref)) (n : ref) : list ref :=
  (filter (λ e, e.1 = n) es).*2.

(** Is [target] among [from] or reachable from there in fewer than [fuel]
    steps? *)
Fixpoint reachable (fuel : nat) (es : list (ref * ref)) (from : list ref)
    (target : ref) : bool :=
  match fuel with
  | 0 => false
  | S fuel' =>
      existsb (λ n, bool_decide (n = target)
                    || reachable fuel' es (successors es n) target) from
  end.

(** A cycle goes through some edge: its upstream end is reachable from its
    downstream end, along a path that uses every edge at most once. *)
Definition has_cycle (es : list (ref * ref)) : bool :=
  existsb (λ e, reachable (length es) es [e.2] e.1) es.

(** What [has_cycle] decides: a path of one edge or more leads from some
    task back to itself. *)
Inductive path (es : list (ref * ref)) : ref → ref → Prop :=
| path_edge a b : (a, b) ∈ es → path es a b
| path_step a b c : (a, b) ∈ es → path es b c → path es a c.


(** A chain of edges, each ending where the next one starts, and the node
    where the chain that starts with [e] ends; used to count the edges of a
    path. *)
Fixpoint chain (l : list (ref * ref)) : Prop :=
  match l with
  | [] => True
  | e :: l' =>
      match l' with
      | [] => True
      | e' :: _ => e.2 = e'.1 ∧ chain l'
      end
  end.

Definition chain_end (e : ref * ref) (l : list (ref * ref)) : ref :=
  (List.last l e).2.

(** The slugs of the tasks of a flow that have one. *)
Definition flow_slugs (s : store) (f : flow_obj) : list string :=
  omap (λ t, match tasks s !! t with
             | Some o => match getattr_slug o with
                         | Ok slug => slug
                         | Raise _ => None
                         end
             | None => None
             end) (flow_tasks f).

(** Modelled from the spec: what the validation of [Flow.set_dependencies],
    missing from the source, accepts: no cycle, and no slug twice. *)
Definition flow_valid (s : store) (f : flow_obj) : bool :=
  negb (has_cycle (task_edges (flow_edges f)))
  && bool_decide (NoDup (flow_slugs s f)).


(** The task's own tags and its group, as a store holds them. *)
Definition Task_tags (s : store) (task : ref) : option coll :=
  o ← tasks s !! task; r ← t_tags o; colls s !! r.

Definition Task_group (s : store) (task : ref) : option string :=
  t_group <$> tasks s !! task.

(** ** TaskResult *)

(** [TaskResult(task, flow)]: lines 227-232.  The new object is returned. *)
Definition TaskResult__init__ (task : ref) (flow : option ref) : Py ref :=
  flow ← match flow with
         | None => construct_Flow
         | Some flow => mret flow
         end;
  Flow_add_task flow task;;
  alloc_result (TaskResultObj task flow).

(** Modelled from the spec: the flow's reading of a bound value, which
    [Task.__call__] leaves to the flow, missing from the source: a task, the
    task of a task result, or a constant. *)
Definition as_node (s : store) (v : pyval) : outcome node :=
  match v with
  | VTask t => Ok (NTask t)
  | VTaskResult r =>
      match results s !! r with
      | Some x => Ok (NTask (tr_task x))
      | None => Raise (NoSuchObject r)
      end
  | _ => Ok (NConstant v)
  end.

(** Modelled from the spec: [Flow.set_dependencies], missing from the
    source, creates one edge into [task] for each keyword dependency. *)
Fixpoint keyword_edges (s : store) (task : ref) (d : pydict)
  : outcome (list edge) :=
  match d with
  | [] => Ok []
  | (k, v) :: d' =>
      n ← as_node s v;
      es ← keyword_edges s task d';
      Ok (Edge n task (Some k) :: es)
  end.

(** How many times a task is among the nodes of a flow. *)
Definition node_count (task : ref) (f : flow_obj) : nat :=
  length (filter (λ t, t = task) (flow_tasks f)).

Definition flow_with_edges (es : list edge) (f : flow_obj) : flow_obj :=
  FlowObj (flow_tasks f) (flow_edges f ++ es).

Definition invalid_flow : exn :=
  ValueError "the flow has a cycle or a duplicate slug".

(** Modelled from the spec: [Flow.set_dependencies], missing from the
    source, creates one edge for each explicit upstream and downstream
    task. *)
Definition explicit_edges (task : ref)
    (upstream_tasks downstream_tasks : option (list ref)) : list edge :=
  map (λ t, Edge (NTask t) task None) (default [] upstream_tasks)
  ++ map (λ t, Edge (NTask task) t None) (default [] downstream_tasks).

(** Modelled from the spec: [Flow.set_dependencies], missing from the
    source, creates the edges, rejects graph cycles and duplicate slugs when
    [validate] is true, and returns a [TaskResult] bound to the task and the
    flow.  The task is a node of the flow that is validated, so that its own
    slug counts. *)
Definition Flow_set_dependencies (self task : ref)
    (upstream_tasks downstream_tasks : option (list ref))
    (keyword_results : option pydict) (validate : bool) : Py ref :=
  s ← get_store;
  kws ← lift (keyword_edges s task (default [] keyword_results));
  Flow_add_task self task;;
  f ← get_flow self;
  put_flow self
    (flow_with_edges (explicit_edges task upstream_tasks downstream_tasks ++ kws) f);;
  s ← get_store;
  f ← get_flow self;
  if validate && negb (flow_valid s f)
  then raise invalid_flow
  else TaskResult__init__ task (Some self).

(** ** Task *)

(** The [tags] argument of [Task.__init__]: [None], one string, or an
    iterable of strings (a collection of the store). *)
Inductive tags_arg :=
| TagsNone
| TagsStr (tag : string)
| TagsIter (r : ref).

(** The arguments of [Task.__init__], lines 35-49. *)
Record task_args := TaskArgs {
  a_name : option string;
  a_slug : option string;
  a_description : option string;
  a_group : option string;
  a_tags : tags_arg;
  a_max_retries : Z;
  a_retry_delay : timedelta;
  a_timeout : option timedelta;
  a_trigger : option trigger_fn;
  a_propagate_skip : bool;
  a_environment : option ref;
  a_checkpoint : bool
}.

(** The defaults of the signature; [retry_delay] is one minute. *)
Definition default_args : task_args :=
  TaskArgs None None None None TagsNone 0%Z 60%Z None None false None false.

Definition named_args (name slug : option string) : task_args :=
  TaskArgs name slug None None TagsNone 0%Z 60%Z None None false None false.

(** [x or d] for an optional string [x]: [None] and the empty string are
    false. *)
Definition str_or (x : option string) (d : string) : string :=
  match x with
  | Some s => if decide (s = EmptyString) then d else s
  | None => d
  end.

(** The strings the [tags] argument and the ambient tags hold in a store. *)
Definition explicit_tags (t : tags_arg) (s : store) : list string :=
  match t with
  | TagsNone => []
  | TagsStr tag => [tag]
  | TagsIter r => from_option coll_elements [] (colls s !! r)
  end.

Definition ambient_tags (ctx : context) (s : store) : list string :=
  match ctx_tags ctx with
  | Some r => from_option coll_elements [] (colls s !! r)
  | None => []
  end.

(** The [tags] argument names an object of the store. *)
Definition tags_wf (t : tags_arg) (s : store) : Prop :=
  match t with
  | TagsIter r => is_Some (colls s !! r)
  | _ => True
  end.

(** The attributes assigned on lines 53-70. *)
Definition with_attributes (a : task_args) (group : string) (tags : ref)
    (o : task_obj) : task_obj :=
  TaskObj (t_cls o) (t_name o) (t_slug o) (a_description a) group (Some tags)
          (a_environment a) (a_checkpoint a) (a_max_retries a) (a_retry_delay a)
          (a_timeout a) (default all_successful (a_trigger a)) (a_propagate_skip a)
          (t_required o) (t_default o) (t_index o).

(** The object [Task.__init__] ends with, and the content of its tags:
    the explicit tags and the ambient tags together. *)
Definition initialised (a : task_args) (ctx : context) (s : store) (o : task_obj)
  : task_obj :=
  with_attributes a (str_or (a_group a) (default EmptyString (ctx_group ctx)))
    (next_ref s) o.

Definition own_tags (a : task_args) (ctx : context) (s : store) : coll :=
  CSet (list_to_set (explicit_tags (a_tags a) s) ∪ list_to_set (ambient_tags ctx s)).

(** [Task.__init__], lines 35-74, on the object [self]. *)
Definition Task__init__ (self : ref) (a : task_args) (ctx : context) : Py unit :=
  (* self.name = name or type(self).__name__ *)
  o ← get_task self;
  o ← lift (setattr_name (str_or (a_name a) (class_name (t_cls o))) o);
  put_task self o;;
  (* self.slug = slug *)
  o ← lift (setattr_slug (a_slug a) o);
  put_task self o;;
  (* self.group = str(group or prefect.context.get("_group", "")) *)
  let group := str_or (a_group a) (default EmptyString (ctx_group ctx)) in
  (* self.tags = set(tags or []) *)
  explicit ← match a_tags a with
             | TagsNone => mret []
             | TagsStr tag => mret [tag]
             | TagsIter r => c ← get_coll r; mret (coll_elements c)
             end;
  tags ← alloc_coll (CSet (list_to_set explicit));
  (* self.tags.update(prefect.context.get("_tags", [])) *)
  ambient ← match ctx_tags ctx with
            | Some r => c ← get_coll r; mret (coll_elements c)
            | None => mret []
            end;
  own ← get_coll tags;
  own ← lift (coll_update own ambient);
  put_coll tags own;;
  put_task self (with_attributes a group tags o);;
  (* flow = prefect.context.get("_flow"); if flow: flow.add_task(self) *)
  match ctx_flow ctx with
  | Some flow => Flow_add_task flow self
  | None => mret ()
  end.

(** The expression [cls(...)] for [Task] and the subclasses that keep its
    [__init__]: a new object, initialised. *)
Definition construct_Task (cls : task_class) (a : task_args) (ctx : context)
  : Py ref :=
  self ← alloc_task (blank_task cls);
  Task__init__ self a ctx;;
  mret self.

(** [Task.inputs], lines 81-82 *)
Definition Task_inputs (o : task_obj) : list string :=
  p_name <$> run_signature (t_cls o).

(** [Task.set_dependencies], lines 126-144.  The default of
    [prefect.context.get] is an argument: [prefect.Flow()] is evaluated
    before the lookup. *)
Definition Task_set_dependencies (self : ref) (flow : option ref)
    (upstream_tasks downstream_tasks : option (list ref))
    (keyword_results : option pydict) (validate : bool) (ctx : context)
  : Py ref :=
  flow ← match flow with
         | None => new_flow ← construct_Flow;
                   mret (default new_flow (ctx_flow ctx))
         | Some flow => mret flow
         end;
  Flow_set_dependencies flow self upstream_tasks downstream_tasks
    keyword_results validate.

(** [Task.__call__], lines 107-124: the body, on the arguments as Python
    hands them over.  [kwargs] are the keyword arguments that reach
    [**kwargs] ([reaches_kwargs]): [upstream_tasks] comes apart, and a call
    with a keyword [self] never gets here. *)
Definition Task__call__ (self : ref) (args : list pyval)
    (upstream_tasks : option (list ref)) (kwargs : kwdict) (ctx : context)
  : Py ref :=
  o ← get_task self;
  callargs ← lift (callargs (run_signature (t_cls o)) args kwargs);
  new_flow ← construct_Flow;
  let flow := default new_flow (ctx_flow ctx) in
  Task_set_dependencies self (Some flow) upstream_tasks None (Some callargs)
    true ctx.

(** ** Parameter *)

(** [Parameter.__init__], lines 164-181, on the object [self]. *)
Definition Parameter__init__ (self : ref) (name : string) (default : pyval)
    (required : bool) (ctx : context) : Py unit :=
  let required := match default with
                  | VNone => required
                  | _ => false
                  end in
  o ← get_task self;
  put_task self (with_parameter required default o);;
  Task__init__ self (named_args (Some name) (Some name)) ctx.

(** The expression [Parameter(name, default, required)]. *)
Definition construct_Parameter (name : string) (default : pyval)
    (required : bool) (ctx : context) : Py ref :=
  self ← alloc_task (blank_task ParameterCls);
  Parameter__init__ self name default required ctx;;
  mret self.

(** The double quote character. *)
Definition dquote : string := String (Ascii.ascii_of_nat 34) EmptyString.

(** [Parameter.run], lines 208-214 *)
Definition Parameter_run (o : task_obj) (ctx : context) : outcome pyval :=
  let params := default ∅ (ctx_parameters ctx) in
  name ← getattr_name o;
  if t_required o && bool_decide (params !! name = None) then
    Raise (FAIL ("Parameter " +:+ dquote +:+ name +:+ dquote
                 +:+ " was required but not provided."))
  else
    Ok (default (t_default o) (params !! name)).

(** ** GetItem and index access *)

(** Modelled from the spec: [prefect.tasks.core.operators.GetItem], missing
    from the source, is the operator that extracts element [index] from its
    upstream output: a task that keeps [index] and is otherwise built by
    [Task.__init__] under the given name. *)
Definition construct_GetItem (index : index) (name : option string)
    (ctx : context) : Py ref :=
  self ← alloc_task (with_index index (blank_task GetItemCls));
  Task__init__ self (named_args name None) ctx;;
  mret self.

(** [str(index)] *)
Definition str_index (i : index) : string :=
  match i with
  | IInt z => pretty z
  | IStr s => s
  | IObject text => text
  end.

(** The name of the derived task: the format string with two fields,
    the parent's name and the index in brackets. *)
Definition getitem_name (parent : string) (i : index) : string :=
  parent +:+ "[" +:+ str_index i +:+ "]".

(** [TaskResult.__getitem__], lines 234-238 *)
Definition TaskResult__getitem__ (self : ref) (index : index) (ctx : context)
  : Py ref :=
  x ← get_result self;
  task ← get_task (tr_task x);
  name ← lift (getattr_name task);
  index_task ← construct_GetItem index (Some (getitem_name name index)) ctx;
  Task__call__ index_task [] None [("task_result", VTaskResult self)] ctx.

Section FlowDefault.
(** The default of [Flow.set_dependencies] for [validate].  Neither
    [task.py] nor the specification fixes it. *)
Variable Flow_validate_default : bool.

(** [TaskResult.set_dependencies], lines 240-252: no [validate] is
    passed, so the flow's own default applies. *)
Definition TaskResult_set_dependencies (self : ref)
    (upstream_tasks downstream_tasks : option (list ref))
    (keyword_results : option pydict) : Py unit :=
  x ← get_result self;
  Flow_set_dependencies (tr_flow x) (tr_task x) upstream_tasks downstream_tasks
    keyword_results Flow_validate_default;;
  mret ().
End FlowDefault.

(** ** The examples of the specification *)

(** A work function declared [run(self, a, b=1)]. *)
Definition sig_a_b : signature :=
  [Param "a" POSITIONAL_OR_KEYWORD false; Param "b" POSITIONAL_OR_KEYWORD true].

(** A work function declared [run(self, a, **rest)]. *)
Definition sig_a_rest : signature :=
  [Param "a" POSITIONAL_OR_KEYWORD false; Param "rest" VAR_KEYWORD false].

(** A small authoring session: a flow (reference 0) is the current flow,
    the ambient tags are a list (reference 1) and the group is set; a task
    of a class [Add] with the work function [run(self, a, b=1)] is
    constructed with a tag of its own (references 2 and 3). *)
Definition session_ctx : context := Context (Some 0) (Some "etl") (Some 1) None.

Definition session_args : task_args :=
  TaskArgs None None None None (TagsStr "fast") 0%Z 60%Z None None false None false.

Definition session_start : store :=
  (alloc_coll (CList ["nightly"]) (construct_Flow empty_store).2).2.

Definition session_store : store :=
  (construct_Task (UserCls "Add" sig_a_b) session_args session_ctx session_start).2.

(** The session after the task is invoked once, [add(1)]: the call builds
    a flow of its own that it does not use (reference 4) and returns the
    TaskResult (reference 5). *)
Definition session_invoked : store :=
  (Task__call__ 2 [VInt 1] None [] session_ctx session_store).2.

(** The same session seen from another current flow, the one at
    reference 4. *)
Definition other_flow_ctx : context := Context (Some 4) None None None.






(** A decision procedure for [store_wf]. *)
Definition store_wf_check (s : store) : bool :=
  bool_decide (map_Forall (λ r _, r < next_ref s) (colls s))
  && bool_decide (map_Forall (λ r _, r < next_ref s) (tasks s))
  && bool_decide (map_Forall (λ r _, r < next_ref s) (flows s))
  && bool_decide (map_Forall (λ r _, r < next_ref s) (results s)).

(** ** Descriptions

    [Task.__repr__] and the records of [info]. *)

(** [Task.__repr__], lines 76-77.  The subclasses inherit it: the text
    reads Task whatever the class of the object. *)
Definition Task__repr__ (o : task_obj) : outcome string :=
  name ← getattr_name o;
  Ok ("<Task: " +:+ name +:+ ">").

(** The values a description holds: Python values, durations, trigger
    functions and environment objects. *)
#[warnings="-register-all"]
Inductive info_value :=
| IValue (v : pyval)
| ITimedelta (d : timedelta)
| ITrigger (t : trigger_fn)
| IEnvironment (r : ref).

(** An optional string as a Python value. *)
Definition str_or_None (x : option string) : pyval :=
  match x with
  | Some s => VStr s
  | None => VNone
  end.

Definition timedelta_or_None (x : option timedelta) : info_value :=
  match x with
  | Some d => ITimedelta d
  | None => IValue VNone
  end.

Definition environment_or_None (x : option ref) : info_value :=
  match x with
  | Some r => IEnvironment r
  | None => IValue VNone
  end.

(** Reading one of the attributes that [Task.__init__] assigns on lines
    53-70.  No step between these lines fails, so an object has all of them
    or none: it has them when it has its [tags]. *)
Definition getattr_assigned {A} (attr : string) (read : task_obj → A)
    (o : task_obj) : outcome A :=
  match t_tags o with
  | Some _ => Ok (read o)
  | None => Raise (no_attribute (class_name (t_cls o)) attr)
  end.

Section Descriptions.
(** [prefect.utilities.json.to_qualified_name] is not in [task.py]; the
    descriptions are given for any naming of the classes. *)
Variable to_qualified_name : task_class → string.

(** [get_task_info], lines 18-31: the attributes are read in the order of
    the keywords of [dict(...)], which is the order of the keys. *)
Definition get_task_info (task : task_obj) : outcome (list (string * info_value)) :=
  name ← getattr_name task;
  slug ← getattr_slug task;
  let type := to_qualified_name (t_cls task) in
  description ← getattr_assigned "description" t_description task;
  max_retries ← getattr_assigned "max_retries" t_max_retries task;
  retry_delay ← getattr_assigned "retry_delay" t_retry_delay task;
  timeout ← getattr_assigned "timeout" t_timeout task;
  trigger ← getattr_assigned "trigger" t_trigger task;
  propagate_skip ← getattr_assigned "propagate_skip" t_propagate_skip task;
  environment ← getattr_assigned "environment" t_environment task;
  checkpoint ← getattr_assigned "checkpoint" t_checkpoint task;
  Ok [("name", IValue (VStr name));
      ("slug", IValue (str_or_None slug));
      ("type", IValue (VStr type));
      ("description", IValue (str_or_None description));
      ("max_retries", IValue (VInt max_retries));
      ("retry_delay", ITimedelta retry_delay);
      ("timeout", timedelta_or_None timeout);
      ("trigger", ITrigger trigger);
      ("propagate_skip", IValue (VBool propagate_skip));
      ("environment", environment_or_None environment);
      ("checkpoint", IValue (VBool checkpoint))].

(** [Task.info], lines 148-152 *)
Definition Task_info (self : task_obj) : outcome (list (string * info_value)) :=
  get_task_info self.

(** [Parameter.info], lines 216-219 *)
Definition Parameter_info (self : task_obj) : outcome (list (string * info_value)) :=
  info ← Task_info self;
  Ok (dict_update info [("required", IValue (VBool (t_required self)));
                        ("default", IValue (t_default self))]).
End Descriptions.

(** ** The bound mapping, part by part

    What a call that binds hands to the flow, described without the loops
    of [_bind]: four groups of items, in this order. *)

(** The positional values, each under the name of the parameter at its
    position. *)
Definition positional_items (sig : signature) (args : list pyval) : pydict :=
  kwargs_as_dict (zip (p_name <$> positional_params sig) args).

(** The positional values left over, as a tuple under the name of the
    variadic positional parameter. *)
Definition variadic_items (sig : signature) (args : list pyval) : pydict :=
  match filter (λ p, p_kind p = VAR_POSITIONAL) sig,
        drop (length (positional_params sig)) args with
  | p :: _, a :: extra => [(KStr (p_name p), VTuple (a :: extra))]
  | _, _ => []
  end.

(** The keyword values, each under its name, in the order of the
    signature. *)
Definition keyword_items (sig : signature) (kwargs : kwdict) : pydict :=
  omap (λ p, if takes_keyword p
             then v ← dict_get (p_name p) kwargs; Some (KStr (p_name p), v)
             else None) sig.

(** The keywords that no parameter takes, in the order of the call. *)
Definition overflow_kwargs (sig : signature) (kwargs : kwdict) : kwdict :=
  filter (λ kv, kv.1 ∉ p_name <$> filter (λ p, takes_keyword p) sig) kwargs.

(** The keywords that no parameter takes, as a mapping under the name of
    the variadic keyword parameter. *)
Definition overflow_items (sig : signature) (kwargs : kwdict) : pydict :=
  match filter (λ p, p_kind p = VAR_KEYWORD) sig, overflow_kwargs sig kwargs with
  | p :: _, kv :: rest => [(KStr (p_name p), VDict (kwargs_as_dict (kv :: rest)))]
  | _, _ => []
  end.

Definition bound_mapping (sig : signature) (args : list pyval) (kwargs : kwdict)
  : pydict :=
  positional_items sig args ++ variadic_items sig args
  ++ keyword_items sig kwargs ++ overflow_items sig kwargs.

(** A work function declared [run(self, a, b=1, *more, c, **rest)]. *)
Definition sig_all_kinds : signature :=
  [Param "a" POSITIONAL_OR_KEYWORD false; Param "b" POSITIONAL_OR_KEYWORD true;
   Param "more" VAR_POSITIONAL false; Param "c" KEYWORD_ONLY false;
   Param "rest" VAR_KEYWORD false].

(* ===================================================================== *)
(** * Part II. Lemmas and theorems                                         *)
(* ===================================================================== *)

(** ** Dictionaries *)

Section DictFacts.
Context {K V : Type} `{EqDecision K}.
Implicit Types (k : K) (v : V) (d : list (K * V)).

Lemma dict_get_None k d : dict_get k d = None ↔ k ∉ dict_keys d.
Proof.
  unfold dict_keys. induction d as [|[k' v'] d IH]; simpl.
  - split; [intros _; apply not_elem_of_nil | done].
  - rewrite not_elem_of_cons. destruct (decide (k' = k)) as [->|Hne].
    + split; [done | intros [? _]; done].
    + rewrite IH. naive_solver.
Qed.

Lemma dict_mem_elem_of k d : dict_mem k d = bool_decide (k ∈ dict_keys d).
Proof.
  unfold dict_mem. destruct (dict_get k d) eqn:E.
  - symmetry. apply bool_decide_eq_true. destruct (decide (k ∈ dict_keys d)) as [|Hn]; [done|].
    apply dict_get_None in Hn. congruence.
  - symmetry. apply bool_decide_eq_false. by apply dict_get_None.
Qed.

Lemma dict_keys_del_ne k k' d : k ≠ k' → k ∈ dict_keys (dict_del k' d) ↔ k ∈ dict_keys d.
Proof.
  intros Hne. unfold dict_keys. induction d as [|[k0 v0] d IH]; simpl; [done|].
  destruct (decide (k0 = k')) as [->|Hne'].
  - rewrite elem_of_cons. naive_solver.
  - rewrite fmap_cons, !elem_of_cons. simpl. naive_solver.
Qed.

Lemma dict_keys_del_NoDup k' d :
  NoDup (dict_keys d) → ∀ k, k ∈ dict_keys (dict_del k' d) ↔ k ∈ dict_keys d ∧ k ≠ k'.
Proof.
  unfold dict_keys. induction d as [|[k0 v0] d IH]; simpl; intros Hnd k.
  - rewrite elem_of_nil. naive_solver.
  - apply NoDup_cons in Hnd as [Hnotin Hnd]. destruct (decide (k0 = k')) as [->|Hne'].
    + rewrite elem_of_cons. split.
      * intros Hin. split; [by right|]. intros ->. done.
      * intros [[->|Hin] Hne]; done.
    + rewrite fmap_cons, !elem_of_cons. simpl. rewrite (IH Hnd). naive_solver.
Qed.

Lemma dict_del_NoDup k' d : NoDup (dict_keys d) → NoDup (dict_keys (dict_del k' d)).
Proof.
  unfold dict_keys. induction d as [|[k0 v0] d IH]; simpl; intros Hnd; [done|].
  apply NoDup_cons in Hnd as [Hnotin Hnd]. destruct (decide (k0 = k')); [done|].
  rewrite fmap_cons. apply NoDup_cons. split; [|by apply IH].
  simpl. intros Hin. apply Hnotin.
  destruct (decide (k0 = k')) as [|Hne]; [done|].
  by apply (dict_keys_del_ne k0 k' d Hne).
Qed.

Lemma dict_keys_set k v d : ∀ k', k' ∈ dict_keys (dict_set k v d) ↔ k' = k ∨ k' ∈ dict_keys d.
Proof.
  unfold dict_keys. induction d as [|[k0 v0] d IH]; simpl; intros k'.
  - rewrite list_elem_of_singleton, elem_of_nil. naive_solver.
  - destruct (decide (k0 = k)) as [->|Hne]; rewrite !fmap_cons, !elem_of_cons; simpl.
    + naive_solver.
    + rewrite IH. naive_solver.
Qed.

Lemma dict_get_set_eq k v d : dict_get k (dict_set k v d) = Some v.
Proof.
  induction d as [|[k0 v0] d IH]; simpl.
  - by rewrite decide_True.
  - destruct (decide (k0 = k)) as [->|Hne]; simpl.
    + by rewrite decide_True.
    + by rewrite decide_False.
Qed.

Lemma dict_get_set_ne k k' v d : k ≠ k' → dict_get k' (dict_set k v d) = dict_get k' d.
Proof.
  intros Hne. induction d as [|[k0 v0] d IH]; simpl.
  - by rewrite decide_False.
  - destruct (decide (k0 = k)) as [->|Hne0]; simpl.
    + by rewrite !decide_False.
    + destruct (decide (k0 = k')); done.
Qed.

Lemma dict_pop_default_absent k v d :
  k ∉ dict_keys d → dict_pop_default k v d = (v, d).
Proof.
  intros Hk. apply dict_get_None in Hk. unfold dict_pop_default, dict_pop. by rewrite Hk.
Qed.
End DictFacts.

(** ** The keys of the bound mapping *)

Lemma str_keys_set (s : string) (v : pyval) (d : pydict) :
  Forall (λ k, ∃ s', k = KStr s') (dict_keys d) →
  Forall (λ k, ∃ s', k = KStr s') (dict_keys (dict_set (KStr s) v d)).
Proof.
  rewrite !Forall_forall. intros Hd k Hk.
  apply dict_keys_set in Hk as [->|Hk]; eauto.
Qed.

Lemma bind_positional_str_keys sig args kwargs acc r :
  Forall (λ k, ∃ s', k = KStr s') (dict_keys acc) →
  bind_positional sig args kwargs acc = Ok r →
  Forall (λ k, ∃ s', k = KStr s') (dict_keys r.1).
Proof.
  revert sig acc. induction args as [|a args IH]; intros [|p sig] acc Hacc; simpl;
    intros Hr; repeat case_match; simplify_eq; simpl; eauto using str_keys_set.
Qed.

Lemma bind_keywords_str_keys sig kwargs acc kp r :
  Forall (λ k, ∃ s', k = KStr s') (dict_keys acc) →
  bind_keywords sig kwargs acc kp = Ok r →
  Forall (λ k, ∃ s', k = KStr s') (dict_keys r.1.1).
Proof.
  revert kwargs acc kp. induction sig as [|p sig IH]; intros kwargs acc kp Hacc; simpl;
    intros Hr; repeat case_match; simplify_eq; simpl; eauto using str_keys_set.
Qed.

Lemma bind_str_keys sig args kwargs d :
  bind sig args kwargs = Ok d →
  Forall (λ k, ∃ s', k = KStr s') (dict_keys d).
Proof.
  unfold bind, bind_from. intros Hb.
  destruct (bind_positional sig args kwargs []) as [r1|] eqn:E1; [|done].
  apply bind_positional_str_keys in E1; [|by apply Forall_nil].
  simpl in Hb.
  destruct (bind_keywords r1.2 kwargs r1.1 None) as [[[d2 kw2] kp2]|] eqn:E2; [|done].
  apply bind_keywords_str_keys in E2; [|done]. simpl in *.
  destruct kw2 as [|[k ?] ?]; [by simplify_eq|].
  destruct kp2; simplify_eq. by apply str_keys_set.
Qed.

Lemma var_kw_arg_not_str sig s : var_kw_arg sig ≠ KStr s.
Proof. unfold var_kw_arg. by destruct (filter _ sig). Qed.

Lemma callargs_is_bind sig args kwargs :
  callargs sig args kwargs = bind sig args kwargs.
Proof.
  unfold callargs. destruct (bind sig args kwargs) as [d|e] eqn:Hb; [|done].
  simpl. rewrite dict_pop_default_absent; [done|].
  apply bind_str_keys in Hb. rewrite Forall_forall in Hb.
  intros [s Hs]%Hb. by apply var_kw_arg_not_str in Hs.
Qed.

Lemma raises_Raise {A} (e : exn) : raises (@Raise A e).
Proof. by exists e. Qed.

Lemma raises_Ok {A} (a : A) : ¬ raises (Ok a).
Proof. by intros [e ?]. Qed.

Lemma dict_pop_Some {K V} `{EqDecision K} (k : K) (d : list (K * V)) v d' :
  dict_pop k d = Some (v, d') → k ∈ dict_keys d ∧ d' = dict_del k d.
Proof.
  unfold dict_pop. destruct (dict_get k d) eqn:E; [|done].
  intros; simplify_eq. split; [|done].
  destruct (decide (k ∈ dict_keys d)) as [|Hn]; [done|].
  apply dict_get_None in Hn. congruence.
Qed.

Lemma dict_pop_None {K V} `{EqDecision K} (k : K) (d : list (K * V)) :
  dict_pop k d = None → k ∉ dict_keys d.
Proof.
  unfold dict_pop. destruct (dict_get k d) eqn:E; [done|].
  intros _. by apply dict_get_None.
Qed.

Lemma takes_keyword_spec p :
  takes_keyword p ↔ p_kind p = POSITIONAL_OR_KEYWORD ∨ p_kind p = KEYWORD_ONLY.
Proof.
  unfold takes_keyword. rewrite orb_True, !bool_decide_spec. done.
Qed.

(** The keyword loop and the end of [_bind]. *)
Lemma bind_keywords_raises ps kw acc kp :
  NoDup (p_name <$> ps) →
  NoDup (dict_keys kw) →
  Forall (λ p, p_kind p ≠ POSITIONAL_ONLY) ps →
  raises (bind_keywords ps kw acc kp ≫= bind_overflow) ↔
    (∃ p, p ∈ ps ∧ takes_keyword p ∧ p_has_default p = false
          ∧ p_name p ∉ dict_keys kw)
    ∨ (kp = None
       ∧ (∀ p, p ∈ ps → p_kind p ≠ VAR_KEYWORD)
       ∧ ∃ k, k ∈ dict_keys kw
              ∧ ∀ p, p ∈ ps → takes_keyword p → p_name p ≠ k).
Proof.
  revert kw acc kp. induction ps as [|p ps IH]; intros kw acc kp Hnames Hkeys Hpo.
  - simpl. unfold mbind, outcome_bind, obind. simpl.
    destruct kw as [|[k v] kw]; simpl.
    + split; [intros []%raises_Ok|].
      intros [(p & Hp & _)|(_ & _ & k & Hk & _)]; by apply elem_of_nil in Hp || apply elem_of_nil in Hk.
    + destruct kp as [q|].
      * split; [intros []%raises_Ok|].
        intros [(p & Hp & _)|(? & _)]; [by apply elem_of_nil in Hp | done].
      * split; [|intros _; apply raises_Raise].
        intros _. right. split_and!; [done|by intros ? ?%elem_of_nil|].
        exists k. split; [unfold dict_keys; simpl; by left | by intros ? ?%elem_of_nil].
  - apply NoDup_cons in Hnames as [Hp Hnames]. fold (fmap p_name ps) in *.
    apply Forall_cons in Hpo as [Hppo Hpo].
    simpl. destruct (decide (p_kind p = VAR_KEYWORD)) as [Hvk|Hvk].
    { rewrite IH by done. split.
      - intros [(q & Hq & ?)|(? & _)]; [|done]. left. exists q. by rewrite elem_of_cons; eauto.
      - intros [(q & [->|Hq]%elem_of_cons & Htk & ?)|(_ & Hno & _)].
        + apply takes_keyword_spec in Htk. rewrite Hvk in Htk. naive_solver.
        + left. eauto.
        + exfalso. apply (Hno p); [by left | done]. }
    destruct (decide (p_kind p = VAR_POSITIONAL)) as [Hvp|Hvp].
    { rewrite IH by done. split.
      - intros [(q & Hq & ?)|(? & Hno & k & Hk & Hall)].
        + left. exists q. by rewrite elem_of_cons; eauto.
        + right. split_and!; [done| |].
          * intros q [->|Hq]%elem_of_cons; [congruence | by apply Hno].
          * exists k. split; [done|]. intros q [->|Hq]%elem_of_cons; [|by apply Hall].
            intros Htk%takes_keyword_spec. rewrite Hvp in Htk. naive_solver.
      - intros [(q & [->|Hq]%elem_of_cons & Htk & ?)|(? & Hno & k & Hk & Hall)].
        + apply takes_keyword_spec in Htk. rewrite Hvp in Htk. naive_solver.
        + left. eauto.
        + right. split_and!; [done| |].
          * intros q Hq. apply Hno. by right.
          * exists k. split; [done|]. intros q Hq. apply Hall. by right. }
    assert (Htk : takes_keyword p).
    { apply takes_keyword_spec. destruct (p_kind p); naive_solver. }
    destruct (dict_pop (p_name p) kw) as [[v kw']|] eqn:Hpop.
    + apply dict_pop_Some in Hpop as [Hin ->].
      rewrite decide_False by done.
      rewrite IH by eauto using dict_del_NoDup.
      assert (Hq : ∀ q, q ∈ ps → p_name q ≠ p_name p).
      { intros q Hq Heq. apply Hp. rewrite <- Heq. by apply list_elem_of_fmap_2. }
      split.
      * intros [(q & Hqin & ? & ? & Hnot)|(? & Hno & k & Hk & Hall)].
        -- left. exists q. split_and!; [by right|done|done|].
           intros Hqk. apply Hnot. apply dict_keys_del_ne; [by apply Hq | done].
        -- right. apply dict_keys_del_NoDup in Hk as [Hk Hkp]; [|done].
           split_and!; [done| |].
           ++ intros q [->|Hqin]%elem_of_cons; [done | by apply Hno].
           ++ exists k. split; [done|].
              intros q [->|Hqin]%elem_of_cons; [done | by apply Hall].
      * intros [(q & [->|Hqin]%elem_of_cons & ? & ? & Hnot)|(? & Hno & k & Hk & Hall)].
        -- done.
        -- left. exists q. split_and!; [done..|].
           intros Hqk. apply Hnot. by apply dict_keys_del_ne in Hqk; [|apply Hq].
        -- right. split_and!; [done| |].
           ++ intros q Hqin. apply Hno. by right.
           ++ exists k. split.
              ** apply dict_keys_del_NoDup; [done|]. split; [done|].
                 intros ->. by apply (Hall p); [left|..].
              ** intros q Hqin. apply Hall. by right.
    + apply dict_pop_None in Hpop.
      destruct (p_has_default p) eqn:Hdef.
      * rewrite IH by done. split.
        -- intros [(q & Hqin & ?)|(? & Hno & k & Hk & Hall)].
           ++ left. exists q. by rewrite elem_of_cons; eauto.
           ++ right. split_and!; [done| |].
              ** intros q [->|Hqin]%elem_of_cons; [done | by apply Hno].
              ** exists k. split; [done|].
                 intros q [->|Hqin]%elem_of_cons; [|by apply Hall].
                 intros _ Heq. by rewrite Heq in Hpop.
        -- intros [(q & [->|Hqin]%elem_of_cons & ? & ? & Hnot)|(? & Hno & k & Hk & Hall)].
           ++ congruence.
           ++ left. eauto.
           ++ right. split_and!; [done| |].
              ** intros q Hqin. apply Hno. by right.
              ** exists k. split; [done|]. intros q Hqin. apply Hall. by right.
      * split; [|intros _; apply raises_Raise].
        intros _. left. exists p. split_and!; [by left|done..].
Qed.

(** ** The four ways to fail, as propositions *)

Lemma has_kind_spec k sig : has_kind k sig ↔ ∃ p, p ∈ sig ∧ p_kind p = k.
Proof.
  unfold has_kind. rewrite Is_true_true, existsb_exists.
  setoid_rewrite <- list_elem_of_In. setoid_rewrite bool_decide_eq_true. done.
Qed.

Lemma not_has_kind_spec k sig : negb (has_kind k sig) ↔ ∀ p, p ∈ sig → p_kind p ≠ k.
Proof.
  rewrite negb_True, has_kind_spec. naive_solver.
Qed.

Lemma unknown_keyword_spec sig kw :
  unknown_keyword sig kw ↔
    (∀ p, p ∈ sig → p_kind p ≠ VAR_KEYWORD)
    ∧ ∃ k, k ∈ dict_keys kw ∧ ∀ p, p ∈ sig → takes_keyword p → p_name p ≠ k.
Proof.
  unfold unknown_keyword. rewrite andb_True, not_has_kind_spec.
  rewrite (Is_true_true (existsb _ _)), existsb_exists.
  setoid_rewrite <- list_elem_of_In.
  setoid_rewrite negb_true_iff. setoid_rewrite <- not_true_iff_false.
  setoid_rewrite existsb_exists. setoid_rewrite <- list_elem_of_In.
  setoid_rewrite andb_true_iff. setoid_rewrite bool_decide_eq_true.
  setoid_rewrite <- Is_true_true. naive_solver.
Qed.

Lemma too_many_positionals_spec sig args :
  too_many_positionals sig args ↔
    (∀ p, p ∈ sig → p_kind p ≠ VAR_POSITIONAL)
    ∧ length (positional_params sig) < length args.
Proof.
  unfold too_many_positionals.
  rewrite andb_True, not_has_kind_spec, bool_decide_spec. done.
Qed.

Lemma missing_value_spec sig args kw :
  missing_value sig args kw ↔
    ∃ p, p ∈ sig ∧ takes_keyword p ∧ p_has_default p = false
         ∧ (p ∉ bound_positionally sig args) ∧ (p_name p ∉ dict_keys kw).
Proof.
  unfold missing_value. rewrite Is_true_true, existsb_exists.
  setoid_rewrite <- list_elem_of_In. setoid_rewrite andb_true_iff.
  setoid_rewrite andb_true_iff. setoid_rewrite andb_true_iff.
  setoid_rewrite bool_decide_eq_true. setoid_rewrite negb_true_iff.
  setoid_rewrite dict_mem_elem_of. setoid_rewrite bool_decide_eq_false.
  setoid_rewrite <- Is_true_true. naive_solver.
Qed.

Lemma value_given_twice_spec sig args kw :
  value_given_twice sig args kw ↔
    ∃ p, p ∈ bound_positionally sig args ∧ p_name p ∈ dict_keys kw.
Proof.
  unfold value_given_twice. rewrite Is_true_true, existsb_exists.
  setoid_rewrite <- list_elem_of_In. setoid_rewrite dict_mem_elem_of.
  setoid_rewrite bool_decide_eq_true. done.
Qed.

(** ** What the order of the kinds gives *)

Lemma wf_signature_cons p ps :
  wf_signature (p :: ps) →
  wf_signature ps ∧ Forall (kind_before p) ps
  ∧ p_kind p ≠ POSITIONAL_ONLY ∧ ∀ q, q ∈ ps → p_name q ≠ p_name p.
Proof.
  intros (Hs & Hn & Hpo). apply StronglySorted_inv in Hs as [Hs Hb].
  rewrite fmap_cons in Hn. apply NoDup_cons in Hn as [Hp Hn].
  apply Forall_cons in Hpo as [Hppo Hpo].
  split_and!; [done..|].
  intros q Hq Heq. apply Hp. rewrite <- Heq. by apply list_elem_of_fmap_2.
Qed.

Lemma after_variadic_keyword p ps :
  p_kind p = VAR_KEYWORD → Forall (kind_before p) ps → ps = [].
Proof.
  intros Hk Hb. destruct ps as [|q ps]; [done|].
  apply Forall_cons in Hb as [[Hlt|[_ [?|?]]] _]; [|congruence..].
  rewrite Hk in Hlt. simpl in Hlt. destruct (p_kind q); simpl in Hlt; lia.
Qed.

Lemma after_positional p ps :
  p_kind p = VAR_POSITIONAL ∨ p_kind p = KEYWORD_ONLY →
  Forall (kind_before p) ps →
  ∀ q, q ∈ ps → p_kind q = KEYWORD_ONLY ∨ p_kind q = VAR_KEYWORD.
Proof.
  intros Hk Hb q Hq. rewrite Forall_forall in Hb.
  destruct (Hb q Hq) as [Hlt|[Heq _]].
  - destruct Hk as [Hk|Hk]; rewrite Hk in Hlt; destruct (p_kind q); simpl in Hlt; lia || eauto.
  - destruct Hk as [Hk|Hk]; rewrite Hk in Heq; eauto.
    destruct (Hb q Hq) as [Hlt|[_ [?|?]]]; [|congruence..].
    rewrite Hk, <- Heq in Hlt. simpl in Hlt. lia.
Qed.

Lemma no_positional_params ps :
  (∀ q, q ∈ ps → p_kind q = KEYWORD_ONLY ∨ p_kind q = VAR_KEYWORD) →
  positional_params ps = [].
Proof.
  intros Hk. unfold positional_params. apply elem_of_nil_inv. intros q.
  rewrite list_elem_of_filter. intros [Hq Hin]. destruct (Hk q Hin), Hq; congruence.
Qed.

(** ** The call fails to bind exactly in the four ways *)

(** With no positional argument left, the four ways come down to what the
    keyword loop checks. *)
Lemma no_args_failures sig kw :
  unknown_keyword sig kw ∨ too_many_positionals sig [] ∨ missing_value sig [] kw
    ∨ value_given_twice sig [] kw ↔
  (∃ p, p ∈ sig ∧ takes_keyword p ∧ p_has_default p = false
        ∧ p_name p ∉ dict_keys kw)
  ∨ (@None parameter = None
     ∧ (∀ p, p ∈ sig → p_kind p ≠ VAR_KEYWORD)
     ∧ ∃ k, k ∈ dict_keys kw ∧ ∀ p, p ∈ sig → takes_keyword p → p_name p ≠ k).
Proof.
  rewrite unknown_keyword_spec, too_many_positionals_spec, missing_value_spec,
    value_given_twice_spec.
  unfold bound_positionally. simpl. setoid_rewrite elem_of_nil. split.
  - intros [?|[[_ ?]|[(p & ? & ? & ? & _ & ?)|(? & [] & _)]]]; [naive_solver|lia|].
    left. eauto.
  - intros [(p & ? & ? & ? & ?)|(_ & ?)]; [|naive_solver].
    right. right. left. exists p. naive_solver.
Qed.

Lemma bind_from_no_args acc sig kw :
  wf_signature sig → wf_kwargs kw →
  raises (bind_from acc sig [] kw) ↔
    unknown_keyword sig kw ∨ too_many_positionals sig [] ∨ missing_value sig [] kw
    ∨ value_given_twice sig [] kw.
Proof.
  intros Hwf Hkw. rewrite no_args_failures.
  destruct sig as [|p ps].
  { apply (bind_keywords_raises [] kw acc None); [apply NoDup_nil_2|done|done]. }
  pose proof Hwf as (_ & Hn & Hpo).
  apply wf_signature_cons in Hwf as ((_ & Hn' & Hpo') & Hb & Hppo & Hnames).
  unfold bind_from. unfold bind_positional.
  destruct (decide (p_kind p = VAR_POSITIONAL)) as [Hvp|Hvp].
  { etrans; [by apply (bind_keywords_raises ps kw acc None)|]. split.
    - intros [(q & ? & ?)|(_ & Hno & k & ? & Hall)].
      + left. exists q. rewrite elem_of_cons. eauto.
      + right. split_and!; [done| |].
        * intros q [->|?]%elem_of_cons; [congruence | by apply Hno].
        * exists k. split; [done|]. intros q [->|?]%elem_of_cons; [|by apply Hall].
          intros Htk%takes_keyword_spec. rewrite Hvp in Htk. naive_solver.
    - intros [(q & [->|?]%elem_of_cons & Htk & ?)|(_ & Hno & k & ? & Hall)].
      + apply takes_keyword_spec in Htk. rewrite Hvp in Htk. naive_solver.
      + left. eauto.
      + right. split_and!; [done| |].
        * intros q ?. apply Hno. by right.
        * exists k. split; [done|]. intros q ?. apply Hall. by right. }
  rewrite dict_mem_elem_of. case_bool_decide as Hmem.
  { rewrite decide_False by done.
    by apply (bind_keywords_raises (p :: ps) kw acc None). }
  destruct (bool_decide (p_kind p = VAR_KEYWORD) || p_has_default p) eqn:Hor.
  { by apply (bind_keywords_raises (p :: ps) kw acc None). }
  apply orb_false_iff in Hor as [Hvk%bool_decide_eq_false Hdef].
  split; [|intros _; apply raises_Raise].
  intros _. left. exists p. split_and!; [by left| |done..].
  apply takes_keyword_spec. destruct (p_kind p); naive_solver.
Qed.

Lemma positional_params_cons p ps :
  p_kind p = POSITIONAL_OR_KEYWORD →
  positional_params (p :: ps) = p :: positional_params ps.
Proof.
  intros Hk. unfold positional_params. rewrite filter_cons.
  rewrite decide_True; [done|]. by right.
Qed.

Lemma positional_params_cons_other p ps :
  p_kind p ≠ POSITIONAL_ONLY → p_kind p ≠ POSITIONAL_OR_KEYWORD →
  positional_params (p :: ps) = positional_params ps.
Proof.
  intros ? ?. unfold positional_params. rewrite filter_cons.
  rewrite decide_False; [done|]. naive_solver.
Qed.

(** One positional argument bound to a parameter that no keyword names:
    the rest of the call fails in the same ways. *)
Lemma failures_step p ps (a : pyval) args kw :
  p_kind p = POSITIONAL_OR_KEYWORD →
  (∀ q, q ∈ ps → p_name q ≠ p_name p) →
  p_name p ∉ dict_keys kw →
  unknown_keyword (p :: ps) kw ∨ too_many_positionals (p :: ps) (a :: args)
    ∨ missing_value (p :: ps) (a :: args) kw
    ∨ value_given_twice (p :: ps) (a :: args) kw ↔
  unknown_keyword ps kw ∨ too_many_positionals ps args
    ∨ missing_value ps args kw ∨ value_given_twice ps args kw.
Proof.
  intros Hk Hnames Hnot.
  rewrite !unknown_keyword_spec, !too_many_positionals_spec, !missing_value_spec,
    !value_given_twice_spec.
  unfold bound_positionally. rewrite positional_params_cons by done. simpl.
  assert (Hne : ∀ q, q ∈ ps → q ≠ p) by (intros q Hq ->; by apply (Hnames p)).
  split.
  - intros [(Hno & k & Hin & Hall)|[[Hno Hlen]|[(q & Hq & ? & ? & Hnb & ?)|(q & Hq & ?)]]].
    + left. split; [intros q ?; apply Hno; by right|].
      exists k. split; [done|]. intros q ?. apply Hall. by right.
    + right. left. split; [intros q ?; apply Hno; by right | lia].
    + right. right. left. apply not_elem_of_cons in Hnb as [Hqp Hnb].
      apply elem_of_cons in Hq as [->|Hq]; [done|]. exists q. eauto.
    + right. right. right. apply elem_of_cons in Hq as [->|Hq]; [done|]. eauto.
  - intros [(Hno & k & Hin & Hall)|[[Hno Hlen]|[(q & Hq & ? & ? & Hnb & ?)|(q & Hq & ?)]]].
    + left. split; [intros q [->|?]%elem_of_cons; [congruence | by apply Hno]|].
      exists k. split; [done|]. intros q [->|?]%elem_of_cons; [|by apply Hall].
      intros _ Heq. by rewrite Heq in Hnot.
    + right. left. split; [intros q [->|?]%elem_of_cons; [congruence | by apply Hno] | lia].
    + right. right. left. exists q. split_and!; [by right|done|done| |done].
      apply not_elem_of_cons. split; [by apply Hne | done].
    + right. right. right. exists q. split; [by right | done].
Qed.

(** ** CallBinder: when the invocation raises *)

Lemma bind_from_raises args : ∀ acc sig kw,
  wf_signature sig → wf_kwargs kw →
  raises (bind_from acc sig args kw) ↔
    unknown_keyword sig kw ∨ too_many_positionals sig args
    ∨ missing_value sig args kw ∨ value_given_twice sig args kw.
Proof.
  induction args as [|a args IH]; intros acc sig kw Hwf Hkw.
  { by apply bind_from_no_args. }
  destruct sig as [|p ps].
  { split; [|intros _; apply raises_Raise].
    intros _. right. left. apply too_many_positionals_spec.
    split; [by intros ? ?%elem_of_nil | simpl; lia]. }
  pose proof Hwf as (_ & Hn & Hpo).
  apply wf_signature_cons in Hwf as (Hwf' & Hb & Hppo & Hnames).
  unfold bind_from. simpl bind_positional.
  destruct (bool_decide (p_kind p = VAR_KEYWORD) || bool_decide (p_kind p = KEYWORD_ONLY))
    eqn:Hor.
  { split; [|intros _; apply raises_Raise].
    intros _. right. left. apply too_many_positionals_spec.
    apply orb_true_iff in Hor as [Hk%bool_decide_eq_true|Hk%bool_decide_eq_true].
    - apply after_variadic_keyword in Hb as ->; [|done].
      split; [intros q ->%list_elem_of_singleton; congruence|].
      rewrite positional_params_cons_other by congruence. simpl. lia.
    - pose proof (after_positional p ps (or_intror Hk) Hb) as Hafter.
      split.
      + intros q [->|Hq]%elem_of_cons; [congruence|]. destruct (Hafter q Hq); congruence.
      + rewrite positional_params_cons_other by congruence.
        rewrite no_positional_params by done. simpl. lia. }
  apply orb_false_iff in Hor as [Hvk%bool_decide_eq_false Hko%bool_decide_eq_false].
  destruct (decide (p_kind p = VAR_POSITIONAL)) as [Hvp|Hvp].
  { pose proof (after_positional p ps (or_introl Hvp) Hb) as Hafter.
    etrans; [apply (bind_keywords_raises ps kw _ None); by destruct Hwf' as (_ & ? & ?)|].
    rewrite unknown_keyword_spec, too_many_positionals_spec, missing_value_spec,
      value_given_twice_spec.
    unfold bound_positionally. rewrite positional_params_cons_other by congruence.
    rewrite no_positional_params by done. rewrite take_nil.
    setoid_rewrite elem_of_nil. split.
    - intros [(q & ? & ?)|(_ & Hno & k & ? & Hall)].
      + right. right. left. exists q. rewrite elem_of_cons. naive_solver.
      + left. split.
        * intros q [->|?]%elem_of_cons; [congruence | by apply Hno].
        * exists k. split; [done|]. intros q [->|?]%elem_of_cons; [|by apply Hall].
          intros Htk%takes_keyword_spec. rewrite Hvp in Htk. naive_solver.
    - intros [(Hno & k & ? & Hall)|[[Hno _]|[(q & Hq & Htk & ? & _ & ?)|(? & [] & _)]]].
      + right. split_and!; [done|intros q ?; apply Hno; by right|].
        exists k. split; [done|]. intros q ?. apply Hall. by right.
      + exfalso. apply (Hno p); [by left | done].
      + left. apply elem_of_cons in Hq as [->|Hq]; [|by eauto].
        apply takes_keyword_spec in Htk. rewrite Hvp in Htk. naive_solver. }
  assert (Hk : p_kind p = POSITIONAL_OR_KEYWORD) by (destruct (p_kind p); done).
  rewrite dict_mem_elem_of. case_bool_decide as Hmem.
  { rewrite bool_decide_false by done. simpl.
    split; [|intros _; apply raises_Raise].
    intros _. right. right. right. apply value_given_twice_spec.
    exists p. split; [|done]. unfold bound_positionally.
    rewrite positional_params_cons by done. simpl. by left. }
  simpl andb. cbv iota.
  rewrite failures_step by done.
  apply (IH (dict_set (KStr (p_name p)) a acc) ps kw); done.
Qed.

(** ** Running computations on the store *)

Lemma run_bind {A B} (m : Py A) (k : A → Py B) s :
  (m ≫= k) s = match m s with
               | (Ok a, s') => k a s'
               | (Raise e, s') => (Raise e, s')
               end.
Proof. done. Qed.

Lemma run_bind_ok {A B} (m : Py A) (k : A → Py B) s a s' :
  m s = (Ok a, s') → (m ≫= k) s = k a s'.
Proof. intros Hm. by rewrite run_bind, Hm. Qed.

Lemma run_bind_raise {A B} (m : Py A) (k : A → Py B) s e s' :
  m s = (Raise e, s') → (m ≫= k) s = (Raise e, s').
Proof. intros Hm. by rewrite run_bind, Hm. Qed.

Lemma run_lookup_obj {A} (table : store → gmap nat A) r s a :
  table s !! r = Some a → lookup_obj table r s = (Ok a, s).
Proof. intros H. unfold lookup_obj. by rewrite H. Qed.

Lemma run_get_flow r s f : flows s !! r = Some f → get_flow r s = (Ok f, s).
Proof. apply run_lookup_obj. Qed.

Lemma run_Flow_add_task self task s f :
  flows s !! self = Some f →
  Flow_add_task self task s = (Ok (), store_flow self (flow_with_task task f) s).
Proof.
  intros Hf. unfold Flow_add_task. rewrite run_bind, (run_get_flow _ _ _ Hf). done.
Qed.

Lemma run_construct_Flow s :
  construct_Flow s
  = (Ok (next_ref s), store_flow (next_ref s) (FlowObj [] []) (store_next s)).
Proof. done. Qed.

Lemma run_TaskResult__init__ task flow s f :
  flows s !! flow = Some f →
  TaskResult__init__ task (Some flow) s
  = (Ok (next_ref s),
     store_result (next_ref s) (TaskResultObj task flow)
       (store_next (store_flow flow (flow_with_task task f) s))).
Proof.
  intros Hf. unfold TaskResult__init__.
  rewrite run_bind. simpl. rewrite run_bind, (run_Flow_add_task _ _ _ _ Hf). done.
Qed.

Lemma run_get_task r s o : tasks s !! r = Some o → get_task r s = (Ok o, s).
Proof. apply run_lookup_obj. Qed.

Lemma run_get_coll r s c : colls s !! r = Some c → get_coll r s = (Ok c, s).
Proof. apply run_lookup_obj. Qed.

Lemma run_get_result r s x : results s !! r = Some x → get_result r s = (Ok x, s).
Proof. apply run_lookup_obj. Qed.

Lemma run_lift {A} (o : outcome A) s : lift o s = (o, s).
Proof. done. Qed.

Lemma run_put_coll r c s : put_coll r c s = (Ok (), store_coll r c s).
Proof. done. Qed.

Lemma run_put_task r o s : put_task r o s = (Ok (), store_task r o s).
Proof. done. Qed.

Lemma run_put_flow r f s : put_flow r f s = (Ok (), store_flow r f s).
Proof. done. Qed.

Lemma run_alloc_coll c s :
  alloc_coll c s = (Ok (next_ref s), store_coll (next_ref s) c (store_next s)).
Proof. done. Qed.

Lemma run_alloc_task o s :
  alloc_task o s = (Ok (next_ref s), store_task (next_ref s) o (store_next s)).
Proof. done. Qed.

Lemma run_alloc_result x s :
  alloc_result x s = (Ok (next_ref s), store_result (next_ref s) x (store_next s)).
Proof. done. Qed.

(** One step of a computation whose first part is known to return. *)
Ltac py_ok H := rewrite (run_bind_ok _ _ _ _ _ H); cbv beta.

(** The store [Task.__init__] leaves behind, before the task is added to
    the ambient flow. *)
Lemma run_Task__init__ self a ctx s o o1 o2 :
  store_wf s → ctx_wf ctx s → tags_wf (a_tags a) s →
  tasks s !! self = Some o →
  setattr_name (str_or (a_name a) (class_name (t_cls o))) o = Ok o1 →
  setattr_slug (a_slug a) o1 = Ok o2 →
  Task__init__ self a ctx s
  = match ctx_flow ctx with
    | Some flow => Flow_add_task flow self
    | None => mret ()
    end
      (store_task self
         (with_attributes a (str_or (a_group a) (default EmptyString (ctx_group ctx)))
            (next_ref s) o2)
         (store_coll (next_ref s)
            (CSet (list_to_set (explicit_tags (a_tags a) s)
                   ∪ list_to_set (ambient_tags ctx s)))
            (store_next s))).
Proof.
  intros Hwf [Hcf Hct] Htags Ho Hname Hslug. unfold Task__init__.
  py_ok (run_get_task _ _ _ Ho).
  rewrite Hname. py_ok (run_lift (Ok o1) s). py_ok (run_put_task self o1 s).
  rewrite Hslug. py_ok (run_lift (Ok o2) (store_task self o1 s)).
  py_ok (run_put_task self o2 (store_task self o1 s)).
  set (s2 := store_task self o2 (store_task self o1 s)).
  assert (Hex : (match a_tags a with
                 | TagsNone => mret []
                 | TagsStr tag => mret [tag]
                 | TagsIter r => c ← get_coll r; mret (coll_elements c)
                 end) s2 = (Ok (explicit_tags (a_tags a) s), s2)).
  { unfold explicit_tags. destruct (a_tags a) as [|tag|r]; [done..|].
    destruct Htags as [c Hc]. rewrite Hc. simpl.
    py_ok (run_get_coll r s2 c Hc). done. }
  py_ok Hex. py_ok (run_alloc_coll (CSet (list_to_set (explicit_tags (a_tags a) s))) s2).
  set (tags := next_ref s2).
  set (s3 := store_coll tags _ (store_next s2)).
  assert (Ham : (match ctx_tags ctx with
                 | Some r => c ← get_coll r; mret (coll_elements c)
                 | None => mret []
                 end) s3 = (Ok (ambient_tags ctx s), s3)).
  { unfold ambient_tags. destruct (ctx_tags ctx) as [r|] eqn:Hr; [|done].
    destruct (Hct r eq_refl) as [c Hc]. rewrite Hc. simpl.
    assert (colls s3 !! r = Some c) as Hc3.
    { subst s3. simpl. rewrite lookup_insert_ne; [done|].
      destruct Hwf as (Hwc & _). specialize (Hwc r (mk_is_Some _ _ Hc)).
      subst tags. simpl. lia. }
    py_ok (run_get_coll r s3 c Hc3). done. }
  py_ok Ham.
  assert (Hown : colls s3 !! tags = Some (CSet (list_to_set (explicit_tags (a_tags a) s)))).
  { subst s3. simpl. by rewrite lookup_insert_eq. }
  py_ok (run_get_coll _ _ _ Hown).
  unfold coll_update. py_ok (run_lift (Ok (CSet (list_to_set (explicit_tags (a_tags a) s)
                                                 ∪ list_to_set (ambient_tags ctx s)))) s3).
  py_ok (run_put_coll tags (CSet (list_to_set (explicit_tags (a_tags a) s)
                                  ∪ list_to_set (ambient_tags ctx s))) s3).
  rewrite run_bind, run_put_task.
  match goal with |- ?f ?x = ?g ?y => replace x with y; [done|] end.
  subst s3 s2 tags. unfold store_task, store_coll, store_next. simpl.
  f_equal; by rewrite !insert_insert_eq.
Qed.

(** ** Well-formed stores *)

Lemma store_wf_empty : store_wf empty_store.
Proof. repeat split; intros r [x Hx]; simpl in Hx; by rewrite lookup_empty in Hx. Qed.

Lemma store_wf_next s : store_wf s → store_wf (store_next s).
Proof.
  intros (Hc & Ht & Hf & Hr). repeat split; intros r Hx; simpl in *;
    [apply Hc in Hx|apply Ht in Hx|apply Hf in Hx|apply Hr in Hx]; lia.
Qed.

Lemma store_wf_coll r c s : r < next_ref s → store_wf s → store_wf (store_coll r c s).
Proof.
  intros Hlt (Hc & Ht & Hf & Hr). repeat split; simpl; [|done..].
  intros r' Hx. rewrite lookup_insert_is_Some in Hx. destruct Hx as [->|[_ Hx]]; eauto.
Qed.

Lemma store_wf_task r o s : r < next_ref s → store_wf s → store_wf (store_task r o s).
Proof.
  intros Hlt (Hc & Ht & Hf & Hr). repeat split; simpl; [done| |done..].
  intros r' Hx. rewrite lookup_insert_is_Some in Hx. destruct Hx as [->|[_ Hx]]; eauto.
Qed.

Lemma store_wf_flow r f s : r < next_ref s → store_wf s → store_wf (store_flow r f s).
Proof.
  intros Hlt (Hc & Ht & Hf & Hr). repeat split; simpl; [done..| |done].
  intros r' Hx. rewrite lookup_insert_is_Some in Hx. destruct Hx as [->|[_ Hx]]; eauto.
Qed.

Lemma store_wf_result r x s : r < next_ref s → store_wf s → store_wf (store_result r x s).
Proof.
  intros Hlt (Hc & Ht & Hf & Hr). repeat split; simpl; [done..|].
  intros r' Hx. rewrite lookup_insert_is_Some in Hx. destruct Hx as [->|[_ Hx]]; eauto.
Qed.

Lemma store_wf_flow_lt s r f : store_wf s → flows s !! r = Some f → r < next_ref s.
Proof. intros (_ & _ & Hf & _) Hr. apply Hf. by eexists. Qed.

Lemma store_wf_task_lt s r o : store_wf s → tasks s !! r = Some o → r < next_ref s.
Proof. intros (_ & Ht & _) Hr. apply Ht. by eexists. Qed.

Lemma store_wf_coll_lt s r c : store_wf s → colls s !! r = Some c → r < next_ref s.
Proof. intros (Hc & _) Hr. apply Hc. by eexists. Qed.

Lemma store_wf_result_lt s r x : store_wf s → results s !! r = Some x → r < next_ref s.
Proof. intros (_ & _ & _ & Hx) Hr. apply Hx. by eexists. Qed.

(** ** The flow's edge creation *)

Lemma store_flow_store_flow r f f' s :
  store_flow r f (store_flow r f' s) = store_flow r f s.
Proof. unfold store_flow. simpl. by rewrite insert_insert_eq. Qed.

Lemma flow_with_task_idemp task f :
  flow_with_task task (flow_with_task task f) = flow_with_task task f.
Proof.
  unfold flow_with_task at 1. rewrite decide_True; [done|].
  unfold flow_with_task. case_decide; [done|]. simpl. apply elem_of_app. right. by left.
Qed.

Lemma flow_with_edges_with_task es task f :
  flow_with_edges es (flow_with_task task f) = flow_with_task task (flow_with_edges es f).
Proof. unfold flow_with_edges, flow_with_task. simpl. by case_decide. Qed.

(** Validation reads the tasks of the store, for their slugs, and nothing
    else of it. *)
Lemma flow_valid_tasks s s' f : tasks s' = tasks s → flow_valid s' f = flow_valid s f.
Proof. intros Ht. unfold flow_valid, flow_slugs. by rewrite Ht. Qed.

Lemma run_Flow_set_dependencies self task ups downs kw validate s f kws :
  flows s !! self = Some f →
  keyword_edges s task (default [] kw) = Ok kws →
  Flow_set_dependencies self task ups downs kw validate s
  = let f1 := flow_with_task task
                (flow_with_edges (explicit_edges task ups downs ++ kws) f) in
    let s1 := store_flow self f1 s in
    if validate && negb (flow_valid s1 f1) then (Raise invalid_flow, s1)
    else (Ok (next_ref s),
          store_result (next_ref s) (TaskResultObj task self) (store_next s1)).
Proof.
  intros Hf Hkws. unfold Flow_set_dependencies.
  rewrite run_bind. unfold get_store at 1. cbv beta iota.
  rewrite Hkws. py_ok (run_lift (Ok kws) s).
  py_ok (run_Flow_add_task self task s f Hf).
  set (f0 := flow_with_task task f). set (s0 := store_flow self f0 s).
  assert (Hf0 : flows s0 !! self = Some f0) by (subst s0; simpl; by rewrite lookup_insert_eq).
  py_ok (run_get_flow _ _ _ Hf0).
  rewrite run_bind, run_put_flow. rewrite run_bind. unfold get_store at 1. cbv beta iota.
  subst s0. rewrite store_flow_store_flow. subst f0. rewrite flow_with_edges_with_task.
  set (f1 := flow_with_task task (flow_with_edges _ f)). set (s1 := store_flow self f1 s).
  assert (Hf1 : flows s1 !! self = Some f1) by (subst s1; simpl; by rewrite lookup_insert_eq).
  py_ok (run_get_flow _ _ _ Hf1). simpl.
  destruct (validate && negb (flow_valid s1 f1)); [done|].
  rewrite (run_TaskResult__init__ _ _ _ _ Hf1).
  subst s1 f1. by rewrite flow_with_task_idemp, store_flow_store_flow.
Qed.

(** ** Invocation *)

Lemma run_Task_set_dependencies_explicit self flow ups downs kw validate ctx :
  Task_set_dependencies self (Some flow) ups downs kw validate ctx
  = Flow_set_dependencies flow self ups downs kw validate.
Proof. done. Qed.

Lemma run_Task_set_dependencies_ambient self ups downs kw validate ctx s :
  Task_set_dependencies self None ups downs kw validate ctx s
  = Flow_set_dependencies (default (next_ref s) (ctx_flow ctx)) self ups downs kw
      validate (store_flow (next_ref s) (FlowObj [] []) (store_next s)).
Proof. done. Qed.

Lemma run_Task__call__ self args ups kwargs ctx s o c :
  tasks s !! self = Some o →
  callargs (run_signature (t_cls o)) args kwargs = Ok c →
  Task__call__ self args ups kwargs ctx s
  = Flow_set_dependencies (default (next_ref s) (ctx_flow ctx)) self ups None (Some c)
      true (store_flow (next_ref s) (FlowObj [] []) (store_next s)).
Proof.
  intros Ho Hc. unfold Task__call__. py_ok (run_get_task _ _ _ Ho).
  rewrite Hc. py_ok (run_lift (Ok c) s). py_ok (run_construct_Flow s). done.
Qed.

(** ** Parameter: name and slug *)

Lemma with_name_cls n o : t_cls (with_name n o) = t_cls o.
Proof. done. Qed.

Lemma Parameter_setattr_name_first o value :
  t_cls o = ParameterCls → t_name o = None →
  setattr_name value o = Ok (with_name value o).
Proof.
  intros Hcls Hn. unfold setattr_name, Parameter_name_setter. by rewrite Hcls, Hn.
Qed.

Lemma Parameter_setattr_name_again o name value :
  t_cls o = ParameterCls → t_name o = Some name →
  setattr_name value o = Raise (AttributeError "Parameter name can not be changed").
Proof.
  intros Hcls Hn. unfold setattr_name, Parameter_name_setter. by rewrite Hcls, Hn.
Qed.

Lemma Parameter_setattr_slug_same o name :
  t_cls o = ParameterCls → t_name o = Some name →
  setattr_slug (Some name) o = Ok o.
Proof.
  intros Hcls Hn. unfold setattr_slug, Parameter_slug_setter, Parameter_name.
  rewrite Hcls, Hn. unfold mbind, outcome_bind, obind.
  by rewrite decide_False by (by intros []).
Qed.

Lemma Parameter_setattr_slug_other o name value :
  t_cls o = ParameterCls → t_name o = Some name → value ≠ Some name →
  setattr_slug value o
  = Raise (AttributeError "Parameter slug must be the same as its name.").
Proof.
  intros Hcls Hn Hne. unfold setattr_slug, Parameter_slug_setter, Parameter_name.
  rewrite Hcls, Hn. unfold mbind, outcome_bind, obind.
  by rewrite decide_True.
Qed.

Lemma assign_Parameter a o o' :
  t_cls o = ParameterCls → assign a o = Ok o' →
  t_cls o' = ParameterCls ∧ (∀ n, t_name o = Some n → o' = o).
Proof.
  intros Hcls. destruct a as [v|v]; simpl.
  - unfold setattr_name. rewrite Hcls. unfold Parameter_name_setter.
    destruct (t_name o) eqn:Hn; [done|]. intros [= <-]. by split.
  - unfold setattr_slug. rewrite Hcls. unfold Parameter_slug_setter, Parameter_name.
    destruct (t_name o) eqn:Hn; simpl; [|done].
    case_decide; [done|]. intros [= <-]. by split.
Qed.

Lemma after_assignments_Parameter script : ∀ o n,
  t_cls o = ParameterCls → t_name o = Some n →
  after_assignments script o = o.
Proof.
  induction script as [|a script IH]; intros o n Hcls Hn; [done|].
  simpl. destruct (assign a o) as [o'|] eqn:Ha; [|by eapply IH].
  destruct (assign_Parameter a o o' Hcls Ha) as [_ Heq].
  rewrite (Heq n Hn). by eapply IH.
Qed.

(** C3.  For every Parameter: the slug read is the name read; the first
    assignment to the name succeeds and every later one fails with an
    AttributeError; assigning to the slug a value that differs from the
    current name fails with an AttributeError, assigning the current name
    succeeds and changes nothing; and whatever assignments are attempted
    afterwards, the name and the slug stay what they are. *)
Theorem Parameter_name_write_once_slug_mirrors (o : task_obj) :
  t_cls o = ParameterCls →
  getattr_slug o = (name ← getattr_name o; Ok (Some name))
  ∧ (t_name o = None →
       ∀ value, setattr_name value o = Ok (with_name value o)
                ∧ getattr_name (with_name value o) = Ok value
                ∧ getattr_slug (with_name value o) = Ok (Some value))
  ∧ (∀ name, getattr_name o = Ok name →
       (∀ value, ∃ msg, setattr_name value o = Raise (AttributeError msg))
       ∧ (∀ value, value ≠ Some name →
            ∃ msg, setattr_slug value o = Raise (AttributeError msg))
       ∧ setattr_slug (Some name) o = Ok o
       ∧ ∀ script, getattr_name (after_assignments script o) = Ok name
                   ∧ getattr_slug (after_assignments script o) = Ok (Some name)).
Proof.
  intros Hcls. unfold getattr_slug, getattr_name, setattr_name, setattr_slug.
  rewrite Hcls. split_and!.
  - done.
  - intros Hn value. unfold Parameter_name_setter. rewrite Hn.
    split_and!; [done| |]; by rewrite with_name_cls, Hcls.
  - intros name Hname. unfold Parameter_name in Hname.
    destruct (t_name o) as [n|] eqn:Hn; [|done].
    injection Hname as ->.
    pose proof (Parameter_setattr_name_again o name) as Hagain.
    pose proof (Parameter_setattr_slug_other o name) as Hother.
    pose proof (Parameter_setattr_slug_same o name Hcls Hn) as Hsame.
    unfold setattr_name, setattr_slug in Hagain, Hother, Hsame.
    rewrite Hcls in Hagain, Hother, Hsame. split_and!.
    + intros value. eexists. by apply Hagain.
    + intros value Hne. eexists. by apply Hother.
    + done.
    + intros script. rewrite (after_assignments_Parameter script o name Hcls Hn).
      unfold Parameter_slug, Parameter_name. by rewrite Hcls, Hn.
Qed.

Lemma Parameter_name_write_once_slug_mirrors_witness :
  let o := with_name "x" (blank_task ParameterCls) in
  t_cls o = ParameterCls
  ∧ getattr_slug o = Ok (Some "x")
  ∧ (∃ msg, setattr_name "y" o = Raise (AttributeError msg))
  ∧ setattr_slug (Some "x") o = Ok o.
Proof.
  intros o.
  destruct (Parameter_name_write_once_slug_mirrors o eq_refl) as (Hslug & _ & Hset).
  destruct (Hset "x" eq_refl) as (Hname & _ & Hsame & _).
  split_and!; [reflexivity | exact Hslug | exact (Hname "y") | exact Hsame].
Defined.

(** ** Parameter: evaluation *)

(** C4.  Evaluating a Parameter looks its name up in the ambient parameter
    values: a required parameter whose name is absent raises FAIL with a
    message that names the parameter; otherwise the value found is
    returned, or the default when the name is absent and the parameter is not
    required. *)
Theorem Parameter_run_contract (o : task_obj) (ctx : context) (name : string) :
  getattr_name o = Ok name →
  let params := default ∅ (ctx_parameters ctx) in
  (t_required o = true → params !! name = None →
     Parameter_run o ctx
     = Raise (FAIL ("Parameter " +:+ dquote +:+ name +:+ dquote
                    +:+ " was required but not provided.")))
  ∧ (∀ value, params !! name = Some value → Parameter_run o ctx = Ok value)
  ∧ (t_required o = false → params !! name = None →
       Parameter_run o ctx = Ok (t_default o)).
Proof.
  intros Hname params. unfold Parameter_run. rewrite Hname. simpl. fold params.
  split_and!.
  - intros -> Hnone. by rewrite Hnone.
  - intros value Hsome. rewrite Hsome. by rewrite andb_false_r.
  - intros -> Hnone. by rewrite Hnone.
Qed.

Lemma Parameter_run_contract_witness :
  let o := with_parameter true VNone (with_name "n" (blank_task ParameterCls)) in
  getattr_name o = Ok "n"
  ∧ Parameter_run o empty_context
    = Raise (FAIL ("Parameter " +:+ dquote +:+ "n" +:+ dquote
                   +:+ " was required but not provided."))
  ∧ Parameter_run o (Context None None None (Some {["n" := VInt 7]})) = Ok (VInt 7).
Proof.
  intros o. split; [reflexivity|]. split.
  - apply (Parameter_run_contract o empty_context "n" eq_refl); reflexivity.
  - apply (Parameter_run_contract o (Context None None None (Some {["n" := VInt 7]}))
             "n" eq_refl).
    reflexivity.
Defined.

(** ** Construction *)

Lemma run_register flow self s :
  (∀ f, flow = Some f → is_Some (flows s !! f)) →
  match flow with
  | Some flow => Flow_add_task flow self
  | None => mret ()
  end s = (Ok (), store_registered flow self s).
Proof.
  intros Hf. destruct flow as [f|]; [|done].
  destruct (Hf f eq_refl) as [fl Hfl]. simpl. rewrite Hfl.
  by apply run_Flow_add_task.
Qed.

Lemma run_Task__init___ok self a ctx s o o1 o2 :
  store_wf s → ctx_wf ctx s → tags_wf (a_tags a) s →
  tasks s !! self = Some o →
  setattr_name (str_or (a_name a) (class_name (t_cls o))) o = Ok o1 →
  setattr_slug (a_slug a) o1 = Ok o2 →
  Task__init__ self a ctx s
  = (Ok (),
     store_registered (ctx_flow ctx) self
       (store_task self (initialised a ctx s o2)
          (store_coll (next_ref s) (own_tags a ctx s) (store_next s)))).
Proof.
  intros Hwf Hctx Htags Ho Hname Hslug.
  rewrite (run_Task__init__ _ _ _ _ _ _ _ Hwf Hctx Htags Ho Hname Hslug).
  apply run_register. intros f Hf. simpl. by apply Hctx.
Qed.

Lemma explicit_tags_colls t s s' : colls s' = colls s → explicit_tags t s' = explicit_tags t s.
Proof. intros H. unfold explicit_tags. by rewrite H. Qed.

Lemma ambient_tags_colls ctx s s' : colls s' = colls s → ambient_tags ctx s' = ambient_tags ctx s.
Proof. intros H. unfold ambient_tags. by rewrite H. Qed.

(** A new object [o0], then [Task.__init__] on it. *)
Lemma run_new_task o0 a ctx s o1 o2 :
  store_wf s → ctx_wf ctx s → tags_wf (a_tags a) s →
  setattr_name (str_or (a_name a) (class_name (t_cls o0))) o0 = Ok o1 →
  setattr_slug (a_slug a) o1 = Ok o2 →
  (self ← alloc_task o0; Task__init__ self a ctx;; mret self) s
  = (Ok (next_ref s),
     store_registered (ctx_flow ctx) (next_ref s)
       (store_task (next_ref s) (initialised a ctx (store_next s) o2)
          (store_coll (S (next_ref s)) (own_tags a ctx s)
             (store_next (store_next s))))).
Proof.
  intros Hwf Hctx Htags Hname Hslug.
  py_ok (run_alloc_task o0 s).
  set (self := next_ref s). set (s1 := store_task self o0 (store_next s)).
  assert (Hwf1 : store_wf s1).
  { apply store_wf_task; [simpl; lia|]. by apply store_wf_next. }
  assert (Hctx1 : ctx_wf ctx s1) by done.
  assert (Htags1 : tags_wf (a_tags a) s1) by done.
  assert (Ho : tasks s1 !! self = Some o0) by (simpl; by rewrite lookup_insert_eq).
  py_ok (run_Task__init___ok _ _ _ _ _ _ _ Hwf1 Hctx1 Htags1 Ho Hname Hslug).
  unfold mret, Py_ret. f_equal.
  unfold store_registered. simpl flows. f_equal.
  unfold initialised, own_tags, store_task, store_coll, store_next. simpl.
  f_equal. by rewrite insert_insert_eq.
Qed.

Lemma run_construct_Task cls a ctx s o1 o2 :
  store_wf s → ctx_wf ctx s → tags_wf (a_tags a) s →
  setattr_name (str_or (a_name a) (class_name cls)) (blank_task cls) = Ok o1 →
  setattr_slug (a_slug a) o1 = Ok o2 →
  construct_Task cls a ctx s
  = (Ok (next_ref s),
     store_registered (ctx_flow ctx) (next_ref s)
       (store_task (next_ref s) (initialised a ctx (store_next s) o2)
          (store_coll (S (next_ref s)) (own_tags a ctx s)
             (store_next (store_next s))))).
Proof.
  intros Hwf Hctx Htags Hname Hslug.
  exact (run_new_task _ _ _ _ _ _ Hwf Hctx Htags Hname Hslug).
Qed.

Lemma run_construct_GetItem index name ctx s :
  store_wf s → ctx_wf ctx s →
  construct_GetItem index name ctx s
  = (Ok (next_ref s),
     store_registered (ctx_flow ctx) (next_ref s)
       (store_task (next_ref s)
          (initialised (named_args name None) ctx (store_next s)
             (with_name (str_or name "GetItem") (with_index index (blank_task GetItemCls))))
          (store_coll (S (next_ref s)) (own_tags (named_args name None) ctx s)
             (store_next (store_next s))))).
Proof.
  intros Hwf Hctx.
  exact (run_new_task (with_index index (blank_task GetItemCls)) (named_args name None)
           ctx s _ _ Hwf Hctx I eq_refl eq_refl).
Qed.

Lemma run_construct_Parameter name default required ctx s :
  store_wf s → ctx_wf ctx s → name ≠ EmptyString →
  construct_Parameter name default required ctx s
  = (Ok (next_ref s),
     store_registered (ctx_flow ctx) (next_ref s)
       (store_task (next_ref s)
          (initialised (named_args (Some name) (Some name)) ctx (store_next s)
             (with_name name
                (with_parameter (match default with VNone => required | _ => false end)
                   default (blank_task ParameterCls))))
          (store_coll (S (next_ref s))
             (own_tags (named_args (Some name) (Some name)) ctx s)
             (store_next (store_next s))))).
Proof.
  intros Hwf Hctx Hname. unfold construct_Parameter.
  py_ok (run_alloc_task (blank_task ParameterCls) s).
  set (self := next_ref s). set (s1 := store_task self _ (store_next s)).
  unfold Parameter__init__.
  assert (Ho : tasks s1 !! self = Some (blank_task ParameterCls))
    by (simpl; by rewrite lookup_insert_eq).
  rewrite run_bind. py_ok (run_get_task _ _ _ Ho).
  set (required' := match default with VNone => required | _ => false end).
  py_ok (run_put_task self (with_parameter required' default (blank_task ParameterCls)) s1).
  set (o0 := with_parameter required' default (blank_task ParameterCls)).
  set (s2 := store_task self o0 s1).
  assert (Hwf2 : store_wf s2).
  { apply store_wf_task; [simpl; lia|]. apply store_wf_task; [simpl; lia|].
    by apply store_wf_next. }
  assert (Hctx2 : ctx_wf ctx s2) by done.
  assert (Ho2 : tasks s2 !! self = Some o0) by (simpl; by rewrite lookup_insert_eq).
  assert (Hn : setattr_name (str_or (Some name) (class_name (t_cls o0))) o0
               = Ok (with_name name o0)).
  { simpl. by rewrite decide_False. }
  assert (Hs : setattr_slug (Some name) (with_name name o0) = Ok (with_name name o0)).
  { by apply Parameter_setattr_slug_same. }
  rewrite (run_Task__init___ok self (named_args (Some name) (Some name)) ctx s2 o0 _ _
             Hwf2 Hctx2 I Ho2 Hn Hs).
  f_equal. unfold store_registered. simpl flows. f_equal.
  unfold initialised, own_tags, store_task, store_coll, store_next. simpl.
  f_equal. by rewrite !insert_insert_eq.
Qed.

Lemma store_registered_tasks flow task s : tasks (store_registered flow task s) = tasks s.
Proof. unfold store_registered. by repeat case_match. Qed.

Lemma store_registered_colls flow task s : colls (store_registered flow task s) = colls s.
Proof. unfold store_registered. by repeat case_match. Qed.

Lemma store_registered_results flow task s :
  results (store_registered flow task s) = results s.
Proof. unfold store_registered. by repeat case_match. Qed.

Lemma store_registered_next_ref flow task s :
  next_ref (store_registered flow task s) = next_ref s.
Proof. unfold store_registered. by repeat case_match. Qed.

(** ** Parameter: construction *)

(** C5.  A Parameter constructed with a default other than None is not
    required, whatever [required] argument was given; with the default None
    the argument given is kept.  Construction returns whenever the name is
    not empty. *)
Theorem Parameter_required_forced_by_default name default required ctx s :
  store_wf s → ctx_wf ctx s → name ≠ EmptyString →
  ∃ self s' o,
    construct_Parameter name default required ctx s = (Ok self, s')
    ∧ tasks s' !! self = Some o
    ∧ t_cls o = ParameterCls
    ∧ getattr_name o = Ok name
    ∧ t_default o = default
    ∧ (default ≠ VNone → t_required o = false)
    ∧ (default = VNone → t_required o = required).
Proof.
  intros Hwf Hctx Hname. eexists _, _, _. split; [by apply run_construct_Parameter|].
  rewrite store_registered_tasks. simpl tasks. rewrite lookup_insert_eq.
  split_and!; [done..| |].
  - intros Hd. simpl. by destruct default.
  - intros ->. done.
Qed.

Lemma Parameter_required_forced_by_default_witness :
  ∃ self s' o,
    construct_Parameter "n" (VInt 5) true empty_context empty_store = (Ok self, s')
    ∧ tasks s' !! self = Some o
    ∧ t_required o = false.
Proof.
  destruct (Parameter_required_forced_by_default "n" (VInt 5) true empty_context
              empty_store store_wf_empty)
    as (self & s' & o & Hrun & Ho & _ & _ & _ & Hreq & _).
  - split; intros ? [=].
  - intros [=].
  - exists self, s', o. split_and!; [exact Hrun | exact Ho | by apply Hreq].
Defined.

(** ** Task: tags and group *)

Lemma Task__init___inv self a ctx s s' o :
  tasks s !! self = Some o →
  Task__init__ self a ctx s = (Ok (), s') →
  ∃ o1 o2, setattr_name (str_or (a_name a) (class_name (t_cls o))) o = Ok o1
           ∧ setattr_slug (a_slug a) o1 = Ok o2.
Proof.
  intros Ho. unfold Task__init__. py_ok (run_get_task _ _ _ Ho).
  destruct (setattr_name _ o) as [o1|e] eqn:Hname; [|done].
  py_ok (run_lift (Ok o1) s). py_ok (run_put_task self o1 s).
  destruct (setattr_slug _ o1) as [o2|e] eqn:Hslug; [|done].
  eauto.
Qed.

(** C8.  The tags and the group of a task are fixed when [Task.__init__]
    runs: the tag set is the union of the explicit tags and the ambient tags
    read then, held in a set of the task's own; the group is the explicit
    group, or else the ambient one.  Overwriting any collection that existed
    at construction, the ambient tags and the [tags] argument among them,
    changes neither; nor does the context, which the task never reads
    again. *)
Theorem tags_and_group_snapshot self a ctx s s' :
  store_wf s → ctx_wf ctx s → tags_wf (a_tags a) s →
  is_Some (tasks s !! self) →
  Task__init__ self a ctx s = (Ok (), s') →
  Task_tags s' self
  = Some (CSet (list_to_set (explicit_tags (a_tags a) s)
                ∪ list_to_set (ambient_tags ctx s)))
  ∧ Task_group s' self
    = Some (str_or (a_group a) (default EmptyString (ctx_group ctx)))
  ∧ ∀ r c, is_Some (colls s !! r) →
      Task_tags (store_coll r c s') self = Task_tags s' self
      ∧ Task_group (store_coll r c s') self = Task_group s' self.
Proof.
  intros Hwf Hctx Htags [o Ho] Hrun.
  destruct (Task__init___inv _ _ _ _ _ _ Ho Hrun) as (o1 & o2 & Hname & Hslug).
  rewrite (run_Task__init___ok _ _ _ _ _ _ _ Hwf Hctx Htags Ho Hname Hslug) in Hrun.
  injection Hrun as <-.
  unfold Task_tags, Task_group. simpl tasks.
  rewrite !store_registered_tasks, !store_registered_colls. simpl.
  rewrite !lookup_insert_eq. simpl. rewrite !lookup_insert_eq.
  split_and!; [done..|].
  intros r c [c0 Hr]. split; [|done].
  rewrite lookup_insert_ne.
  - rewrite store_registered_colls. simpl. by rewrite lookup_insert_eq.
  - apply (store_wf_coll_lt _ _ _ Hwf) in Hr. lia.
Qed.

(** ** Nodes of a flow *)

Lemma flow_with_task_elem task f : task ∈ flow_tasks (flow_with_task task f).
Proof.
  unfold flow_with_task. case_decide; [done|]. simpl. apply elem_of_app. right. by left.
Qed.

Lemma flow_with_task_present task f : task ∈ flow_tasks f → flow_with_task task f = f.
Proof. intros Hin. unfold flow_with_task. by rewrite decide_True. Qed.

Lemma flow_with_task_edges task f : flow_edges (flow_with_task task f) = flow_edges f.
Proof. unfold flow_with_task. by case_decide. Qed.

Lemma node_count_present task f : task ∈ flow_tasks f ↔ 0 < node_count task f.
Proof.
  unfold node_count. split.
  - intros Hin. assert (task ∈ filter (λ t, t = task) (flow_tasks f)) as Hf
      by (by apply list_elem_of_filter).
    destruct (filter _ _); [by apply elem_of_nil in Hf | simpl; lia].
  - intros Hlen. destruct (filter (λ t, t = task) (flow_tasks f)) as [|t l] eqn:Hf;
      [simpl in Hlen; lia|].
    assert (t ∈ filter (λ t, t = task) (flow_tasks f)) as Ht by (rewrite Hf; by left).
    apply list_elem_of_filter in Ht as [-> ?]. done.
Qed.

Lemma node_count_with_task task f :
  node_count task (flow_with_task task f)
  = if decide (task ∈ flow_tasks f) then node_count task f else S (node_count task f).
Proof.
  unfold flow_with_task, node_count. case_decide; [done|]. simpl.
  rewrite filter_app, length_app. rewrite filter_cons, decide_True by done.
  simpl. lia.
Qed.

Lemma node_count_with_task_le task f :
  (node_count task (flow_with_task task f) ≤ S (node_count task f))%nat.
Proof. rewrite node_count_with_task. case_decide; lia. Qed.

Lemma node_count_with_edges task es f :
  node_count task (flow_with_edges es f) = node_count task f.
Proof. done. Qed.

(** ** What a returning computation went through *)

Lemma Flow_set_dependencies_inv self task ups downs kw validate s r s' :
  Flow_set_dependencies self task ups downs kw validate s = (Ok r, s') →
  ∃ f kws,
    flows s !! self = Some f
    ∧ keyword_edges s task (default [] kw) = Ok kws
    ∧ r = next_ref s
    ∧ s' = store_result (next_ref s) (TaskResultObj task self)
             (store_next
                (store_flow self
                   (flow_with_task task
                      (flow_with_edges (explicit_edges task ups downs ++ kws) f))
                   s)).
Proof.
  intros Hrun.
  destruct (keyword_edges s task (default [] kw)) as [kws|e] eqn:Hkws; cycle 1.
  { unfold Flow_set_dependencies in Hrun. rewrite run_bind in Hrun.
    unfold get_store at 1 in Hrun. cbv beta iota in Hrun. by rewrite Hkws in Hrun. }
  destruct (flows s !! self) as [f|] eqn:Hf; cycle 1.
  { unfold Flow_set_dependencies in Hrun. rewrite run_bind in Hrun.
    unfold get_store at 1 in Hrun. cbv beta iota in Hrun. rewrite Hkws in Hrun.
    rewrite (run_bind_ok _ _ _ _ _ (run_lift (Ok kws) s)) in Hrun. cbv beta in Hrun.
    rewrite run_bind in Hrun. unfold Flow_add_task in Hrun. rewrite run_bind in Hrun.
    unfold get_flow, lookup_obj in Hrun. by rewrite Hf in Hrun. }
  rewrite (run_Flow_set_dependencies _ _ _ _ _ _ _ _ _ Hf Hkws) in Hrun.
  cbv zeta in Hrun. destruct (validate && negb _); [done|].
  injection Hrun as <- <-. eauto 10.
Qed.

Lemma Task__call___inv self args ups kwargs ctx s r s' :
  Task__call__ self args ups kwargs ctx s = (Ok r, s') →
  ∃ o c, tasks s !! self = Some o
         ∧ callargs (run_signature (t_cls o)) args kwargs = Ok c.
Proof.
  intros Hrun. unfold Task__call__ in Hrun.
  destruct (tasks s !! self) as [o|] eqn:Ho; cycle 1.
  { rewrite run_bind in Hrun. unfold get_task, lookup_obj in Hrun. by rewrite Ho in Hrun. }
  rewrite (run_bind_ok _ _ _ _ _ (run_get_task _ _ _ Ho)) in Hrun. cbv beta in Hrun.
  destruct (callargs _ args kwargs) as [c|e] eqn:Hc; [eauto|done].
Qed.

(** ** The owning flow *)

Lemma flow_valid_empty s : flow_valid s (FlowObj [] []) = true.
Proof. reflexivity. Qed.

(** A flow of one node and no edge passes validation. *)
Lemma flow_valid_single_node s (t : nat) : flow_valid s (FlowObj [t] []) = true.
Proof.
  unfold flow_valid, flow_slugs. simpl. apply bool_decide_eq_true.
  destruct (tasks s !! t) as [o|]; simpl; [|apply NoDup_nil_2].
  destruct (getattr_slug o) as [[slug|]|]; simpl;
    [apply NoDup_singleton|apply NoDup_nil_2..].
Qed.

(** C6.  [set_dependencies] hands the edges to the explicit flow when one
    is given, else to the ambient flow of the context, else to a flow it
    constructs, new and empty; an invocation has no flow argument and uses
    the ambient flow, else a new one.  With no ambient flow the resolution
    does not fail: a task set up with no dependency gets its TaskResult in
    the new flow. *)
Theorem owning_flow_resolution self ups downs kw validate ctx s :
  let fresh := next_ref s in
  let s1 := store_flow fresh (FlowObj [] []) (store_next s) in
  (∀ flow, Task_set_dependencies self (Some flow) ups downs kw validate ctx s
           = Flow_set_dependencies flow self ups downs kw validate s)
  ∧ (∀ flow, ctx_flow ctx = Some flow →
       Task_set_dependencies self None ups downs kw validate ctx s
       = Flow_set_dependencies flow self ups downs kw validate s1)
  ∧ (ctx_flow ctx = None →
       Task_set_dependencies self None ups downs kw validate ctx s
       = Flow_set_dependencies fresh self ups downs kw validate s1)
  ∧ (∀ o args kwargs c,
       tasks s !! self = Some o →
       callargs (run_signature (t_cls o)) args kwargs = Ok c →
       (∀ flow, ctx_flow ctx = Some flow →
          Task__call__ self args ups kwargs ctx s
          = Flow_set_dependencies flow self ups None (Some c) true s1)
       ∧ (ctx_flow ctx = None →
            Task__call__ self args ups kwargs ctx s
            = Flow_set_dependencies fresh self ups None (Some c) true s1))
  ∧ flows s1 !! fresh = Some (FlowObj [] [])
  ∧ (store_wf s → flows s !! fresh = None)
  ∧ (ctx_flow ctx = None →
       ∃ s', Task_set_dependencies self None None None None validate ctx s
             = (Ok (S fresh), s')
             ∧ results s' !! S fresh = Some (TaskResultObj self fresh)
             ∧ flows s' !! fresh = Some (FlowObj [self] [])).
Proof.
  intros fresh s1. split_and!.
  - done.
  - intros flow Hflow. rewrite run_Task_set_dependencies_ambient. by rewrite Hflow.
  - intros Hnone. rewrite run_Task_set_dependencies_ambient. by rewrite Hnone.
  - intros o args kwargs c Ho Hc. rewrite (run_Task__call__ _ _ _ _ _ _ _ _ Ho Hc).
    split; [intros flow Hflow; by rewrite Hflow | intros Hnone; by rewrite Hnone].
  - subst s1. simpl. by rewrite lookup_insert_eq.
  - intros Hwf. destruct (flows s !! fresh) as [f|] eqn:Hf; [|done].
    apply (store_wf_flow_lt _ _ _ Hwf) in Hf. subst fresh. lia.
  - intros Hnone. rewrite run_Task_set_dependencies_ambient, Hnone. simpl default.
    fold fresh. fold s1.
    assert (Hf : flows s1 !! fresh = Some (FlowObj [] []))
      by (subst s1; simpl; by rewrite lookup_insert_eq).
    rewrite (run_Flow_set_dependencies fresh self None None None validate s1 _ []
               Hf eq_refl).
    cbv zeta. unfold explicit_edges. simpl app.
    replace (flow_with_task self (flow_with_edges [] (FlowObj [] [])))
      with (FlowObj [self] []) by done.
    rewrite flow_valid_single_node. rewrite andb_false_r.
    eexists. split; [done|]. simpl. rewrite !lookup_insert_eq. done.
Qed.

(** ** Invocation on the ambient flow *)

(** An invocation that returns, on a store where the ambient flow is [f]:
    the TaskResult is new, bound to the task and the flow, and the flow has
    gained the edges of the call and, if it was not there, the node. *)
Lemma Task__call___ambient self args ups kwargs ctx flow f s r s' :
  store_wf s → ctx_flow ctx = Some flow → flows s !! flow = Some f →
  Task__call__ self args ups kwargs ctx s = (Ok r, s') →
  ∃ es,
    r = S (next_ref s)
    ∧ next_ref s' = S (S (next_ref s))
    ∧ results s' = <[r := TaskResultObj self flow]> (results s)
    ∧ tasks s' = tasks s
    ∧ colls s' = colls s
    ∧ flows s' = <[flow := flow_with_task self (flow_with_edges es f)]>
                   (<[next_ref s := FlowObj [] []]> (flows s)).
Proof.
  intros Hwf Hctx Hf Hrun.
  destruct (Task__call___inv _ _ _ _ _ _ _ _ Hrun) as (o & c & Ho & Hc).
  rewrite (run_Task__call__ _ _ _ _ _ _ _ _ Ho Hc), Hctx in Hrun. simpl default in Hrun.
  apply Flow_set_dependencies_inv in Hrun as (f0 & kws & Hf0 & _ & -> & ->).
  simpl in Hf0. rewrite lookup_insert_ne in Hf0
    by (apply (store_wf_flow_lt _ _ _ Hwf) in Hf; lia).
  rewrite Hf in Hf0. injection Hf0 as <-.
  eexists. split_and!; done.
Qed.

(** ** TaskResult: registration *)

(** C7.  The constructor of TaskResult adds the task to the given flow
    before it returns: the task is a node of the flow afterwards, and a flow
    that had it is left as it was.  So two invocations of a task against one
    flow return two distinct TaskResults, both bound to the task and the
    flow, while the flow counts the task at most once more than before: the
    second invocation adds no node. *)
Theorem TaskResult_registers_task_idempotently task flow s f :
  store_wf s → flows s !! flow = Some f →
  (∃ s' f',
     TaskResult__init__ task (Some flow) s = (Ok (next_ref s), s')
     ∧ results s' !! next_ref s = Some (TaskResultObj task flow)
     ∧ flows s' !! flow = Some f'
     ∧ task ∈ flow_tasks f'
     ∧ (task ∈ flow_tasks f → f' = f)
     ∧ (node_count task f' ≤ S (node_count task f))%nat)
  ∧ ∀ ctx args1 ups1 kwargs1 args2 ups2 kwargs2 r1 s1 r2 s2,
      ctx_flow ctx = Some flow →
      Task__call__ task args1 ups1 kwargs1 ctx s = (Ok r1, s1) →
      Task__call__ task args2 ups2 kwargs2 ctx s1 = (Ok r2, s2) →
      r1 ≠ r2
      ∧ results s2 !! r1 = Some (TaskResultObj task flow)
      ∧ results s2 !! r2 = Some (TaskResultObj task flow)
      ∧ ∃ f1 f2,
          flows s1 !! flow = Some f1
          ∧ flows s2 !! flow = Some f2
          ∧ task ∈ flow_tasks f2
          ∧ (node_count task f1 ≤ S (node_count task f))%nat
          ∧ node_count task f2 = node_count task f1.
Proof.
  intros Hwf Hf. split.
  - eexists _, _. split; [by apply run_TaskResult__init__|].
    simpl. rewrite !lookup_insert_eq.
    split_and!; [done..|apply flow_with_task_elem|apply flow_with_task_present|
                 apply node_count_with_task_le].
  - intros ctx args1 ups1 kwargs1 args2 ups2 kwargs2 r1 s1 r2 s2 Hctx Hrun1 Hrun2.
    destruct (Task__call___ambient _ _ _ _ _ _ _ _ _ _ Hwf Hctx Hf Hrun1)
      as (es1 & -> & Hnext1 & Hres1 & Htasks1 & Hcolls1 & Hflows1).
    set (f1 := flow_with_task task (flow_with_edges es1 f)) in *.
    assert (Hf1 : flows s1 !! flow = Some f1) by (by rewrite Hflows1, lookup_insert_eq).
    assert (Hwf1 : store_wf s1).
    { destruct Hwf as (Hc & Ht & Hfl & Hr). unfold store_wf.
      rewrite Hnext1, Hcolls1, Htasks1, Hflows1, Hres1. repeat split.
      - intros r Hr'. apply Hc in Hr'. lia.
      - intros r Hr'. apply Ht in Hr'. lia.
      - intros r Hr'. rewrite !lookup_insert_is_Some in Hr'.
        destruct Hr' as [<-|[_ [<-|[_ Hr']]]].
        + apply mk_is_Some, Hfl in Hf. lia.
        + lia.
        + apply Hfl in Hr'. lia.
      - intros r Hr'. rewrite lookup_insert_is_Some in Hr'.
        destruct Hr' as [<-|[_ Hr']]; [lia|]. apply Hr in Hr'. lia. }
    destruct (Task__call___ambient _ _ _ _ _ _ _ _ _ _ Hwf1 Hctx Hf1 Hrun2)
      as (es2 & -> & Hnext2 & Hres2 & Htasks2 & Hcolls2 & Hflows2).
    rewrite Hnext1 in *.
    split_and!.
    + lia.
    + rewrite Hres2, Hres1. rewrite lookup_insert_ne by lia. by rewrite lookup_insert_eq.
    + rewrite Hres2. by rewrite lookup_insert_eq.
    + exists f1, (flow_with_task task (flow_with_edges es2 f1)).
      split_and!; [done| |apply flow_with_task_elem| |].
      * by rewrite Hflows2, lookup_insert_eq.
      * subst f1. rewrite node_count_with_task. simpl flow_tasks.
        rewrite node_count_with_edges. case_decide; lia.
      * rewrite flow_with_task_present; [done|]. simpl. apply flow_with_task_elem.
Qed.

(** ** The flow's cycle check *)

Section Cycles.
Local Open Scope list_scope.
Local Open Scope nat_scope.
Implicit Types (es : list (nat * nat)) (l : list (nat * nat)) (e : nat * nat).


Lemma path_app es a b c : path es a b → path es b c → path es a c.
Proof. induction 1; eauto using path. Qed.


Lemma last_nonempty {A} (l : list A) : ∀ a d d',
  List.last (a :: l) d = List.last (a :: l) d'.
Proof.
  induction l as [|b l IH]; intros a d d'; [done|].
  change (List.last (b :: l) d = List.last (b :: l) d'). apply IH.
Qed.

Lemma chain_end_cons e e' l : chain_end e (e' :: l) = chain_end e' l.
Proof.
  unfold chain_end. f_equal. destruct l as [|x l]; [done|].
  change (List.last (x :: l) e = List.last (x :: l) e'). apply last_nonempty.
Qed.



Lemma chain_path es e l :
  chain (e :: l) → Forall (λ x, x ∈ es) (e :: l) → path es e.1 (chain_end e l).
Proof.
  revert e. induction l as [|e' l IH]; intros e Hchain Hall.
  - apply Forall_cons in Hall as [He _]. apply path_edge. by destruct e.
  - apply Forall_cons in Hall as [He Hall]. destruct Hchain as [Hlink Hchain].
    rewrite chain_end_cons. apply path_step with e.2; [by destruct e|].
    rewrite Hlink. by apply IH.
Qed.








End Cycles.



Lemma omap_ext_elem {A B} (f g : A → option B) (l : list A) :
  (∀ x, x ∈ l → f x = g x) → omap f l = omap g l.
Proof.
  induction l as [|a l IH]; intros Hfg; [done|]. csimpl.
  rewrite (Hfg a) by (by left). rewrite IH; [done|].
  intros x Hx. apply Hfg. by right.
Qed.


Lemma store_wf_check_correct s : store_wf_check s = true → store_wf s.
Proof.
  unfold store_wf_check. rewrite !andb_true_iff, !bool_decide_eq_true.
  intros [[[Hc Ht] Hf] Hr]. repeat split; intros r [x Hx].
  - by apply (Hc r x).
  - by apply (Ht r x).
  - by apply (Hf r x).
  - by apply (Hr r x).
Qed.

(** ** Index access *)

Lemma getitem_name_not_empty name index : getitem_name name index ≠ EmptyString.
Proof. unfold getitem_name. by destruct name. Qed.

Lemma str_or_Some s d : s ≠ EmptyString → str_or (Some s) d = s.
Proof. intros Hs. unfold str_or. by rewrite decide_False. Qed.

(** The edge [__getitem__] asks for. *)
Lemma getitem_callargs (r : nat) :
  callargs (run_signature GetItemCls) [] [("task_result", VTaskResult r)]
  = Ok [(KStr "task_result", VTaskResult r)].
Proof. reflexivity. Qed.

Lemma store_registered_flow flow task s f :
  flows s !! flow = Some f →
  store_registered (Some flow) task s = store_flow flow (flow_with_task task f) s.
Proof. intros Hf. unfold store_registered. by rewrite Hf. Qed.

(** What [result[index]] does, step by step: the new task is [next_ref s],
    its tags take the next reference, the flow that [__call__] builds
    eagerly the one after, and the new TaskResult the one after that. *)
Lemma run_TaskResult__getitem__ r index ctx s x parent name :
  store_wf s → ctx_wf ctx s →
  results s !! r = Some x →
  tasks s !! tr_task x = Some parent →
  getattr_name parent = Ok name →
  let g := next_ref s in
  let a := named_args (Some (getitem_name name index)) None in
  let og := initialised a ctx (store_next s)
              (with_name (getitem_name name index)
                 (with_index index (blank_task GetItemCls))) in
  let sG := store_registered (ctx_flow ctx) g
              (store_task g og
                 (store_coll (S g) (own_tags a ctx s) (store_next (store_next s)))) in
  let F := default (S (S g)) (ctx_flow ctx) in
  let s0 := store_flow (S (S g)) (FlowObj [] []) (store_next sG) in
  let f0 := match ctx_flow ctx with
            | Some flow => flow_with_task g (default (FlowObj [] []) (flows s !! flow))
            | None => FlowObj [] []
            end in
  let f1 := flow_with_task g
              (flow_with_edges [Edge (NTask (tr_task x)) g (Some (KStr "task_result"))] f0) in
  let s1 := store_flow F f1 s0 in
  flows s0 !! F = Some f0
  ∧ TaskResult__getitem__ r index ctx s
    = if negb (flow_valid s1 f1) then (Raise invalid_flow, s1)
      else (Ok (S (S (S g))),
            store_result (S (S (S g))) (TaskResultObj g F) (store_next s1)).
Proof.
  intros Hwf Hctx Hr Hparent Hname g a og sG F s0 f0 f1 s1.
  assert (HsG : construct_GetItem index (Some (getitem_name name index)) ctx s
                = (Ok g, sG)).
  { rewrite (run_construct_GetItem _ _ _ _ Hwf Hctx).
    by rewrite (str_or_Some _ _ (getitem_name_not_empty name index)). }
  assert (Hf0 : flows s0 !! F = Some f0).
  { subst s0 F f0. simpl flows. destruct (ctx_flow ctx) as [flow|] eqn:Hflow; simpl default.
    - destruct Hctx as [Hcf _]. destruct (Hcf flow Hflow) as [fa Hfa].
      rewrite lookup_insert_ne
        by (apply (store_wf_flow_lt _ _ _ Hwf) in Hfa; subst g; lia).
      subst sG. rewrite (store_registered_flow flow g _ fa) by done.
      simpl. rewrite lookup_insert_eq. by rewrite Hfa.
    - by rewrite lookup_insert_eq. }
  split; [done|].
  unfold TaskResult__getitem__.
  py_ok (run_get_result _ _ _ Hr). py_ok (run_get_task _ _ _ Hparent).
  rewrite Hname. py_ok (run_lift (Ok name) s). py_ok HsG.
  assert (Hog : tasks sG !! g = Some og).
  { subst sG. rewrite store_registered_tasks. simpl. by rewrite lookup_insert_eq. }
  rewrite (run_Task__call__ g [] None _ ctx sG og _ Hog (getitem_callargs r)).
  assert (Hnext : next_ref sG = S (S g)).
  { subst sG. by rewrite store_registered_next_ref. }
  rewrite Hnext. fold F. fold s0.
  assert (Hkws : keyword_edges s0 g (default [] (Some [(KStr "task_result", VTaskResult r)]))
                 = Ok [Edge (NTask (tr_task x)) g (Some (KStr "task_result"))]).
  { simpl. subst s0 sG. simpl results. rewrite store_registered_results. simpl.
    by rewrite Hr. }
  rewrite (run_Flow_set_dependencies F g None None _ true s0 f0 _ Hf0 Hkws).
  cbv zeta. unfold explicit_edges. simpl app. fold f1. fold s1. simpl andb.
  replace (next_ref s0) with (S (S (S g))); [done|].
  subst s0. simpl. by rewrite Hnext.
Qed.

(** A flow of one node and one edge into it from another task passes
    validation. *)
Lemma flow_valid_single_edge s (t g : nat) k :
  t ≠ g → flow_valid s (FlowObj [g] [Edge (NTask t) g k]) = true.
Proof.
  intros Hne. unfold flow_valid, has_cycle. simpl.
  rewrite bool_decide_false by done. simpl.
  apply (flow_valid_single_node s g).
Qed.




(** C10.  [r[index]] takes the flow of the derived task from the context,
    not from [r]: when the ambient flow is not [r]'s flow, the derived task
    and its edge are in the ambient flow and [r]'s flow is as it was; with
    no ambient flow they are in a flow constructed for the call, and [r]'s
    flow is as it was. *)
Theorem getitem_uses_ambient_flow r index ctx s x parent name :
  store_wf s → ctx_wf ctx s →
  results s !! r = Some x →
  tasks s !! tr_task x = Some parent →
  getattr_name parent = Ok name →
  is_Some (flows s !! tr_flow x) →
  let g := next_ref s in
  let e := Edge (NTask (tr_task x)) g (Some (KStr "task_result")) in
  ∃ out s',
    TaskResult__getitem__ r index ctx s = (out, s')
    ∧ (∀ flow, ctx_flow ctx = Some flow → flow ≠ tr_flow x →
         flows s' !! tr_flow x = flows s !! tr_flow x
         ∧ ∃ fF, flows s' !! flow = Some fF
                 ∧ g ∈ flow_tasks fF ∧ e ∈ flow_edges fF
                 ∧ ∀ r', out = Ok r' → results s' !! r' = Some (TaskResultObj g flow))
    ∧ (ctx_flow ctx = None →
         flows s' !! tr_flow x = flows s !! tr_flow x
         ∧ flows s !! S (S g) = None
         ∧ ∃ fF, flows s' !! S (S g) = Some fF
                 ∧ g ∈ flow_tasks fF ∧ e ∈ flow_edges fF
                 ∧ ∀ r', out = Ok r' →
                     results s' !! r' = Some (TaskResultObj g (S (S g)))).
Proof.
  intros Hwf Hctx Hr Hparent Hname [fx Hfx] g e.
  destruct (run_TaskResult__getitem__ r index ctx s x parent name Hwf Hctx Hr Hparent Hname)
    as [Hf0 Hrun].
  cbv zeta in Hf0, Hrun. fold g in Hf0, Hrun. fold e in Hrun.
  set (a := named_args (Some (getitem_name name index)) None) in *.
  set (og := initialised a ctx (store_next s) _) in *.
  set (sG := store_registered (ctx_flow ctx) g _) in *.
  set (F := default (S (S g)) (ctx_flow ctx)) in *.
  set (s0 := store_flow (S (S g)) _ (store_next sG)) in *.
  set (f0 := match ctx_flow ctx with Some _ => _ | None => _ end) in *.
  set (f1 := flow_with_task g (flow_with_edges [e] f0)) in *.
  set (s1 := store_flow F f1 s0) in *.
  assert (Hx_lt : tr_flow x < g) by (apply (store_wf_flow_lt _ _ _ Hwf) in Hfx; done).
  assert (Hg1 : g ∈ flow_tasks f1) by apply flow_with_task_elem.
  assert (He : e ∈ flow_edges f1).
  { subst f1. rewrite flow_with_task_edges. simpl. apply elem_of_app. right. by left. }
  assert (Hframe : tr_flow x ≠ F → flows s1 !! tr_flow x = flows s !! tr_flow x).
  { intros Hne. subst s1 s0. simpl. rewrite !lookup_insert_ne by (done || lia).
    subst sG. unfold store_registered. destruct (ctx_flow ctx) as [flow|] eqn:Hflow; [|done].
    simpl. destruct (flows s !! flow); [|done]. simpl.
    subst F. simpl in Hne. by rewrite lookup_insert_ne. }
  assert (Hf1 : flows s1 !! F = Some f1) by (subst s1; simpl; by rewrite lookup_insert_eq).
  assert (Hfresh : flows s !! S (S g) = None).
  { destruct (flows s !! S (S g)) eqn:Hg; [|done].
    apply (store_wf_flow_lt _ _ _ Hwf) in Hg. subst g. lia. }
  assert (HF : ∀ flow, ctx_flow ctx = Some flow → F = flow).
  { intros flow Hflow. subst F. by rewrite Hflow. }
  assert (HFnone : ctx_flow ctx = None → F = S (S g)).
  { intros Hflow. subst F. by rewrite Hflow. }
  destruct (flow_valid s1 f1) eqn:Hvalid; simpl in Hrun.
  - eexists _, _. split; [exact Hrun|]. split.
    + intros flow Hflow Hne%not_eq_sym. rewrite <- (HF flow Hflow) in Hne.
      split; [exact (Hframe Hne)|]. rewrite <- (HF flow Hflow).
      exists f1. split_and!; [exact Hf1|done..|].
      intros r' [= <-]. simpl. by rewrite lookup_insert_eq.
    + intros Hflow.
      assert (tr_flow x ≠ F) as Hne by (rewrite (HFnone Hflow); lia).
      split_and!; [exact (Hframe Hne)|done|]. rewrite <- (HFnone Hflow).
      exists f1. split_and!; [exact Hf1|done..|].
      intros r' [= <-]. simpl. by rewrite lookup_insert_eq.
  - eexists _, _. split; [exact Hrun|]. split.
    + intros flow Hflow Hne%not_eq_sym. rewrite <- (HF flow Hflow) in Hne.
      split; [exact (Hframe Hne)|]. rewrite <- (HF flow Hflow).
      exists f1. split_and!; done.
    + intros Hflow. exfalso.
      assert (flow_valid s1 f1 = true) as Htrue; [|congruence].
      subst f1 f0. rewrite Hflow. apply (flow_valid_single_edge s1 (tr_task x) g).
      apply (store_wf_task_lt _ _ _ Hwf) in Hparent. subst g. lia.
Qed.

(** ** CallBinder: the overflow slot *)

(** C1 (the code departs from the claim).  For a work function declared
    [run(self, a, **rest)] and the invocation with a=1, x=2, y=3, the mapping
    [__call__] builds is [{a: 1, rest: {x: 2, y: 3}}]: the overflow mapping
    stays nested under the name of its slot, and x and y are no keys of the
    result.  The key [__call__] pops is the Parameter object of the slot, not
    its name, and no key of the mapping equals it: for every signature and
    every call the mapping is the one [bind] returns, unchanged.  In the
    session, the flow gets one edge keyed [rest] that carries the nested
    mapping. *)
Theorem overflow_mapping_stays_nested :
  callargs sig_a_rest [] [("a", VInt 1); ("x", VInt 2); ("y", VInt 3)]
  = Ok [(KStr "a", VInt 1);
        (KStr "rest", VDict [(KStr "x", VInt 2); (KStr "y", VInt 3)])]
  ∧ (∀ sig args kwargs, callargs sig args kwargs = bind sig args kwargs)
  ∧ (∃ task s1 r s2,
       construct_Task (UserCls "Spread" sig_a_rest) default_args session_ctx
         session_store = (Ok task, s1)
       ∧ Task__call__ task [] None [("a", VInt 1); ("x", VInt 2); ("y", VInt 3)]
           session_ctx s1 = (Ok r, s2)
       ∧ flow_edges <$> flows s2 !! 0
         = Some [Edge (NConstant (VInt 1)) task (Some (KStr "a"));
                 Edge (NConstant (VDict [(KStr "x", VInt 2); (KStr "y", VInt 3)]))
                   task (Some (KStr "rest"))]).
Proof.
  split_and!.
  - reflexivity.
  - apply callargs_is_bind.
  - eexists _, _, _, _. split_and!; vm_compute; reflexivity.
Qed.

(** ** CallBinder: binding errors *)

Lemma Task__call___binding_error self args ups kwargs ctx s o e :
  tasks s !! self = Some o →
  callargs (run_signature (t_cls o)) args kwargs = Raise e →
  Task__call__ self args ups kwargs ctx s = (Raise e, s).
Proof.
  intros Ho He. unfold Task__call__. py_ok (run_get_task _ _ _ Ho). by rewrite He.
Qed.

(** Deciding that no keyword is one of [__call__]'s own. *)
Lemma reaches_kwargs_check kwargs :
  forallb (λ k, negb (dict_mem k kwargs)) own_keywords = true → reaches_kwargs kwargs.
Proof.
  rewrite forallb_forall. intros Hall k Hk Hin.
  apply list_elem_of_In, Hall in Hk. rewrite dict_mem_elem_of in Hk.
  by rewrite bool_decide_eq_true_2 in Hk.
Qed.

(** The claim C2 as it is worded fails: [run(self, a, b=1)] invoked with
    one positional value and the keyword a raises, although no keyword is
    unknown, the positional values are not too many and no required parameter
    is left without a value. *)
Lemma binding_error_outside_the_three_ways :
  wf_signature sig_a_b
  ∧ wf_kwargs [("a", VInt 6)]
  ∧ reaches_kwargs [("a", VInt 6)]
  ∧ raises (callargs sig_a_b [VInt 5] [("a", VInt 6)])
  ∧ ¬ (unknown_keyword sig_a_b [("a", VInt 6)]
       ∨ too_many_positionals sig_a_b [VInt 5]
       ∨ missing_value sig_a_b [VInt 5] [("a", VInt 6)]).
Proof.
  split_and!.
  - split_and!.
    + repeat constructor; by right.
    + compute_done.
    + repeat constructor; done.
  - compute_done.
  - apply reaches_kwargs_check. reflexivity.
  - by eexists.
  - by intros [[]|[[]|[]]].
Qed.

(** C2 (amended).  For a signature as a [def] gives it and keyword
    arguments with one value per name, none of them [self] or
    [upstream_tasks], which [__call__] takes for itself, the invocation
    raises a binding error if and only if an unknown keyword name is passed,
    too many positional values are passed, a required parameter receives no
    value, or a parameter receives a value both by position and by keyword;
    the error is raised before the store is touched.  For
    [run(self, a, b=1)]: invoking with (5) binds {a: 5}, with (5, b=10) binds
    {a: 5, b: 10}, and with (c=5) fails. *)
Theorem binding_errors_characterised sig args kwargs :
  wf_signature sig → wf_kwargs kwargs → reaches_kwargs kwargs →
  (raises (callargs sig args kwargs) ↔
     unknown_keyword sig kwargs
     ∨ too_many_positionals sig args
     ∨ missing_value sig args kwargs
     ∨ value_given_twice sig args kwargs)
  ∧ (∀ self o ups ctx s e,
       tasks s !! self = Some o → run_signature (t_cls o) = sig →
       callargs sig args kwargs = Raise e →
       Task__call__ self args ups kwargs ctx s = (Raise e, s))
  ∧ callargs sig_a_b [VInt 5] [] = Ok [(KStr "a", VInt 5)]
  ∧ callargs sig_a_b [VInt 5] [("b", VInt 10)]
    = Ok [(KStr "a", VInt 5); (KStr "b", VInt 10)]
  ∧ raises (callargs sig_a_b [] [("c", VInt 5)]).
Proof.
  intros Hsig Hkw _. split_and!.
  - rewrite callargs_is_bind. by apply bind_from_raises.
  - intros self o ups ctx s e Ho <- He. by apply Task__call___binding_error with o.
  - reflexivity.
  - reflexivity.
  - by eexists.
Qed.

Lemma binding_errors_characterised_witness :
  wf_signature sig_a_b
  ∧ wf_kwargs [("a", VInt 6)]
  ∧ reaches_kwargs [("a", VInt 6)]
  ∧ (raises (callargs sig_a_b [VInt 5] [("a", VInt 6)]) ↔
       unknown_keyword sig_a_b [("a", VInt 6)]
       ∨ too_many_positionals sig_a_b [VInt 5]
       ∨ missing_value sig_a_b [VInt 5] [("a", VInt 6)]
       ∨ value_given_twice sig_a_b [VInt 5] [("a", VInt 6)]).
Proof.
  assert (Hsig : wf_signature sig_a_b).
  { split_and!.
    - repeat constructor; by right.
    - compute_done.
    - repeat constructor; done. }
  assert (Hkw : wf_kwargs [("a", VInt 6)]).
  { compute_done. }
  assert (Hown : reaches_kwargs [("a", VInt 6)]).
  { apply reaches_kwargs_check. reflexivity. }
  split_and!; [exact Hsig | exact Hkw | exact Hown |].
  exact (proj1 (binding_errors_characterised sig_a_b [VInt 5] [("a", VInt 6)]
                  Hsig Hkw Hown)).
Defined.

(** ** The theorems at work on the session *)

Lemma session_start_wf : store_wf session_start.
Proof. apply store_wf_check_correct. vm_compute. reflexivity. Qed.

Lemma session_store_wf : store_wf session_store.
Proof. apply store_wf_check_correct. vm_compute. reflexivity. Qed.

Lemma session_invoked_wf : store_wf session_invoked.
Proof. apply store_wf_check_correct. vm_compute. reflexivity. Qed.

Lemma session_ctx_wf s :
  is_Some (flows s !! 0) → is_Some (colls s !! 1) → ctx_wf session_ctx s.
Proof. intros Hf Hc. split; intros ? [= <-]; done. Qed.

Lemma owning_flow_resolution_witness :
  ∃ s', Task_set_dependencies 2 None None None None true empty_context session_store
        = (Ok 5, s')
        ∧ results s' !! 5 = Some (TaskResultObj 2 4)
        ∧ flows s' !! 4 = Some (FlowObj [2] []).
Proof.
  destruct (owning_flow_resolution 2 None None None true empty_context session_store)
    as (_ & _ & _ & _ & _ & _ & Hfresh).
  exact (Hfresh eq_refl).
Defined.

Lemma TaskResult_registers_task_idempotently_witness :
  ∃ f s2,
    flows session_store !! 0 = Some f
    ∧ Task__call__ 2 [VInt 1] None [] session_ctx session_store = (Ok 5, session_invoked)
    ∧ Task__call__ 2 [VInt 2] None [] session_ctx session_invoked = (Ok 7, s2)
    ∧ 5 ≠ 7
    ∧ results s2 !! 5 = Some (TaskResultObj 2 0)
    ∧ results s2 !! 7 = Some (TaskResultObj 2 0).
Proof.
  set (f := default (FlowObj [] []) (flows session_store !! 0)).
  set (s2 := (Task__call__ 2 [VInt 2] None [] session_ctx session_invoked).2).
  assert (Hf : flows session_store !! 0 = Some f) by (vm_compute; reflexivity).
  assert (H1 : Task__call__ 2 [VInt 1] None [] session_ctx session_store
               = (Ok 5, session_invoked)) by (vm_compute; reflexivity).
  assert (H2 : Task__call__ 2 [VInt 2] None [] session_ctx session_invoked = (Ok 7, s2))
    by (vm_compute; reflexivity).
  destruct (TaskResult_registers_task_idempotently 2 0 session_store f session_store_wf Hf)
    as [_ Htwice].
  destruct (Htwice session_ctx [VInt 1] None [] [VInt 2] None [] 5 session_invoked 7 s2
              eq_refl H1 H2) as (Hne & Hr1 & Hr2 & _).
  exists f, s2. split_and!; assumption.
Defined.

Lemma tags_and_group_snapshot_witness :
  let s := (alloc_task (blank_task TaskCls) session_start).2 in
  let s' := (Task__init__ 2 session_args session_ctx s).2 in
  Task__init__ 2 session_args session_ctx s = (Ok (), s')
  ∧ Task_tags s' 2 = Some (CSet {["fast"; "nightly"]})
  ∧ Task_group s' 2 = Some "etl"
  ∧ Task_tags (store_coll 1 (CList ["weekly"]) s') 2 = Task_tags s' 2.
Proof.
  intros s s'.
  assert (Hwf : store_wf s) by (apply store_wf_check_correct; vm_compute; reflexivity).
  assert (Hctx : ctx_wf session_ctx s).
  { apply session_ctx_wf; eexists; vm_compute; reflexivity. }
  assert (Hself : is_Some (tasks s !! 2)) by (eexists; vm_compute; reflexivity).
  assert (Hrun : Task__init__ 2 session_args session_ctx s = (Ok (), s'))
    by (vm_compute; reflexivity).
  destruct (tags_and_group_snapshot 2 session_args session_ctx s s' Hwf Hctx I Hself Hrun)
    as (Htags & Hgroup & Hframe).
  split_and!.
  - exact Hrun.
  - rewrite Htags. vm_compute. reflexivity.
  - exact Hgroup.
  - apply (Hframe 1 (CList ["weekly"])). eexists. vm_compute. reflexivity.
Defined.


Lemma getitem_uses_ambient_flow_witness :
  ∃ out s' fF,
    TaskResult__getitem__ 5 (IInt 2) other_flow_ctx session_invoked = (out, s')
    ∧ flows s' !! 0 = flows session_invoked !! 0
    ∧ flows s' !! 4 = Some fF
    ∧ 6 ∈ flow_tasks fF
    ∧ Edge (NTask 2) 6 (Some (KStr "task_result")) ∈ flow_edges fF.
Proof.
  set (parent := default (blank_task TaskCls) (tasks session_invoked !! 2)).
  assert (Hctx : ctx_wf other_flow_ctx session_invoked).
  { split; intros ? [= <-]. eexists. vm_compute. reflexivity. }
  assert (Hr : results session_invoked !! 5 = Some (TaskResultObj 2 0))
    by (vm_compute; reflexivity).
  assert (Hparent : tasks session_invoked !! tr_task (TaskResultObj 2 0) = Some parent)
    by (vm_compute; reflexivity).
  assert (Hname : getattr_name parent = Ok "Add") by (vm_compute; reflexivity).
  assert (Hflow : is_Some (flows session_invoked !! tr_flow (TaskResultObj 2 0)))
    by (eexists; vm_compute; reflexivity).
  destruct (getitem_uses_ambient_flow 5 (IInt 2) other_flow_ctx session_invoked
              (TaskResultObj 2 0) parent "Add" session_invoked_wf Hctx Hr Hparent Hname
              Hflow)
    as (out & s' & Hrun & Hambient & _).
  destruct (Hambient 4 eq_refl) as (Hsame & fF & HfF & Hg & He & _); [done|].
  exists out, s', fF. split_and!; assumption.
Defined.

(** ** Construction: what every class shares *)

(** A class other than [Parameter] has plain [name] and [slug]
    attributes, so its construction returns. *)
Lemma run_construct_plain cls a ctx s :
  store_wf s → ctx_wf ctx s → tags_wf (a_tags a) s → cls ≠ ParameterCls →
  construct_Task cls a ctx s
  = (Ok (next_ref s),
     store_registered (ctx_flow ctx) (next_ref s)
       (store_task (next_ref s)
          (initialised a ctx (store_next s)
             (with_slug (a_slug a)
                (with_name (str_or (a_name a) (class_name cls)) (blank_task cls))))
          (store_coll (S (next_ref s)) (own_tags a ctx s)
             (store_next (store_next s))))).
Proof.
  intros Hwf Hctx Htags Hcls.
  apply (run_construct_Task cls a ctx s
           (with_name (str_or (a_name a) (class_name cls)) (blank_task cls)));
    [done..| |]; by destruct cls.
Qed.

Lemma str_or_not_empty x d : d ≠ EmptyString → str_or x d ≠ EmptyString.
Proof. intros Hd. unfold str_or. destruct x as [s|]; [|done]. by case_decide. Qed.

Lemma getattr_name_plain o n :
  t_cls o ≠ ParameterCls → t_name o = Some n → getattr_name o = Ok n.
Proof. intros Hcls Hn. unfold getattr_name. rewrite Hn. by destruct (t_cls o). Qed.

(** ** Parameter: the empty name *)

(** X1.  [Parameter.__init__] passes the name both as name and as slug.  An
    empty name is replaced by the class name on line 51, so the slug that
    follows on line 52 differs from the name: the construction raises the
    AttributeError of the slug setter, whatever the default, the required
    flag, the context and the store.  The object is left with the name
    Parameter and none of the later attributes; no flow, collection or task
    result is touched. *)
Theorem Parameter_rejects_empty_name default required ctx s :
  ∃ s' o,
    construct_Parameter EmptyString default required ctx s
    = (Raise (AttributeError "Parameter slug must be the same as its name."), s')
    ∧ tasks s' !! next_ref s = Some o
    ∧ getattr_name o = Ok "Parameter"
    ∧ t_tags o = None
    ∧ flows s' = flows s
    ∧ colls s' = colls s
    ∧ results s' = results s.
Proof.
  unfold construct_Parameter.
  py_ok (run_alloc_task (blank_task ParameterCls) s).
  set (self := next_ref s). set (s1 := store_task self _ (store_next s)).
  unfold Parameter__init__.
  assert (Ho : tasks s1 !! self = Some (blank_task ParameterCls))
    by (simpl; by rewrite lookup_insert_eq).
  rewrite run_bind. py_ok (run_get_task _ _ _ Ho).
  set (required' := match default with VNone => required | _ => false end).
  set (o0 := with_parameter required' default (blank_task ParameterCls)).
  py_ok (run_put_task self o0 s1).
  set (s2 := store_task self o0 s1).
  assert (Ho2 : tasks s2 !! self = Some o0) by (simpl; by rewrite lookup_insert_eq).
  unfold Task__init__. py_ok (run_get_task _ _ _ Ho2).
  replace (setattr_name _ o0) with (Ok (with_name "Parameter" o0)) by done.
  py_ok (run_lift (Ok (with_name "Parameter" o0)) s2).
  py_ok (run_put_task self (with_name "Parameter" o0) s2).
  rewrite (Parameter_setattr_slug_other (with_name "Parameter" o0) "Parameter")
    by done.
  rewrite run_bind, run_lift.
  eexists _, _. split; [done|]. simpl. rewrite lookup_insert_eq. done.
Qed.

(** ** Task: the name and its display *)

(** X2.  Every task that [Task.__init__] builds has a name that is not empty:
    the name given, or the name of the class when none or an empty one is
    given (line 51).  Its display is [<Task: name>], for a subclass too. *)
Theorem constructed_task_is_named cls a ctx s :
  store_wf s → ctx_wf ctx s → tags_wf (a_tags a) s →
  cls ≠ ParameterCls → class_name cls ≠ EmptyString →
  ∃ self s' o n,
    construct_Task cls a ctx s = (Ok self, s')
    ∧ tasks s' !! self = Some o
    ∧ getattr_name o = Ok n
    ∧ n ≠ EmptyString
    ∧ (∀ given, a_name a = Some given → given ≠ EmptyString → n = given)
    ∧ (a_name a = None ∨ a_name a = Some EmptyString → n = class_name cls)
    ∧ Task__repr__ o = Ok ("<Task: " +:+ n +:+ ">").
Proof.
  intros Hwf Hctx Htags Hcls Hcn.
  eexists _, _, _, (str_or (a_name a) (class_name cls)).
  split; [by apply run_construct_plain|].
  rewrite store_registered_tasks. simpl tasks. rewrite lookup_insert_eq.
  assert (Hn : getattr_name
                 (initialised a ctx (store_next s)
                    (with_slug (a_slug a)
                       (with_name (str_or (a_name a) (class_name cls)) (blank_task cls))))
               = Ok (str_or (a_name a) (class_name cls))).
  { by apply getattr_name_plain. }
  split_and!.
  - done.
  - exact Hn.
  - by apply str_or_not_empty.
  - intros given -> Hgiven. unfold str_or. by rewrite decide_False.
  - intros [->| ->]; done.
  - unfold Task__repr__. by rewrite Hn.
Qed.

Lemma constructed_task_is_named_witness :
  ∃ self s' o,
    construct_Task (UserCls "Add" sig_a_b) default_args empty_context empty_store
    = (Ok self, s')
    ∧ tasks s' !! self = Some o
    ∧ Task__repr__ o = Ok "<Task: Add>".
Proof.
  destruct (constructed_task_is_named (UserCls "Add" sig_a_b) default_args
              empty_context empty_store store_wf_empty)
    as (self & s' & o & n & Hrun & Ho & _ & _ & _ & Hcls & Hrepr).
  - split; intros ? [=].
  - exact I.
  - intros [=].
  - intros [=].
  - exists self, s', o. split_and!; [exact Hrun | exact Ho |].
    rewrite Hrepr, (Hcls (or_introl eq_refl)). reflexivity.
Defined.

(** ** Descriptions *)

Lemma getattr_assigned_Some {A} attr (read : task_obj → A) o r :
  t_tags o = Some r → getattr_assigned attr read o = Ok (read o).
Proof. intros H. unfold getattr_assigned. by rewrite H. Qed.

(** The description of an object that has its name, its slug and the
    later attributes. *)
Lemma run_get_task_info tqn o name slug r :
  getattr_name o = Ok name → getattr_slug o = Ok slug → t_tags o = Some r →
  get_task_info tqn o
  = Ok [("name", IValue (VStr name));
        ("slug", IValue (str_or_None slug));
        ("type", IValue (VStr (tqn (t_cls o))));
        ("description", IValue (str_or_None (t_description o)));
        ("max_retries", IValue (VInt (t_max_retries o)));
        ("retry_delay", ITimedelta (t_retry_delay o));
        ("timeout", timedelta_or_None (t_timeout o));
        ("trigger", ITrigger (t_trigger o));
        ("propagate_skip", IValue (VBool (t_propagate_skip o)));
        ("environment", environment_or_None (t_environment o));
        ("checkpoint", IValue (VBool (t_checkpoint o)))].
Proof.
  intros Hn Hs Ht. unfold get_task_info. rewrite Hn, Hs. simpl.
  by rewrite !(getattr_assigned_Some _ _ _ _ Ht).
Qed.

(** X3.  The description of a task gives its constructor's arguments back:
    [info()] on a task built by [Task.__init__] returns, and holds the
    eleven entries of [get_task_info] in the order of lines 20-30, with the
    class name for a missing name and [all_successful] for a missing
    trigger.  The group and the tags are no part of it. *)
Theorem Task_info_after_construction tqn cls a ctx s :
  store_wf s → ctx_wf ctx s → tags_wf (a_tags a) s → cls ≠ ParameterCls →
  ∃ self s' o,
    construct_Task cls a ctx s = (Ok self, s')
    ∧ tasks s' !! self = Some o
    ∧ Task_info tqn o
      = Ok [("name", IValue (VStr (str_or (a_name a) (class_name cls))));
            ("slug", IValue (str_or_None (a_slug a)));
            ("type", IValue (VStr (tqn cls)));
            ("description", IValue (str_or_None (a_description a)));
            ("max_retries", IValue (VInt (a_max_retries a)));
            ("retry_delay", ITimedelta (a_retry_delay a));
            ("timeout", timedelta_or_None (a_timeout a));
            ("trigger", ITrigger (default all_successful (a_trigger a)));
            ("propagate_skip", IValue (VBool (a_propagate_skip a)));
            ("environment", environment_or_None (a_environment a));
            ("checkpoint", IValue (VBool (a_checkpoint a)))].
Proof.
  intros Hwf Hctx Htags Hcls.
  eexists _, _, _. split; [by apply run_construct_plain|].
  rewrite store_registered_tasks. simpl tasks. rewrite lookup_insert_eq.
  split; [done|]. unfold Task_info.
  erewrite run_get_task_info; [done| | |done].
  - by apply getattr_name_plain.
  - unfold getattr_slug. simpl. by destruct cls.
Qed.

Lemma Task_info_after_construction_witness :
  ∃ self s' o info,
    construct_Task TaskCls session_args session_ctx session_start = (Ok self, s')
    ∧ tasks s' !! self = Some o
    ∧ Task_info (λ _, "prefect.core.task.Task") o = Ok info
    ∧ dict_get "name" info = Some (IValue (VStr "Task"))
    ∧ dict_get "type" info = Some (IValue (VStr "prefect.core.task.Task"))
    ∧ dict_get "group" info = None.
Proof.
  destruct (Task_info_after_construction (λ _, "prefect.core.task.Task") TaskCls
              session_args session_ctx session_start session_start_wf)
    as (self & s' & o & Hrun & Ho & Hinfo).
  - apply session_ctx_wf; eexists; vm_compute; reflexivity.
  - exact I.
  - intros [=].
  - exists self, s', o. eexists.
    split_and!; [exact Hrun | exact Ho | exact Hinfo | reflexivity..].
Defined.

(** ** Parameter: description and evaluation after construction *)

(** The [required] flag a Parameter ends with (lines 175-178). *)
Lemma constructed_Parameter name default required ctx s :
  store_wf s → ctx_wf ctx s → name ≠ EmptyString →
  ∃ s' o,
    construct_Parameter name default required ctx s = (Ok (next_ref s), s')
    ∧ tasks s' !! next_ref s = Some o
    ∧ o = initialised (named_args (Some name) (Some name)) ctx (store_next s)
            (with_name name
               (with_parameter (match default with VNone => required | _ => false end)
                  default (blank_task ParameterCls))).
Proof.
  intros Hwf Hctx Hname. eexists _, _.
  split; [by apply run_construct_Parameter|].
  rewrite store_registered_tasks. simpl tasks. by rewrite lookup_insert_eq.
Qed.

(** X4.  The description of a Parameter extends that of a task and overrides
    none of its entries: [info()] on a Parameter built by
    [Parameter.__init__] returns the eleven entries of [get_task_info],
    where the name and the slug are both the parameter's name and the rest
    are the defaults of [Task.__init__], followed by [required] and
    [default]. *)
Theorem Parameter_info_after_construction tqn name default required ctx s :
  store_wf s → ctx_wf ctx s → name ≠ EmptyString →
  ∃ self s' o,
    construct_Parameter name default required ctx s = (Ok self, s')
    ∧ tasks s' !! self = Some o
    ∧ Parameter_info tqn o
      = Ok [("name", IValue (VStr name));
            ("slug", IValue (VStr name));
            ("type", IValue (VStr (tqn ParameterCls)));
            ("description", IValue VNone);
            ("max_retries", IValue (VInt 0));
            ("retry_delay", ITimedelta 60);
            ("timeout", IValue VNone);
            ("trigger", ITrigger all_successful);
            ("propagate_skip", IValue (VBool false));
            ("environment", IValue VNone);
            ("checkpoint", IValue (VBool false));
            ("required", IValue (VBool (match default with
                                         | VNone => required
                                         | _ => false
                                         end)));
            ("default", IValue default)].
Proof.
  intros Hwf Hctx Hname.
  destruct (constructed_Parameter name default required ctx s Hwf Hctx Hname)
    as (s' & o & Hrun & Ho & ->).
  eexists _, _, _. split_and!; [exact Hrun | exact Ho |].
  unfold Parameter_info, Task_info.
  erewrite run_get_task_info; [|reflexivity..].
  reflexivity.
Qed.

Lemma Parameter_info_after_construction_witness :
  ∃ self s' o info,
    construct_Parameter "n" (VInt 5) true empty_context empty_store = (Ok self, s')
    ∧ tasks s' !! self = Some o
    ∧ Parameter_info (λ _, "prefect.core.task.Parameter") o = Ok info
    ∧ dict_get "slug" info = Some (IValue (VStr "n"))
    ∧ dict_get "required" info = Some (IValue (VBool false))
    ∧ dict_get "default" info = Some (IValue (VInt 5)).
Proof.
  destruct (Parameter_info_after_construction (λ _, "prefect.core.task.Parameter")
              "n" (VInt 5) true empty_context empty_store store_wf_empty)
    as (self & s' & o & Hrun & Ho & Hinfo).
  - split; intros ? [=].
  - intros [=].
  - exists self, s', o. eexists.
    split_and!; [exact Hrun | exact Ho | exact Hinfo | reflexivity..].
Defined.

(** X5.  What a Parameter evaluates to, from its constructor's arguments: under
    any context at evaluation, the value of its name in the ambient parameter
    values when there is one; else the default, if a default other than None
    was given or the parameter was declared not required; else FAIL.  So a
    Parameter with a default never fails, whatever [required] said. *)
Theorem Parameter_run_after_construction name dflt required ctx s :
  store_wf s → ctx_wf ctx s → name ≠ EmptyString →
  ∃ self s' o,
    construct_Parameter name dflt required ctx s = (Ok self, s')
    ∧ tasks s' !! self = Some o
    ∧ ∀ ctx',
        let params := default ∅ (ctx_parameters ctx') in
        (∀ value, params !! name = Some value → Parameter_run o ctx' = Ok value)
        ∧ (params !! name = None → dflt ≠ VNone ∨ required = false →
             Parameter_run o ctx' = Ok dflt)
        ∧ (params !! name = None → dflt = VNone → required = true →
             Parameter_run o ctx'
             = Raise (FAIL ("Parameter " +:+ dquote +:+ name +:+ dquote
                            +:+ " was required but not provided."))).
Proof.
  intros Hwf Hctx Hname.
  destruct (constructed_Parameter name dflt required ctx s Hwf Hctx Hname)
    as (s' & o & Hrun & Ho & ->).
  eexists _, _, _. split_and!; [exact Hrun | exact Ho |].
  intros ctx' params. unfold Parameter_run. fold params. simpl.
  split_and!.
  - intros value ->. by rewrite andb_false_r.
  - intros -> [Hd| ->]; [by destruct dflt | by destruct dflt].
  - intros -> -> ->. done.
Qed.

Lemma Parameter_run_after_construction_witness :
  ∃ self s' o,
    construct_Parameter "n" (VInt 5) true empty_context empty_store = (Ok self, s')
    ∧ tasks s' !! self = Some o
    ∧ Parameter_run o empty_context = Ok (VInt 5)
    ∧ Parameter_run o (Context None None None (Some {["n" := VInt 7]})) = Ok (VInt 7).
Proof.
  destruct (Parameter_run_after_construction "n" (VInt 5) true empty_context empty_store
              store_wf_empty)
    as (self & s' & o & Hrun & Ho & Heval).
  - split; intros ? [=].
  - intros [=].
  - exists self, s', o. split_and!; [exact Hrun | exact Ho | |].
    + apply (Heval empty_context); [reflexivity | left; intros [=]].
    + apply (Heval (Context None None None (Some {["n" := VInt 7]}))). reflexivity.
Defined.

(** ** Construction and the objects that exist *)

(** The flows after a new task is added to the ambient one. *)
Lemma store_registered_flows_None task s : flows (store_registered None task s) = flows s.
Proof. done. Qed.





(** X7.  Lines 57-60: the tags of a task are a set of its own, built from the
    [tags] argument and the ambient tags, which are only read.  So
    constructing a task changes no collection and no task that existed
    before: the caller's tags and the ambient tags hold afterwards what they
    held before, and the task's set and the task itself are new objects. *)
Theorem construction_leaves_objects_alone cls a ctx s :
  store_wf s → ctx_wf ctx s → tags_wf (a_tags a) s → cls ≠ ParameterCls →
  ∃ self s' o tags,
    construct_Task cls a ctx s = (Ok self, s')
    ∧ tasks s' !! self = Some o
    ∧ t_tags o = Some tags
    ∧ colls s' !! tags = Some (own_tags a ctx s)
    ∧ tasks s !! self = None
    ∧ colls s !! tags = None
    ∧ (∀ r, is_Some (colls s !! r) → colls s' !! r = colls s !! r)
    ∧ (∀ r, is_Some (tasks s !! r) → tasks s' !! r = tasks s !! r).
Proof.
  intros Hwf Hctx Htags Hcls.
  eexists _, _, _, (S (next_ref s)). split; [by apply run_construct_plain|].
  rewrite store_registered_tasks, store_registered_colls. simpl tasks. simpl colls.
  rewrite !lookup_insert_eq. split_and!; [done..| | | |].
  - destruct (tasks s !! next_ref s) eqn:E; [|done].
    apply (store_wf_task_lt _ _ _ Hwf) in E. lia.
  - destruct (colls s !! S (next_ref s)) eqn:E; [|done].
    apply (store_wf_coll_lt _ _ _ Hwf) in E. lia.
  - intros r [c Hc]. apply (store_wf_coll_lt _ _ _ Hwf) in Hc.
    rewrite lookup_insert_ne by lia. done.
  - intros r [o Ho]. apply (store_wf_task_lt _ _ _ Hwf) in Ho.
    rewrite lookup_insert_ne by lia. done.
Qed.

Lemma construction_leaves_objects_alone_witness :
  ∃ self s' o tags,
    construct_Task TaskCls session_args session_ctx session_start = (Ok self, s')
    ∧ tasks s' !! self = Some o
    ∧ t_tags o = Some tags
    ∧ colls s' !! tags = Some (CSet {["fast"; "nightly"]})
    ∧ colls s' !! 1 = Some (CList ["nightly"]).
Proof.
  destruct (construction_leaves_objects_alone TaskCls session_args session_ctx
              session_start session_start_wf)
    as (self & s' & o & tags & Hrun & Ho & Htags & Hown & _ & _ & Hcolls & _).
  - apply session_ctx_wf; eexists; vm_compute; reflexivity.
  - exact I.
  - intros [=].
  - exists self, s', o, tags. split_and!; [exact Hrun | exact Ho | exact Htags | |].
    + rewrite Hown. vm_compute. reflexivity.
    + rewrite (Hcolls 1); [vm_compute; reflexivity | eexists; vm_compute; reflexivity].
Defined.

(** ** The bound mapping and the inputs *)

Section BoundKeys.
Context {K V : Type} `{EqDecision K}.
Implicit Types (k : K) (v : V) (d : list (K * V)).

Lemma dict_set_NoDup k v d : NoDup (dict_keys d) → NoDup (dict_keys (dict_set k v d)).
Proof.
  unfold dict_keys. induction d as [|[k0 v0] d IH]; simpl; intros Hnd.
  - apply NoDup_singleton.
  - apply NoDup_cons in Hnd as [Hnotin Hnd].
    destruct (decide (k0 = k)) as [->|Hne]; rewrite fmap_cons; simpl.
    + by apply NoDup_cons.
    + apply NoDup_cons. split; [|by apply IH].
      intros [->|Hin]%(dict_keys_set k v d k0); done.
Qed.

Lemma dict_set_fresh k v d : k ∉ dict_keys d → dict_set k v d = d ++ [(k, v)].
Proof.
  unfold dict_keys. induction d as [|[k0 v0] d IH]; simpl; intros Hk; [done|].
  apply not_elem_of_cons in Hk as [Hne Hk].
  rewrite decide_False by done. by rewrite IH.
Qed.

Lemma dict_get_elem_of k v d : NoDup (dict_keys d) → (k, v) ∈ d → dict_get k d = Some v.
Proof.
  unfold dict_keys. induction d as [|[k0 v0] d IH]; simpl; intros Hnd Hin.
  - by apply elem_of_nil in Hin.
  - apply NoDup_cons in Hnd as [Hnotin Hnd].
    apply elem_of_cons in Hin as [[= <- <-]|Hin]; [by rewrite decide_True|].
    rewrite decide_False; [by apply IH|].
    intros ->. apply Hnotin. by apply (list_elem_of_fmap_2 fst _ (k, v)).
Qed.

Lemma dict_del_Permutation k v d : dict_get k d = Some v → d ≡ₚ (k, v) :: dict_del k d.
Proof.
  induction d as [|[k0 v0] d IH]; simpl; [done|].
  destruct (decide (k0 = k)) as [->|Hne].
  - by intros [= ->].
  - intros Hget. rewrite (IH Hget) at 1. apply Permutation_swap.
Qed.
End BoundKeys.

(** A key of the bound mapping that is the name of a parameter with the
    property [P]. *)
Lemma named_keys_set (P : string → Prop) n v (d : list (pykey * pyval)) :
  P n →
  Forall (λ k, ∃ n, k = KStr n ∧ P n) (dict_keys d) →
  Forall (λ k, ∃ n, k = KStr n ∧ P n) (dict_keys (dict_set (KStr n) v d)).
Proof.
  rewrite !Forall_forall. intros Hn Hd k Hk.
  apply dict_keys_set in Hk as [->|Hk]; eauto.
Qed.

Lemma bind_positional_named_keys (P : string → Prop) ps args kwargs acc r :
  (∀ p, p ∈ ps → P (p_name p)) →
  Forall (λ k, ∃ n, k = KStr n ∧ P n) (dict_keys acc) → NoDup (dict_keys acc) →
  bind_positional ps args kwargs acc = Ok r →
  Forall (λ k, ∃ n, k = KStr n ∧ P n) (dict_keys r.1) ∧ NoDup (dict_keys r.1)
  ∧ ∀ p, p ∈ r.2 → P (p_name p).
Proof.
  revert ps acc. induction args as [|a args IH]; intros [|p ps] acc Hps Hacc Hnd; simpl;
    intros Hr; repeat case_match; simplify_eq; simpl.
  - done.
  - split_and!; [done..|]. intros q Hq. apply Hps. by right.
  - done.
  - done.
  - split_and!; [apply named_keys_set; [apply Hps; by left|done]
                |by apply dict_set_NoDup|].
    intros q Hq. apply Hps. by right.
  - apply IH in Hr; [done| | |].
    + intros q Hq. apply Hps. by right.
    + apply named_keys_set; [apply Hps; by left|done].
    + by apply dict_set_NoDup.
Qed.

Lemma bind_keywords_named_keys (P : string → Prop) ps kwargs acc kp r :
  (∀ p, p ∈ ps → P (p_name p)) → (∀ p, kp = Some p → P (p_name p)) →
  Forall (λ k, ∃ n, k = KStr n ∧ P n) (dict_keys acc) → NoDup (dict_keys acc) →
  bind_keywords ps kwargs acc kp = Ok r →
  Forall (λ k, ∃ n, k = KStr n ∧ P n) (dict_keys r.1.1) ∧ NoDup (dict_keys r.1.1)
  ∧ ∀ p, r.2 = Some p → P (p_name p).
Proof.
  revert kwargs acc kp. induction ps as [|p ps IH]; intros kwargs acc kp Hps Hkp Hacc Hnd;
    simpl; intros Hr.
  - by simplify_eq.
  - assert (Hps' : ∀ q, q ∈ ps → P (p_name q)) by (intros q Hq; apply Hps; by right).
    assert (Hp : P (p_name p)) by (apply Hps; by left).
    repeat case_match; simplify_eq; try (by eapply IH).
    + eapply IH; [done| |done..]. by intros q [= <-].
    + eapply IH; [done..|by apply named_keys_set|by apply dict_set_NoDup|done].
Qed.

Lemma bind_named_keys sig args kwargs d :
  bind sig args kwargs = Ok d →
  NoDup (dict_keys d)
  ∧ Forall (λ k, ∃ n, k = KStr n ∧ n ∈ p_name <$> sig) (dict_keys d).
Proof.
  unfold bind, bind_from. intros Hb.
  destruct (bind_positional sig args kwargs []) as [r1|] eqn:E1; [|done].
  apply (bind_positional_named_keys (λ n, n ∈ p_name <$> sig)) in E1
    as (Hk1 & Hnd1 & Hps1); [|by intros p Hp; apply list_elem_of_fmap_2
                              |by constructor|apply NoDup_nil_2].
  simpl in Hb.
  destruct (bind_keywords r1.2 kwargs r1.1 None) as [[[d2 kw2] kp2]|] eqn:E2; [|done].
  apply (bind_keywords_named_keys (λ n, n ∈ p_name <$> sig)) in E2
    as (Hk2 & Hnd2 & Hkp2); [|done..]. simpl in *.
  destruct kw2 as [|[k ?] ?]; [by simplify_eq|].
  destruct kp2 as [q|]; simplify_eq.
  split; [by apply dict_set_NoDup|]. apply named_keys_set; [|done]. by apply Hkp2.
Qed.

(** X8.  Every key of the mapping that [__call__] hands to the flow is the name
    of a parameter of the work function, one of [inputs()], and no name comes
    twice.  A keyword that only the overflow slot takes is therefore never a
    key of its own. *)
Theorem bound_keys_are_inputs o args kwargs d :
  callargs (run_signature (t_cls o)) args kwargs = Ok d →
  NoDup (dict_keys d)
  ∧ ∀ k, k ∈ dict_keys d → ∃ n, k = KStr n ∧ n ∈ Task_inputs o.
Proof.
  rewrite callargs_is_bind. intros [Hnd Hkeys]%bind_named_keys.
  split; [done|]. by apply Forall_forall.
Qed.

Lemma bound_keys_are_inputs_witness :
  let o := blank_task (UserCls "Spread" sig_a_rest) in
  let d := [(KStr "a", VInt 1);
            (KStr "rest", VDict [(KStr "x", VInt 2); (KStr "y", VInt 3)])] in
  callargs (run_signature (t_cls o)) [] [("a", VInt 1); ("x", VInt 2); ("y", VInt 3)]
  = Ok d
  ∧ Task_inputs o = ["a"; "rest"]
  ∧ ∀ k, k ∈ dict_keys d → ∃ n, k = KStr n ∧ n ∈ Task_inputs o.
Proof.
  intros o d.
  assert (Hc : callargs (run_signature (t_cls o)) []
                 [("a", VInt 1); ("x", VInt 2); ("y", VInt 3)] = Ok d) by reflexivity.
  split_and!; [exact Hc | reflexivity |].
  exact (proj2 (bound_keys_are_inputs o [] _ d Hc)).
Defined.

(** ** Positional and keyword calls *)

Lemma kwargs_as_dict_app kw1 kw2 :
  kwargs_as_dict (kw1 ++ kw2) = kwargs_as_dict kw1 ++ kwargs_as_dict kw2.
Proof. unfold kwargs_as_dict. apply map_app. Qed.

Lemma kwargs_as_dict_keys kw : dict_keys (kwargs_as_dict kw) = KStr <$> dict_keys kw.
Proof.
  unfold dict_keys, kwargs_as_dict. induction kw as [|[k v] kw IH]; [done|].
  simpl. by f_equal.
Qed.

Lemma zip_keys {A B} (ks : list A) (vs : list B) :
  length vs = length ks → dict_keys (zip ks vs) = ks.
Proof. intros Hlen. unfold dict_keys. apply fst_zip. lia. Qed.

(** The first loop of [_bind] on parameters that take their value by
    position: each gets the value at its position, and the parameters left
    over, which the keywords name, go to the second loop. *)
Lemma bind_positional_plain ps : ∀ vs rest kw acc,
  Forall (λ p, p_kind p = POSITIONAL_OR_KEYWORD) (ps ++ rest) →
  length vs = length ps →
  (∀ p, p ∈ ps → p_name p ∉ dict_keys kw) →
  (∀ p, p ∈ rest → p_name p ∈ dict_keys kw) →
  NoDup (p_name <$> ps) →
  (∀ p, p ∈ ps → KStr (p_name p) ∉ dict_keys acc) →
  bind_positional (ps ++ rest) vs kw acc
  = Ok (acc ++ kwargs_as_dict (zip (p_name <$> ps) vs), rest).
Proof.
  induction ps as [|p ps IH]; intros [|v vs] rest kw acc Hkind Hlen Hpos Hrest Hnd Hacc;
    simplify_eq/=.
  - rewrite app_nil_r. destruct rest as [|q rest]; [done|]. simpl.
    apply Forall_cons in Hkind as [Hq _]. rewrite Hq. simpl.
    by rewrite dict_mem_elem_of, bool_decide_eq_true_2 by (apply Hrest; by left).
  - apply Forall_cons in Hkind as [Hp Hkind]. rewrite Hp. simpl.
    rewrite dict_mem_elem_of, bool_decide_eq_false_2 by (apply Hpos; by left). simpl.
    apply NoDup_cons in Hnd as [Hp' Hnd].
    rewrite dict_set_fresh by (apply Hacc; by left).
    rewrite IH; [by rewrite <- app_assoc|done|done|..|done|].
    + intros q Hq. apply Hpos. by right.
    + done.
    + intros q Hq. unfold dict_keys. rewrite fmap_app, elem_of_app. simpl.
      intros [Hin|[= Heq]%list_elem_of_singleton].
      * by apply (Hacc q); [right|].
      * apply Hp'. rewrite <- Heq. by apply list_elem_of_fmap_2.
Qed.

(** The second loop of [_bind] on parameters that the keywords name, in
    any order: each takes the value of its name, in the order of the
    signature, and no keyword is left. *)
Lemma bind_keywords_plain ps : ∀ vs kw acc,
  Forall (λ p, p_kind p = POSITIONAL_OR_KEYWORD) ps →
  NoDup (p_name <$> ps) →
  length vs = length ps →
  kw ≡ₚ zip (p_name <$> ps) vs →
  (∀ p, p ∈ ps → KStr (p_name p) ∉ dict_keys acc) →
  bind_keywords ps kw acc None
  = Ok (acc ++ kwargs_as_dict (zip (p_name <$> ps) vs), [], None).
Proof.
  induction ps as [|p ps IH]; intros [|v vs] kw acc Hkind Hnd Hlen Hkw Hacc;
    simplify_eq/=.
  - apply Permutation_nil_r in Hkw as ->. by rewrite app_nil_r.
  - apply Forall_cons in Hkind as [Hp Hkind]. rewrite Hp. simpl.
    assert (Hkeys : NoDup (dict_keys kw)).
    { unfold dict_keys. rewrite Hkw, fmap_cons, fst_zip by (rewrite length_fmap; lia).
      exact Hnd. }
    assert (Hget : dict_get (p_name p) kw = Some v).
    { apply dict_get_elem_of; [done|]. rewrite Hkw. by left. }
    unfold dict_pop. rewrite Hget.
    apply NoDup_cons in Hnd as [Hp' Hnd].
    rewrite dict_set_fresh by (apply Hacc; by left).
    rewrite (IH vs); [by rewrite <- app_assoc|done..| |].
    + apply (Permutation_cons_inv (a := (p_name p, v))).
      by rewrite <- (dict_del_Permutation _ _ _ Hget).
    + intros q Hq. unfold dict_keys. rewrite fmap_app, elem_of_app. simpl.
      intros [Hin|[= Heq]%list_elem_of_singleton].
      * by apply (Hacc q); [right|].
      * apply Hp'. rewrite <- Heq. by apply list_elem_of_fmap_2.
Qed.

(** X9.  For a work function whose parameters are all plain (positional or
    keyword), a call that gives every parameter one value binds the same
    mapping however the values are passed: the first parameters by position
    and the others by keyword, in any order of the keywords, or all by
    position.  The mapping lists the parameters in the order of the
    declaration, each with its value.  The parameters passed by keyword are
    not named [self] or [upstream_tasks]: such keywords do not reach the
    binding. *)
Theorem positional_and_keyword_calls_agree ps1 ps2 vs1 vs2 kwargs :
  Forall (λ p, p_kind p = POSITIONAL_OR_KEYWORD) (ps1 ++ ps2) →
  NoDup (p_name <$> ps1 ++ ps2) →
  length vs1 = length ps1 → length vs2 = length ps2 →
  kwargs ≡ₚ zip (p_name <$> ps2) vs2 →
  reaches_kwargs kwargs →
  callargs (ps1 ++ ps2) vs1 kwargs
  = Ok (kwargs_as_dict (zip (p_name <$> ps1 ++ ps2) (vs1 ++ vs2)))
  ∧ callargs (ps1 ++ ps2) (vs1 ++ vs2) []
    = Ok (kwargs_as_dict (zip (p_name <$> ps1 ++ ps2) (vs1 ++ vs2))).
Proof.
  intros Hkind Hnd Hlen1 Hlen2 Hkw _.
  assert (Hzip : zip (p_name <$> ps1 ++ ps2) (vs1 ++ vs2)
                 = zip (p_name <$> ps1) vs1 ++ zip (p_name <$> ps2) vs2).
  { rewrite fmap_app. apply zip_with_app. by rewrite length_fmap. }
  assert (Hkeys : dict_keys kwargs ≡ₚ p_name <$> ps2).
  { unfold dict_keys. rewrite Hkw. fold (dict_keys (zip (p_name <$> ps2) vs2)).
    by rewrite zip_keys by (by rewrite length_fmap). }
  rewrite fmap_app in Hnd. apply NoDup_app in Hnd as (Hnd1 & Hdisj & Hnd2).
  rewrite !callargs_is_bind. unfold bind, bind_from. split.
  - rewrite (bind_positional_plain ps1 vs1 ps2 kwargs []); [|done..| | |done|].
    + simpl. apply Forall_app in Hkind as [_ Hkind2].
      rewrite (bind_keywords_plain ps2 vs2);
        [by rewrite Hzip, kwargs_as_dict_app|done..|].
      intros p Hp. rewrite kwargs_as_dict_keys, zip_keys by (by rewrite length_fmap).
      intros (n & [= Hn] & Hin)%list_elem_of_fmap.
      apply (Hdisj (p_name p)); [by rewrite Hn|by apply list_elem_of_fmap_2].
    + intros p Hp. rewrite Hkeys. apply Hdisj. by apply list_elem_of_fmap_2.
    + intros p Hp. rewrite Hkeys. by apply list_elem_of_fmap_2.
    + intros p Hp. apply not_elem_of_nil.
  - rewrite <- (app_nil_r (ps1 ++ ps2)) at 1.
    rewrite (bind_positional_plain (ps1 ++ ps2) (vs1 ++ vs2) [] [] []).
    + done.
    + by rewrite app_nil_r.
    + rewrite !length_app. lia.
    + intros p _. apply not_elem_of_nil.
    + by intros p ?%elem_of_nil.
    + rewrite fmap_app. apply NoDup_app. done.
    + intros p _. apply not_elem_of_nil.
Qed.

Lemma positional_and_keyword_calls_agree_witness :
  callargs sig_a_b [VInt 5] [("b", VInt 10)]
  = Ok [(KStr "a", VInt 5); (KStr "b", VInt 10)]
  ∧ callargs sig_a_b [] [("b", VInt 10); ("a", VInt 5)]
    = Ok [(KStr "a", VInt 5); (KStr "b", VInt 10)]
  ∧ callargs sig_a_b [VInt 5; VInt 10] []
    = Ok [(KStr "a", VInt 5); (KStr "b", VInt 10)].
Proof.
  assert (Hkind : Forall (λ p, p_kind p = POSITIONAL_OR_KEYWORD) sig_a_b)
    by (repeat constructor).
  assert (Hnd : NoDup (p_name <$> sig_a_b)) by compute_done.
  split_and!.
  - apply (positional_and_keyword_calls_agree
             [Param "a" POSITIONAL_OR_KEYWORD false] [Param "b" POSITIONAL_OR_KEYWORD true]
             [VInt 5] [VInt 10] [("b", VInt 10)] Hkind Hnd eq_refl eq_refl).
    + reflexivity.
    + apply reaches_kwargs_check. reflexivity.
  - apply (positional_and_keyword_calls_agree [] sig_a_b [] [VInt 5; VInt 10]
             [("b", VInt 10); ("a", VInt 5)] Hkind Hnd eq_refl eq_refl).
    + apply Permutation_swap.
    + apply reaches_kwargs_check. reflexivity.
  - apply (positional_and_keyword_calls_agree sig_a_b [] [VInt 5; VInt 10] [] []).
    + by rewrite app_nil_r.
    + by rewrite app_nil_r.
    + reflexivity.
    + reflexivity.
    + reflexivity.
    + apply reaches_kwargs_check. reflexivity.
Defined.

(** ** Work functions without parameters *)

(** X10.  [Task.run] and [Parameter.run] declare no parameter (lines 84 and
    208).  A task of either class is invoked with no argument: the bound
    mapping is empty; any positional value, and else any keyword that
    reaches the binding, makes the invocation raise a TypeError before the
    store is touched. *)
Theorem plain_task_takes_no_arguments self o args ups kwargs ctx s :
  t_cls o = TaskCls ∨ t_cls o = ParameterCls →
  tasks s !! self = Some o →
  reaches_kwargs kwargs →
  Task_inputs o = []
  ∧ callargs (run_signature (t_cls o)) [] [] = Ok []
  ∧ (args ≠ [] →
       Task__call__ self args ups kwargs ctx s = (Raise too_many_positional, s))
  ∧ (args = [] → kwargs ≠ [] →
       ∃ msg, Task__call__ self args ups kwargs ctx s = (Raise (TypeError msg), s)).
Proof.
  intros Hcls Ho _.
  assert (Hsig : run_signature (t_cls o) = []) by (by destruct Hcls as [-> | ->]).
  unfold Task_inputs. rewrite Hsig. split_and!; [done..| |].
  - intros Hargs. apply Task__call___binding_error with o; [done|].
    rewrite Hsig. by destruct args.
  - intros -> Hkw. destruct kwargs as [|[k v] kw]; [done|].
    eexists. apply Task__call___binding_error with o; [done|].
    rewrite Hsig. reflexivity.
Qed.

Lemma plain_task_takes_no_arguments_witness :
  let o := with_name "n" (blank_task ParameterCls) in
  let s := store_task 0 o (store_next empty_store) in
  Task__call__ 0 [VInt 1] None [] empty_context s = (Raise too_many_positional, s)
  ∧ ∃ msg, Task__call__ 0 [] None [("x", VInt 1)] empty_context s
           = (Raise (TypeError msg), s).
Proof.
  intros o s.
  destruct (plain_task_takes_no_arguments 0 o [VInt 1] None [] empty_context s
              (or_intror eq_refl) eq_refl) as (_ & _ & Hpos & _).
  { apply reaches_kwargs_check. reflexivity. }
  destruct (plain_task_takes_no_arguments 0 o [] None [("x", VInt 1)] empty_context s
              (or_intror eq_refl) eq_refl) as (_ & _ & _ & Hkw).
  { apply reaches_kwargs_check. reflexivity. }
  split; [by apply Hpos | by apply Hkw].
Defined.

(** ** TaskResult: a result with no flow given *)

Lemma run_TaskResult__init___None task s :
  TaskResult__init__ task None s
  = (Ok (S (next_ref s)),
     store_result (S (next_ref s)) (TaskResultObj task (next_ref s))
       (store_next
          (store_flow (next_ref s) (FlowObj [task] []) (store_next s)))).
Proof.
  unfold TaskResult__init__. py_ok (run_construct_Flow s).
  set (s1 := store_flow (next_ref s) (FlowObj [] []) (store_next s)).
  assert (Hf : flows s1 !! next_ref s = Some (FlowObj [] []))
    by (simpl; by rewrite lookup_insert_eq).
  py_ok (run_Flow_add_task (next_ref s) task s1 _ Hf).
  rewrite run_alloc_result. subst s1. unfold store_flow. simpl.
  by rewrite insert_insert_eq.
Qed.

(** X11.  Lines 228-229: a TaskResult made with no flow gets a flow of its own,
    new for each result, whose only node is the task and which has no edge.
    Two results made this way for one task are bound to two distinct flows,
    and no flow that existed before is changed. *)
Theorem TaskResult_without_flow task s :
  let f1 := next_ref s in
  let r1 := S f1 in
  let f2 := S r1 in
  let r2 := S f2 in
  ∃ s1 s2,
    TaskResult__init__ task None s = (Ok r1, s1)
    ∧ TaskResult__init__ task None s1 = (Ok r2, s2)
    ∧ results s2 !! r1 = Some (TaskResultObj task f1)
    ∧ results s2 !! r2 = Some (TaskResultObj task f2)
    ∧ flows s2 !! f1 = Some (FlowObj [task] [])
    ∧ flows s2 !! f2 = Some (FlowObj [task] [])
    ∧ flows s2 = <[f2 := FlowObj [task] []]> (<[f1 := FlowObj [task] []]> (flows s)).
Proof.
  intros f1 r1 f2 r2. eexists _, _.
  split; [apply run_TaskResult__init___None|].
  split; [apply run_TaskResult__init___None|].
  simpl. subst f1 r1 f2 r2.
  rewrite lookup_insert_ne by lia. rewrite !lookup_insert_eq.
  rewrite lookup_insert_ne by lia. rewrite !lookup_insert_eq. done.
Qed.

(** ** TaskResult: dependencies *)

(** X12.  Lines 247-252: dependencies declared through a TaskResult go to
    the flow the result is bound to, for the task it is bound to; the context
    is not consulted, no flow is constructed and no [validate] is passed, so
    the flow's own default decides, whatever it is.  When that default is
    off, or the flow with the task and the new edges in it passes the flow's
    validation, the call returns nothing: the flow holds the task and has
    gained the edges, every other flow is as it was, and no task or
    collection is changed.  When the default is on and the flow rejects the
    graph, the error is the flow's. *)
Theorem TaskResult_set_dependencies_own_flow validate self ups downs kw s x f kws :
  results s !! self = Some x →
  flows s !! tr_flow x = Some f →
  keyword_edges s (tr_task x) (default [] kw) = Ok kws →
  let es := explicit_edges (tr_task x) ups downs ++ kws in
  let f1 := flow_with_task (tr_task x) (flow_with_edges es f) in
  let s1 := store_flow (tr_flow x) f1 s in
  (validate = false ∨ flow_valid s1 f1 = true →
     ∃ s', TaskResult_set_dependencies validate self ups downs kw s = (Ok (), s')
           ∧ flows s' = <[tr_flow x := f1]> (flows s)
           ∧ tr_task x ∈ flow_tasks f1
           ∧ flow_edges f1 = flow_edges f ++ es
           ∧ tasks s' = tasks s
           ∧ colls s' = colls s)
  ∧ (validate = true → flow_valid s1 f1 = false →
       TaskResult_set_dependencies validate self ups downs kw s
       = (Raise invalid_flow, s1)).
Proof.
  intros Hx Hf Hkws es f1 s1. unfold TaskResult_set_dependencies.
  py_ok (run_get_result _ _ _ Hx).
  rewrite run_bind, (run_Flow_set_dependencies _ _ _ _ _ _ _ _ _ Hf Hkws).
  cbv zeta. fold es. fold f1. fold s1. split.
  - intros Hok.
    assert (validate && negb (flow_valid s1 f1) = false) as ->.
    { destruct Hok as [-> | ->]; [done|]. by rewrite andb_false_r. }
    eexists. split; [done|]. simpl.
    split_and!; [done|apply flow_with_task_elem| |done..].
    subst f1. by rewrite flow_with_task_edges.
  - intros -> ->. done.
Qed.

Lemma TaskResult_set_dependencies_own_flow_witness :
  ∃ s',
    TaskResult_set_dependencies true 5 None None (Some [(KStr "b", VInt 3)])
      session_invoked
    = (Ok (), s')
    ∧ flows s'
      = <[0 := FlowObj [2] [Edge (NConstant (VInt 1)) 2 (Some (KStr "a"));
                            Edge (NConstant (VInt 3)) 2 (Some (KStr "b"))]]>
          (flows session_invoked).
Proof.
  destruct (TaskResult_set_dependencies_own_flow true 5 None None
              (Some [(KStr "b", VInt 3)]) session_invoked (TaskResultObj 2 0)
              (FlowObj [2] [Edge (NConstant (VInt 1)) 2 (Some (KStr "a"))])
              [Edge (NConstant (VInt 3)) 2 (Some (KStr "b"))])
    as [Hok _]; [vm_compute; reflexivity..|].
  destruct Hok as (s' & Hrun & Hflows & _); [right; vm_compute; reflexivity|].
  exists s'. split; [exact Hrun | exact Hflows].
Defined.

(** ** Invocation: what it leaves alone *)

(** The flow's edge creation writes flows and task results only. *)
Lemma Flow_set_dependencies_frame self task ups downs kw validate s out s' :
  Flow_set_dependencies self task ups downs kw validate s = (out, s') →
  tasks s' = tasks s ∧ colls s' = colls s.
Proof.
  unfold Flow_set_dependencies, TaskResult__init__, Flow_add_task, alloc_result,
    fresh_ref, put_result, put_flow, get_flow, lookup_obj, get_store, lift, raise.
  unfold mbind, Py_bind, mret, Py_ret. intros Hrun.
  repeat (case_match; simplify_eq/=); done.
Qed.

(** X13.  Invoking a task changes neither the task nor any other task, nor any
    tag collection, whether the invocation returns or raises: it writes flows
    and task results only.  Line 121 evaluates [Flow()] before it looks the
    flow up in the context, so an invocation under an ambient flow that
    returns leaves a new, empty flow behind, which nothing refers to; the
    TaskResult it returns is a new object. *)
Theorem invocation_effects self args ups kwargs ctx s out s' :
  Task__call__ self args ups kwargs ctx s = (out, s') →
  tasks s' = tasks s
  ∧ colls s' = colls s
  ∧ ∀ r flow, out = Ok r → store_wf s → ctx_flow ctx = Some flow →
      is_Some (flows s !! flow) →
      flows s !! next_ref s = None
      ∧ flows s' !! next_ref s = Some (FlowObj [] [])
      ∧ results s !! r = None
      ∧ results s' !! r = Some (TaskResultObj self flow).
Proof.
  intros Hrun. split_and!.
  - unfold Task__call__ in Hrun. rewrite run_bind in Hrun.
    unfold get_task, lookup_obj in Hrun.
    destruct (tasks s !! self) as [o|]; [|by simplify_eq].
    rewrite run_bind, run_lift in Hrun.
    destruct (callargs _ args kwargs) as [c|e]; [|by simplify_eq].
    rewrite (run_bind_ok _ _ _ _ _ (run_construct_Flow s)) in Hrun. cbv beta in Hrun.
    rewrite run_Task_set_dependencies_explicit in Hrun.
    by apply Flow_set_dependencies_frame in Hrun as [-> _].
  - unfold Task__call__ in Hrun. rewrite run_bind in Hrun.
    unfold get_task, lookup_obj in Hrun.
    destruct (tasks s !! self) as [o|]; [|by simplify_eq].
    rewrite run_bind, run_lift in Hrun.
    destruct (callargs _ args kwargs) as [c|e]; [|by simplify_eq].
    rewrite (run_bind_ok _ _ _ _ _ (run_construct_Flow s)) in Hrun. cbv beta in Hrun.
    rewrite run_Task_set_dependencies_explicit in Hrun.
    by apply Flow_set_dependencies_frame in Hrun as [_ ->].
  - intros r flow -> Hwf Hctx [f Hf].
    destruct (Task__call___ambient _ _ _ _ _ _ _ _ _ _ Hwf Hctx Hf Hrun)
      as (es & -> & _ & Hres & _ & _ & Hflows).
    rewrite Hres, Hflows. rewrite lookup_insert_eq.
    assert (Hlt : flow < next_ref s) by (by apply (store_wf_flow_lt _ _ _ Hwf) in Hf).
    rewrite lookup_insert_ne by lia. rewrite lookup_insert_eq.
    split_and!; [| done | | done].
    + destruct (flows s !! next_ref s) eqn:E; [|done].
      apply (store_wf_flow_lt _ _ _ Hwf) in E. lia.
    + destruct (results s !! S (next_ref s)) eqn:E; [|done].
      apply (store_wf_result_lt _ _ _ Hwf) in E. lia.
Qed.

Lemma invocation_effects_witness :
  Task__call__ 2 [VInt 1] None [] session_ctx session_store = (Ok 5, session_invoked)
  ∧ tasks session_invoked = tasks session_store
  ∧ colls session_invoked = colls session_store
  ∧ flows session_invoked !! 4 = Some (FlowObj [] []).
Proof.
  assert (Hrun : Task__call__ 2 [VInt 1] None [] session_ctx session_store
                 = (Ok 5, session_invoked)) by (vm_compute; reflexivity).
  destruct (invocation_effects 2 [VInt 1] None [] session_ctx session_store (Ok 5)
              session_invoked Hrun) as (Htasks & Hcolls & Hflow).
  destruct (Hflow 5 0 eq_refl session_store_wf eq_refl) as (_ & Hnew & _).
  { eexists. vm_compute. reflexivity. }
  split_and!; [exact Hrun | exact Htasks | exact Hcolls | exact Hnew].
Defined.

(** ** Task: the tags argument *)

(** X14.  Lines 57-59: a string given as [tags] is one tag, not the collection
    of its characters; with no [tags] the task has the ambient tags alone,
    and with neither it has an empty set. *)
Theorem string_tags_is_one_tag cls a ctx s :
  store_wf s → ctx_wf ctx s → tags_wf (a_tags a) s → cls ≠ ParameterCls →
  ∃ self s',
    construct_Task cls a ctx s = (Ok self, s')
    ∧ (∀ tag, a_tags a = TagsStr tag →
         Task_tags s' self
         = Some (CSet ({[tag]} ∪ list_to_set (ambient_tags ctx s)))
         ∧ (ctx_tags ctx = None → Task_tags s' self = Some (CSet {[tag]})))
    ∧ (a_tags a = TagsNone →
         Task_tags s' self = Some (CSet (list_to_set (ambient_tags ctx s)))
         ∧ (ctx_tags ctx = None → Task_tags s' self = Some (CSet ∅))).
Proof.
  intros Hwf Hctx Htags Hcls.
  eexists _, _. split; [by apply run_construct_plain|].
  unfold Task_tags. rewrite store_registered_tasks, store_registered_colls.
  simpl tasks. simpl colls. rewrite lookup_insert_eq. simpl.
  rewrite lookup_insert_eq. unfold own_tags, ambient_tags. split.
  - intros tag ->. simpl. split.
    + apply (f_equal (λ x, Some (CSet x))). set_solver.
    + intros ->. apply (f_equal (λ x, Some (CSet x))). set_solver.
  - intros ->. simpl. split.
    + apply (f_equal (λ x, Some (CSet x))). set_solver.
    + intros ->. apply (f_equal (λ x, Some (CSet x))). set_solver.
Qed.

Lemma string_tags_is_one_tag_witness :
  ∃ self s',
    construct_Task TaskCls session_args empty_context empty_store = (Ok self, s')
    ∧ Task_tags s' self = Some (CSet {["fast"]}).
Proof.
  destruct (string_tags_is_one_tag TaskCls session_args empty_context empty_store
              store_wf_empty)
    as (self & s' & Hrun & Hstr & _).
  - split; intros ? [=].
  - exact I.
  - intros [=].
  - exists self, s'. split; [exact Hrun|].
    exact (proj2 (Hstr "fast" eq_refl) eq_refl).
Defined.

(** ** The bound mapping, part by part *)

Section DictDel.
Context {K V : Type} `{EqDecision K}.
Implicit Types (k : K) (v : V) (d : list (K * V)).

Lemma dict_get_del_ne k k' d : k ≠ k' → dict_get k (dict_del k' d) = dict_get k d.
Proof.
  intros Hne. induction d as [|[k0 v0] d IH]; simpl; [done|].
  destruct (decide (k0 = k')) as [->|Hne'].
  - by rewrite decide_False.
  - simpl. by rewrite IH.
Qed.

Lemma dict_del_absent k d : k ∉ dict_keys d → dict_del k d = d.
Proof.
  unfold dict_keys. induction d as [|[k0 v0] d IH]; simpl; [done|].
  intros [Hne Hk]%not_elem_of_cons. rewrite decide_False by done. by rewrite IH.
Qed.

Lemma dict_del_filter k d :
  NoDup (dict_keys d) → dict_del k d = filter (λ kv, kv.1 ≠ k) d.
Proof.
  unfold dict_keys. induction d as [|[k0 v0] d IH]; simpl; [done|].
  intros [Hk0 Hnd]%NoDup_cons. rewrite filter_cons. simpl.
  destruct (decide (k0 = k)) as [->|Hne].
  - rewrite decide_False by (by intros []).
    rewrite <- IH by done. by rewrite dict_del_absent.
  - rewrite decide_True by done. by rewrite IH.
Qed.
End DictDel.

Lemma kwargs_as_dict_nil : kwargs_as_dict [] = [].
Proof. done. Qed.

Lemma positional_items_nil sig : positional_items sig [] = [].
Proof.
  unfold positional_items. by destruct (p_name <$> positional_params sig).
Qed.

Lemma variadic_items_nil sig : variadic_items sig [] = [].
Proof.
  unfold variadic_items. rewrite drop_nil. by destruct (filter _ sig).
Qed.

(** Names tell the parameters of a signature apart. *)
Lemma names_tell_apart sig p q :
  NoDup (p_name <$> sig) → p ∈ sig → q ∈ sig → p_name p = p_name q → p = q.
Proof.
  induction sig as [|r sig IH]; intros Hnd Hp Hq Heq; [by apply elem_of_nil in Hp|].
  rewrite fmap_cons in Hnd. apply NoDup_cons in Hnd as [Hr Hnd].
  apply elem_of_cons in Hp as [->|Hp]; apply elem_of_cons in Hq as [->|Hq].
  - done.
  - exfalso. apply Hr. rewrite Heq. by apply list_elem_of_fmap_2.
  - exfalso. apply Hr. rewrite <- Heq. by apply list_elem_of_fmap_2.
  - by apply IH.
Qed.

(** A signature has at most one variadic keyword parameter. *)
Lemma one_variadic_keyword sig :
  wf_signature sig →
  filter (λ p, p_kind p = VAR_KEYWORD) sig = []
  ∨ ∃ p, filter (λ p, p_kind p = VAR_KEYWORD) sig = [p].
Proof.
  induction sig as [|p sig IH]; intros Hwf; [by left|].
  apply wf_signature_cons in Hwf as (Hwf & Hb & _ & _).
  rewrite filter_cons. destruct (decide (p_kind p = VAR_KEYWORD)) as [Hk|Hk].
  - rewrite (after_variadic_keyword p sig Hk Hb). right. by exists p.
  - by apply IH.
Qed.

(** *** The first loop *)

(** The first loop of [_bind] on a call that binds: the parameters that
    take the positional values are the first ones, all plain, and no keyword
    names them; the second loop goes on from the parameter after them. *)
Lemma bind_positional_items kw args : ∀ ps acc r,
  wf_signature ps →
  (∀ p, p ∈ ps → KStr (p_name p) ∉ dict_keys acc) →
  bind_positional ps args kw acc = Ok r →
  let m := length args `min` length (positional_params ps) in
  r.1 = acc ++ positional_items ps args ++ variadic_items ps args
  ∧ (∀ acc0 kp, bind_keywords r.2 kw acc0 kp = bind_keywords (drop m ps) kw acc0 kp)
  ∧ (∀ p, p ∈ take m ps →
       p_kind p = POSITIONAL_OR_KEYWORD ∧ p_name p ∉ dict_keys kw)
  ∧ (∀ k, k ∈ dict_keys (positional_items ps args ++ variadic_items ps args) →
       ∃ q, k = KStr (p_name q)
            ∧ (q ∈ take m ps ∨ (q ∈ ps ∧ p_kind q = VAR_POSITIONAL))).
Proof.
  induction args as [|a args IH]; intros ps acc r Hwf Hacc Hr m.
  - subst m. simpl. rewrite positional_items_nil, variadic_items_nil, app_nil_r.
    rewrite take_0. split_and!.
    + destruct ps as [|p ps]; simpl in Hr; repeat case_match; by simplify_eq.
    + intros acc0 kp. rewrite drop_0.
      destruct ps as [|p ps]; simpl in Hr; [by simplify_eq|].
      destruct (decide (p_kind p = VAR_POSITIONAL)) as [Hvp|Hvp].
      * simplify_eq. simpl. rewrite Hvp. done.
      * repeat case_match; by simplify_eq.
    + by intros p ?%elem_of_nil.
    + by intros k ?%elem_of_nil.
  - destruct ps as [|p ps]; [done|]. simpl in Hr.
    apply wf_signature_cons in Hwf as (Hwf & Hb & Hpo & Hnames).
    destruct (p_kind p) eqn:Hk; simpl in Hr; try done.
    + (* a plain parameter takes the value *)
      rewrite dict_mem_elem_of in Hr. case_bool_decide as Hmem; [done|]. simpl in Hr.
      rewrite dict_set_fresh in Hr by (apply Hacc; by left).
      apply IH in Hr as (Hr1 & Hr2 & Htake & Hkeys); [|done|].
      * subst m. rewrite positional_params_cons by done. simpl.
        set (m := length args `min` length (positional_params ps)) in *.
        assert (Hpos : positional_items (p :: ps) (a :: args)
                       = (KStr (p_name p), a) :: positional_items ps args).
        { unfold positional_items. by rewrite positional_params_cons. }
        assert (Hvar : variadic_items (p :: ps) (a :: args) = variadic_items ps args).
        { unfold variadic_items. rewrite positional_params_cons by done.
          rewrite filter_cons, decide_False by congruence. done. }
        rewrite Hpos, Hvar. split_and!.
        -- rewrite Hr1. by rewrite <- app_assoc.
        -- done.
        -- intros q [->|Hq]%elem_of_cons; [done|by apply Htake].
        -- intros k [->|Hin]%elem_of_cons.
           ++ exists p. split; [done|]. left. by left.
           ++ destruct (Hkeys k Hin) as (q & -> & [Hq|[Hq Hvq]]); exists q;
                (split; [done|]); [left|right]; [by right|].
              split; [by right|done].
      * intros q Hq. unfold dict_keys. rewrite fmap_app, elem_of_app. simpl.
        intros [Hin|[= Heq]%list_elem_of_singleton].
        -- by apply (Hacc q); [right|].
        -- by apply (Hnames q).
    + (* the variadic positional parameter takes all the values left *)
      simplify_eq. simpl.
      assert (Hnopos : positional_params (p :: ps) = []).
      { rewrite positional_params_cons_other by congruence.
        apply no_positional_params. apply (after_positional p); [by left|done]. }
      subst m. rewrite Hnopos. simpl. rewrite ?Nat.min_0_r, ?take_0, ?drop_0.
      assert (Hpos : positional_items (p :: ps) (a :: args) = []).
      { unfold positional_items. by rewrite Hnopos. }
      assert (Hvar : variadic_items (p :: ps) (a :: args)
                     = [(KStr (p_name p), VTuple (a :: args))]).
      { unfold variadic_items. rewrite Hnopos. simpl.
        by rewrite filter_cons, decide_True. }
      rewrite Hpos, Hvar. simpl. split_and!.
      * apply dict_set_fresh. apply Hacc. by left.
      * intros acc0 kp. simpl. by rewrite Hk.
      * by intros q ?%elem_of_nil.
      * intros k ->%list_elem_of_singleton. exists p. split; [done|].
        right. split; [by left|done].
Qed.

(** *** The second loop *)

Lemma keyword_items_cons_skip p ps kw :
  takes_keyword p = false ∨ p_name p ∉ dict_keys kw →
  keyword_items (p :: ps) kw = keyword_items ps kw.
Proof.
  intros Hp. unfold keyword_items. simpl.
  destruct (takes_keyword p) eqn:Htk; [|done].
  destruct Hp as [?|Hp]; [done|]. apply dict_get_None in Hp. by rewrite Hp.
Qed.

Lemma keyword_items_cons_take p ps kw v :
  takes_keyword p = true → dict_get (p_name p) kw = Some v →
  keyword_items (p :: ps) kw = (KStr (p_name p), v) :: keyword_items ps kw.
Proof. intros Htk Hget. unfold keyword_items. simpl. by rewrite Htk, Hget. Qed.

Lemma keyword_items_del ps kw n :
  (∀ q, q ∈ ps → p_name q ≠ n) →
  keyword_items ps (dict_del n kw) = keyword_items ps kw.
Proof.
  intros Hn. unfold keyword_items. apply omap_ext_elem. intros q Hq.
  destruct (takes_keyword q); [|done]. by rewrite dict_get_del_ne by (by apply Hn).
Qed.

Lemma keyword_items_keys ps kw k :
  k ∈ dict_keys (keyword_items ps kw) →
  ∃ q, k = KStr (p_name q) ∧ q ∈ ps ∧ takes_keyword q = true.
Proof.
  unfold dict_keys, keyword_items.
  intros ([k' v] & -> & (q & Hq & Hsome)%list_elem_of_omap)%list_elem_of_fmap.
  destruct (takes_keyword q) eqn:Htk; [|done].
  destruct (dict_get (p_name q) kw); simplify_eq/=. eauto.
Qed.

Lemma keyword_names_cons p ps :
  filter (λ p, takes_keyword p) (p :: ps)
  = if takes_keyword p then p :: filter (λ p, takes_keyword p) ps
    else filter (λ p, takes_keyword p) ps.
Proof.
  rewrite filter_cons. by destruct (takes_keyword p).
Qed.

Lemma filter_ext_elem {A} (P1 P2 : A → Prop)
    `{!∀ x, Decision (P1 x), !∀ x, Decision (P2 x)} (l : list A) :
  (∀ x, x ∈ l → P1 x ↔ P2 x) → filter P1 l = filter P2 l.
Proof.
  induction l as [|a l IH]; intros Hiff; [done|].
  rewrite !filter_cons. rewrite IH by (intros x Hx; apply Hiff; by right).
  apply decide_ext, Hiff. by left.
Qed.

Lemma overflow_kwargs_cons_skip p ps kw :
  takes_keyword p = false ∨ p_name p ∉ dict_keys kw →
  overflow_kwargs (p :: ps) kw = overflow_kwargs ps kw.
Proof.
  intros Hp. unfold overflow_kwargs. rewrite keyword_names_cons.
  destruct (takes_keyword p) eqn:Htk; [|done].
  destruct Hp as [?|Hp]; [done|].
  apply filter_ext_elem. intros [k v] Hkv. cbv iota. simpl.
  rewrite not_elem_of_cons.
  split; [naive_solver|]. intros Hk. split; [|done].
  intros ->. apply Hp. by apply (list_elem_of_fmap_2 fst _ (p_name p, v)).
Qed.

Lemma overflow_kwargs_cons_take p ps kw :
  NoDup (dict_keys kw) → takes_keyword p = true →
  overflow_kwargs (p :: ps) kw = overflow_kwargs ps (dict_del (p_name p) kw).
Proof.
  intros Hnd Htk. unfold overflow_kwargs. rewrite keyword_names_cons, Htk.
  rewrite dict_del_filter by done. rewrite list_filter_filter.
  apply list_filter_iff. intros [k v]. cbv iota. simpl. rewrite not_elem_of_cons.
  naive_solver.
Qed.

(** The second loop of [_bind] on a call that binds: the parameters a
    keyword names take its value, in the order of the signature; the keywords
    no parameter takes are left, in the order of the call. *)
Lemma bind_keywords_items ps : ∀ kw acc kp r,
  NoDup (p_name <$> ps) → NoDup (dict_keys kw) →
  Forall (λ p, p_kind p ≠ POSITIONAL_ONLY) ps →
  (∀ p, p ∈ ps → takes_keyword p → KStr (p_name p) ∉ dict_keys acc) →
  bind_keywords ps kw acc kp = Ok r →
  r.1.1 = acc ++ keyword_items ps kw
  ∧ r.1.2 = overflow_kwargs ps kw
  ∧ r.2 = match last (filter (λ p, p_kind p = VAR_KEYWORD) ps) with
          | Some p => Some p
          | None => kp
          end.
Proof.
  induction ps as [|p ps IH]; intros kw acc kp r Hnames Hkeys Hpo Hacc Hr; simpl in Hr.
  - simplify_eq. simpl. rewrite app_nil_r. split_and!; [done| |done].
    unfold overflow_kwargs. simpl. clear Hkeys.
    induction kw as [|kv kw IHkw]; [done|].
    rewrite filter_cons, decide_True by apply not_elem_of_nil. by f_equal.
  - rewrite fmap_cons in Hnames. apply NoDup_cons in Hnames as [Hp Hnames].
    apply Forall_cons in Hpo as [Hppo Hpo].
    assert (Hacc' : ∀ q, q ∈ ps → takes_keyword q → KStr (p_name q) ∉ dict_keys acc)
      by (intros q Hq; apply Hacc; by right).
    assert (Hq : ∀ q, q ∈ ps → p_name q ≠ p_name p).
    { intros q Hq Heq. apply Hp. rewrite <- Heq. by apply list_elem_of_fmap_2. }
    destruct (decide (p_kind p = VAR_KEYWORD)) as [Hvk|Hvk].
    { apply IH in Hr as (Hr1 & Hr2 & Hr3); [|done..].
      assert (Htk : takes_keyword p = false) by (unfold takes_keyword; by rewrite Hvk).
      rewrite keyword_items_cons_skip, overflow_kwargs_cons_skip by (by left).
      rewrite filter_cons, decide_True by done. rewrite last_cons.
      split_and!; [done..|]. rewrite Hr3. by destruct (last _). }
    assert (Hfilter : filter (λ p, p_kind p = VAR_KEYWORD) (p :: ps)
                      = filter (λ p, p_kind p = VAR_KEYWORD) ps)
      by (by rewrite filter_cons, decide_False).
    rewrite Hfilter.
    destruct (decide (p_kind p = VAR_POSITIONAL)) as [Hvp|Hvp].
    { apply IH in Hr as (Hr1 & Hr2 & Hr3); [|done..].
      assert (Htk : takes_keyword p = false) by (unfold takes_keyword; by rewrite Hvp).
      by rewrite keyword_items_cons_skip, overflow_kwargs_cons_skip by (by left). }
    assert (Htk : takes_keyword p = true).
    { apply Is_true_true, takes_keyword_spec. destruct (p_kind p); naive_solver. }
    destruct (dict_pop (p_name p) kw) as [[v kw']|] eqn:Hpop.
    + pose proof Hpop as Hget. unfold dict_pop in Hget.
      destruct (dict_get (p_name p) kw) as [v'|] eqn:Hget'; [|done].
      injection Hget as -> <-.
      rewrite decide_False in Hr by done.
      rewrite dict_set_fresh in Hr by (apply Hacc; [by left|by rewrite Htk]).
      apply IH in Hr as (Hr1 & Hr2 & Hr3); [|done|by apply dict_del_NoDup|done|].
      * rewrite (keyword_items_cons_take _ _ _ v) by done.
        rewrite overflow_kwargs_cons_take by done.
        rewrite keyword_items_del in Hr1 by done.
        split_and!; [|done..]. rewrite Hr1. by rewrite <- app_assoc.
      * intros q Hqin Hqk. unfold dict_keys. rewrite fmap_app, elem_of_app. simpl.
        intros [Hin|[= Heq]%list_elem_of_singleton].
        -- by apply (Hacc' q).
        -- by apply (Hq q).
    + apply dict_pop_None in Hpop.
      destruct (p_has_default p); [|done].
      apply IH in Hr as (Hr1 & Hr2 & Hr3); [|done..].
      by rewrite keyword_items_cons_skip, overflow_kwargs_cons_skip by (by right).
Qed.

(** *** The whole mapping *)

Lemma keyword_items_app_skip l1 l2 kw :
  (∀ p, p ∈ l1 → p_name p ∉ dict_keys kw) →
  keyword_items (l1 ++ l2) kw = keyword_items l2 kw.
Proof.
  induction l1 as [|p l1 IH]; intros Hl1; [done|]. rewrite <- app_comm_cons.
  rewrite keyword_items_cons_skip by (right; apply Hl1; by left).
  apply IH. intros q Hq. apply Hl1. by right.
Qed.

Lemma overflow_kwargs_app_skip l1 l2 kw :
  (∀ p, p ∈ l1 → p_name p ∉ dict_keys kw) →
  overflow_kwargs (l1 ++ l2) kw = overflow_kwargs l2 kw.
Proof.
  induction l1 as [|p l1 IH]; intros Hl1; [done|]. rewrite <- app_comm_cons.
  rewrite overflow_kwargs_cons_skip by (right; apply Hl1; by left).
  apply IH. intros q Hq. apply Hl1. by right.
Qed.

Lemma filter_kind_app_skip k l1 l2 :
  (∀ p, p ∈ l1 → p_kind p ≠ k) →
  filter (λ p, p_kind p = k) (l1 ++ l2) = filter (λ p, p_kind p = k) l2.
Proof.
  induction l1 as [|p l1 IH]; intros Hl1; [done|]. rewrite <- app_comm_cons.
  rewrite filter_cons, decide_False by (apply Hl1; by left).
  apply IH. intros q Hq. apply Hl1. by right.
Qed.

(** The mapping of a call that binds is the four groups of items. *)
Lemma bind_is_bound_mapping sig args kwargs d :
  wf_signature sig → wf_kwargs kwargs →
  bind sig args kwargs = Ok d →
  d = bound_mapping sig args kwargs.
Proof.
  intros Hwf Hkw. unfold bind, bind_from. intros Hb.
  destruct (bind_positional sig args kwargs []) as [r1|] eqn:E1; [|done].
  apply bind_positional_items in E1 as (Hr1 & Hr2 & Htake & Hkeys);
    [|done|by intros p _; apply not_elem_of_nil].
  set (m := length args `min` length (positional_params sig)) in *.
  simpl in Hb, Hr1. rewrite Hr2 in Hb.
  destruct (bind_keywords (drop m sig) kwargs r1.1 None) as [r2|] eqn:E2; [|done].
  pose proof Hwf as (_ & Hnames & Hpo).
  assert (Hsplit : sig = take m sig ++ drop m sig) by (by rewrite take_drop).
  pose proof Hnames as Hnames'. rewrite Hsplit, fmap_app in Hnames'.
  apply NoDup_app in Hnames' as (_ & Hdisj & Hnd).
  assert (Hin_take : ∀ q, q ∈ take m sig → q ∈ sig).
  { intros q Hq. rewrite Hsplit. apply elem_of_app. by left. }
  assert (Hin_drop : ∀ q, q ∈ drop m sig → q ∈ sig).
  { intros q Hq. rewrite Hsplit. apply elem_of_app. by right. }
  assert (Hfresh1 : ∀ k, k ∈ dict_keys r1.1 →
            ∃ q, k = KStr (p_name q) ∧ q ∈ sig ∧ p_kind q ≠ VAR_KEYWORD
                 ∧ (q ∈ take m sig ∨ p_kind q = VAR_POSITIONAL)).
  { intros k Hk. rewrite Hr1 in Hk. destruct (Hkeys k Hk) as (q & -> & [Hq|[Hq Hvq]]).
    - exists q. destruct (Htake q Hq) as [Hpk _].
      split_and!; [done|by apply Hin_take|congruence|by left].
    - exists q. split_and!; [done|done|congruence|by right]. }
  apply bind_keywords_items in E2 as (Hk1 & Hk2 & Hk3);
    [|done|done|by apply Forall_drop|].
  2:{ intros p Hp Htk Hin. destruct (Hfresh1 _ Hin) as (q & [= Heq] & Hq & _ & [Hqt|Hqv]).
      - apply (Hdisj (p_name q)); [by apply list_elem_of_fmap_2|].
        rewrite <- Heq. by apply list_elem_of_fmap_2.
      - assert (p = q) as -> by (apply (names_tell_apart sig); auto).
        apply takes_keyword_spec in Htk. rewrite Hqv in Htk. naive_solver. }
  assert (Hskip : ∀ p, p ∈ take m sig → p_name p ∉ dict_keys kwargs)
    by (intros p Hp; by destruct (Htake p Hp)).
  rewrite <- (keyword_items_app_skip (take m sig)), <- Hsplit in Hk1 by done.
  rewrite <- (overflow_kwargs_app_skip (take m sig)), <- Hsplit in Hk2 by done.
  rewrite <- (filter_kind_app_skip VAR_KEYWORD (take m sig)), <- Hsplit in Hk3.
  2:{ intros p Hp. destruct (Htake p Hp) as [Hpk _]. congruence. }
  destruct r2 as [[acc2 kw2] kp2]. simpl in Hk1, Hk2, Hk3, Hb.
  unfold mbind, outcome_bind, obind in Hb. simpl in Hb.
  unfold bound_mapping, overflow_items. rewrite <- Hk2.
  destruct kw2 as [|[k v] kw2].
  { simplify_eq. rewrite Hr1.
    destruct (filter _ sig); by rewrite app_nil_r, <- app_assoc. }
  destruct kp2 as [p|]; [|done]. injection Hb as <-.
  destruct (one_variadic_keyword sig Hwf) as [Hnone|[p' Hone]].
  { rewrite Hnone in Hk3. done. }
  rewrite Hone in Hk3 |- *. simpl in Hk3. injection Hk3 as <-.
  assert (Hp : p_kind p = VAR_KEYWORD ∧ p ∈ sig).
  { apply (list_elem_of_filter (λ p, p_kind p = VAR_KEYWORD)).
    rewrite Hone. by left. }
  destruct Hp as [Hpk Hp].
  rewrite dict_set_fresh.
  - rewrite Hk1, Hr1. by rewrite <- !app_assoc.
  - rewrite Hk1. unfold dict_keys. rewrite fmap_app, elem_of_app.
    intros [Hin|Hin].
    + destruct (Hfresh1 _ Hin) as (q & [= Heq] & Hq & Hqk & _).
      assert (p = q) as -> by (apply (names_tell_apart sig); auto). done.
    + apply keyword_items_keys in Hin as (q & [= Heq] & Hq & Htk).
      assert (p = q) as -> by (apply (names_tell_apart sig); auto).
      unfold takes_keyword in Htk. rewrite Hpk in Htk. done.
Qed.

(** X15.  What an invocation hands to the flow.  For a signature as a [def]
    gives it and keyword arguments with one value per name, none of them
    [self] or [upstream_tasks], which do not reach the binding, an invocation
    that fails in none of the four ways binds, and the mapping of an
    invocation that binds is, in this order: the positional values under the
    names of the parameters at their positions; the positional values left
    over, as one tuple under the name of the variadic positional parameter;
    the keyword values under their names, in the order of the signature and
    not of the call; the keywords no parameter takes, as one mapping under
    the name of the variadic keyword parameter.  A parameter left to its
    default, and a variadic parameter that catches nothing, have no item. *)
Theorem bound_mapping_described sig args kwargs :
  wf_signature sig → wf_kwargs kwargs → reaches_kwargs kwargs →
  (∀ d, callargs sig args kwargs = Ok d → d = bound_mapping sig args kwargs)
  ∧ (unknown_keyword sig kwargs = false →
     too_many_positionals sig args = false →
     missing_value sig args kwargs = false →
     value_given_twice sig args kwargs = false →
     callargs sig args kwargs = Ok (bound_mapping sig args kwargs)).
Proof.
  intros Hwf Hkw _. rewrite callargs_is_bind. split.
  - intros d. by apply bind_is_bound_mapping.
  - intros H1 H2 H3 H4.
    destruct (bind sig args kwargs) as [d|e] eqn:Hb.
    + f_equal. by apply bind_is_bound_mapping.
    + exfalso.
      assert (Hr : raises (bind_from [] sig args kwargs)) by (by exists e).
      apply bind_from_raises in Hr; [|done..].
      rewrite H1, H2, H3, H4 in Hr. naive_solver.
Qed.

Lemma bound_mapping_described_witness :
  wf_signature sig_all_kinds
  ∧ callargs sig_all_kinds [VInt 1; VInt 2; VInt 3] [("x", VInt 5); ("c", VInt 4)]
    = Ok (bound_mapping sig_all_kinds [VInt 1; VInt 2; VInt 3]
            [("x", VInt 5); ("c", VInt 4)])
  ∧ bound_mapping sig_all_kinds [VInt 1; VInt 2; VInt 3] [("x", VInt 5); ("c", VInt 4)]
    = [(KStr "a", VInt 1); (KStr "b", VInt 2); (KStr "more", VTuple [VInt 3]);
       (KStr "c", VInt 4); (KStr "rest", VDict [(KStr "x", VInt 5)])].
Proof.
  assert (Hsig : wf_signature sig_all_kinds).
  { split_and!.
    - repeat constructor; (by left; simpl; lia) || (by right).
    - compute_done.
    - repeat constructor; done. }
  assert (Hkw : wf_kwargs [("x", VInt 5); ("c", VInt 4)]) by compute_done.
  assert (Hown : reaches_kwargs [("x", VInt 5); ("c", VInt 4)]).
  { apply reaches_kwargs_check. reflexivity. }
  destruct (bound_mapping_described sig_all_kinds [VInt 1; VInt 2; VInt 3]
              [("x", VInt 5); ("c", VInt 4)] Hsig Hkw Hown) as [_ Hbinds].
  split_and!; [exact Hsig | by apply Hbinds | reflexivity].
Defined.
